(** * OfflineLink: a verified model of the offline mutation queue

    Shallow embedding of [src/OfflineLink.js] (apollo-link-offline).

    The link keeps a JavaScript [Map] of pending mutation attempts, persists
    it as JSON under one storage key, publishes a [SyncStatus] record in the
    Apollo cache and replays the queue against the network from [sync].

    Modelling choices, shared by the whole development:
    - JavaScript values are the inductive type [value].  Numbers are exact
      decimals: an integer is a [Z], a number with a fraction is its sign,
      its whole part and the digits of its fraction.  Every JSON number
      literal, with fraction and exponent, is read; numbers are written in
      positional notation (JavaScript writes those from 1e21 and below 1e-6
      with an exponent, which is read back as the same number).  Strings
      are held as their UTF-8 bytes.  An object is the list of its own
      properties in creation order (the numeric-key-first enumeration rule
      of JavaScript is not modelled).
    - A [Map] is the list of its entries in insertion order.  Keys are
      compared structurally; for the primitive keys the link creates (uuid
      strings) this is the SameValueZero comparison of JavaScript.
    - The methods of the class are computations in a state-and-exception
      monad [M] over the record [OfflineLink]; every effect on a collaborator
      (storage, Apollo client, forward link, observer, debounce timer) is
      also appended to a log of [Event]s in program order.
    - The storage provider is a promise-returning one, as [getQueue] uses
      it; reads and writes of the provider succeed.
    - [client.mutate] runs the link chain of the Apollo client, which
      starts with this link, on an operation whose context carries the
      [optimisticResponse] of the options.  A replay without one passes
      through [request] untouched and is taken at the promise it returns,
      an oracle.  A replay that still carries one comes back through
      [request]: it is queued again under a new id, and the link handles
      what the forward link emits for it.  The network gives those
      emissions, what the promise settles to and the order in which
      replays launched together settle; the emissions of one replay are
      handled together. *)

From Stdlib Require Import List String Ascii ZArith NArith Bool Lia Permutation.
From Stdlib Require Import DecimalString DecimalN DecimalFacts.
Import ListNotations.
Open Scope string_scope.

(** ** JavaScript values *)

Module JS.

#[local] Set Warnings "-register-all".

Inductive value : Type :=
| VUndefined
| VNull
| VBool (b : bool)
| VNum (z : Z)
| VDec (negative : bool) (whole : N) (fraction : Decimal.uint)
| VStr (s : string)
| VArr (elements : list value)
| VObj (properties : list (string * value)).

(** Result of evaluating an expression that may throw. *)
Inductive result (A : Type) : Type :=
| Ok (a : A)
| Throw (error : value).
Arguments Ok {A} a.
Arguments Throw {A} error.

Definition TypeError (message : string) : value :=
  VObj [("name", VStr "TypeError"); ("message", VStr message)].

Definition SyntaxError (message : string) : value :=
  VObj [("name", VStr "SyntaxError"); ("message", VStr message)].

(** ToBoolean. *)
Definition truthy (v : value) : bool :=
  match v with
  | VUndefined | VNull => false
  | VBool b => b
  | VNum z => negb (z =? 0)%Z
  | VDec _ whole fraction =>
      match whole, Decimal.nzhead fraction with
      | 0%N, Decimal.Nil => false
      | _, _ => true
      end
  | VStr s => negb (s =? EmptyString)
  | VArr _ | VObj _ => true
  end.

(** Own properties of an object, in creation order. *)
Fixpoint obj_get (k : string) (o : list (string * value)) : value :=
  match o with
  | [] => VUndefined
  | (k', v) :: o' => if k' =? k then v else obj_get k o'
  end.

Fixpoint obj_has (k : string) (o : list (string * value)) : bool :=
  match o with
  | [] => false
  | (k', _) :: o' => (k' =? k) || obj_has k o'
  end.

(** [o[k] = v]: an existing property keeps its place, a new one goes last. *)
Fixpoint obj_set (k : string) (v : value) (o : list (string * value))
  : list (string * value) :=
  match o with
  | [] => [(k, v)]
  | (k', v') :: o' => if k' =? k then (k', v) :: o' else (k', v') :: obj_set k v o'
  end.

(** [v.k]: reading a property of [undefined] or [null] throws a TypeError;
    the primitives and arrays have none of the properties the link reads. *)
Definition get_prop (v : value) (k : string) : result value :=
  match v with
  | VUndefined => Throw (TypeError ("Cannot read property of undefined"))
  | VNull => Throw (TypeError ("Cannot read property of null"))
  | VObj o => Ok (obj_get k o)
  | _ => Ok VUndefined
  end.

Definition index_key (i : nat) : string :=
  NilZero.string_of_uint (Nat.to_uint i).

Fixpoint indexed (i : nat) (l : list value) : list (string * value) :=
  match l with
  | [] => []
  | x :: l' => (index_key i, x) :: indexed (S i) l'
  end.

Fixpoint chars (s : string) : list value :=
  match s with
  | EmptyString => []
  | String c s' => VStr (String c EmptyString) :: chars s'
  end.

(** Object spread [{...v}]: the own enumerable properties of [v]. *)
Definition spread (v : value) : list (string * value) :=
  match v with
  | VObj o => o
  | VArr l => indexed 0 l
  | VStr s => indexed 0 (chars s)
  | _ => []
  end.

Fixpoint value_eqb (a b : value) {struct a} : bool :=
  match a, b with
  | VUndefined, VUndefined => true
  | VNull, VNull => true
  | VBool x, VBool y => Bool.eqb x y
  | VNum x, VNum y => (x =? y)%Z
  | VDec n1 w1 f1, VDec n2 w2 f2 =>
      Bool.eqb n1 n2 && (w1 =? w2)%N && Decimal.uint_beq f1 f2
  | VStr x, VStr y => (x =? y)
  | VArr x, VArr y =>
      (fix go (l1 l2 : list value) : bool :=
         match l1, l2 with
         | [], [] => true
         | u :: l1', w :: l2' => value_eqb u w && go l1' l2'
         | _, _ => false
         end) x y
  | VObj x, VObj y =>
      (fix go (l1 l2 : list (string * value)) : bool :=
         match l1, l2 with
         | [], [] => true
         | (k1, u) :: l1', (k2, w) :: l2' => (k1 =? k2) && value_eqb u w && go l1' l2'
         | _, _ => false
         end) x y
  | _, _ => false
  end.

End JS.
Import JS.

(** Induction on values, with the induction hypothesis for every element of
    an array and every property of an object. *)
Section ValueInduction.

Variable P : value -> Prop.
Hypothesis P_undefined : P VUndefined.
Hypothesis P_null : P VNull.
Hypothesis P_bool : forall b, P (VBool b).
Hypothesis P_num : forall z, P (VNum z).
Hypothesis P_dec : forall negative whole fraction, P (VDec negative whole fraction).
Hypothesis P_str : forall s, P (VStr s).
Hypothesis P_arr : forall l, Forall P l -> P (VArr l).
Hypothesis P_obj : forall o, Forall (fun kv => P (snd kv)) o -> P (VObj o).

Fixpoint value_nested_ind (v : value) : P v :=
  match v with
  | VUndefined => P_undefined
  | VNull => P_null
  | VBool b => P_bool b
  | VNum z => P_num z
  | VDec negative whole fraction => P_dec negative whole fraction
  | VStr s => P_str s
  | VArr l =>
      P_arr l ((fix go (l : list value) : Forall P l :=
                  match l with
                  | [] => Forall_nil P
                  | x :: l' => Forall_cons x (value_nested_ind x) (go l')
                  end) l)
  | VObj o =>
      P_obj o ((fix go (o : list (string * value)) : Forall (fun kv => P (snd kv)) o :=
                  match o with
                  | [] => Forall_nil _
                  | kv :: o' => Forall_cons kv (value_nested_ind (snd kv)) (go o')
                  end) o)
  end.

End ValueInduction.

(** ** JSON.stringify and JSON.parse

    The two built-ins the link persists its queue with.  [stringify] is
    SerializeJSONProperty without indentation: [undefined] has no
    serialization, is dropped from objects and becomes [null] in arrays.
    [parse] is a recursive-descent parser of the JSON grammar; [None]
    stands for the SyntaxError it throws. *)

Module JSON.

Definition hex_digit (n : nat) : ascii :=
  ascii_of_nat (if (n <? 10)%nat then 48 + n else 87 + n).

(** One character of a quoted JSON string (QuoteJSONString). *)
Definition escape (c : ascii) : string :=
  let n := nat_of_ascii c in
  if (n =? 34)%nat then String "\" (String "034" EmptyString)
  else if (n =? 92)%nat then "\\"
  else if (n =? 8)%nat then "\b"
  else if (n =? 12)%nat then "\f"
  else if (n =? 10)%nat then "\n"
  else if (n =? 13)%nat then "\r"
  else if (n =? 9)%nat then "\t"
  else if (n <? 32)%nat then
    "\u00" ++ String (hex_digit (n / 16)) (String (hex_digit (n mod 16)) EmptyString)
  else String c EmptyString.

Fixpoint escape_all (s : string) : string :=
  match s with
  | EmptyString => EmptyString
  | String c s' => escape c ++ escape_all s'
  end.

Definition quote (s : string) : string :=
  String "034" (escape_all s ++ String "034" EmptyString).

Definition number_to_string (z : Z) : string :=
  if (z <? 0)%Z
  then String "-" (NilZero.string_of_uint (N.to_uint (Z.abs_N z)))
  else NilZero.string_of_uint (N.to_uint (Z.abs_N z)).

(** A number with a fraction: sign, whole part, point, fraction digits. *)
Definition decimal_to_string (negative : bool) (whole : N) (fraction : Decimal.uint)
  : string :=
  let digits := NilZero.string_of_uint (N.to_uint whole)
                ++ String "." (NilEmpty.string_of_uint fraction) in
  if negative then String "-" digits else digits.

Fixpoint join (sep : string) (l : list string) : string :=
  match l with
  | [] => EmptyString
  | [x] => x
  | x :: l' => x ++ sep ++ join sep l'
  end.

Fixpoint stringify (v : value) : option string :=
  match v with
  | VUndefined => None
  | VNull => Some "null"
  | VBool b => Some (if b then "true" else "false")
  | VNum z => Some (number_to_string z)
  | VDec negative whole fraction => Some (decimal_to_string negative whole fraction)
  | VStr s => Some (quote s)
  | VArr l =>
      Some ("[" ++ join ","
              (map (fun x => match stringify x with Some t => t | None => "null" end) l)
            ++ "]")
  | VObj o =>
      Some ("{" ++ join ","
              (flat_map (fun kv => match stringify (snd kv) with
                                   | Some t => [quote (fst kv) ++ ":" ++ t]
                                   | None => []
                                   end) o)
            ++ "}")
  end.

(** *** Parsing *)

Definition is_ws (c : ascii) : bool :=
  let n := nat_of_ascii c in
  ((n =? 32) || (n =? 9) || (n =? 10) || (n =? 13))%nat.

Fixpoint skip_ws (s : string) : string :=
  match s with
  | String c s' => if is_ws c then skip_ws s' else s
  | EmptyString => s
  end.

(** Longest prefix of decimal digits, as a [Decimal.uint]. *)
Fixpoint lex_digits (s : string) : Decimal.uint * string :=
  match s with
  | String c s' =>
      match uint_of_char c (Some Decimal.Nil) with
      | Some _ =>
          let (d, r) := lex_digits s' in
          match uint_of_char c (Some d) with
          | Some d' => (d', r)
          | None => (Decimal.Nil, s)
          end
      | None => (Decimal.Nil, s)
      end
  | EmptyString => (Decimal.Nil, s)
  end.

(** The digits of the integer part: [0] or a digit sequence without a
    leading zero. *)
Definition lex_int (s : string) : option (Decimal.uint * string) :=
  match lex_digits s with
  | (Decimal.Nil, _) => None
  | (Decimal.D0 Decimal.Nil, r) => Some (Decimal.D0 Decimal.Nil, r)
  | (Decimal.D0 _, _) => None
  | (d, r) => Some (d, r)
  end.

(** The digits of the fraction when a point follows, at least one; no
    digits when there is no point. *)
Definition lex_frac (s : string) : option (Decimal.uint * string) :=
  match s with
  | String c r =>
      if Ascii.eqb c "." then
        match lex_digits r with
        | (Decimal.Nil, _) => None
        | (d, r') => Some (d, r')
        end
      else Some (Decimal.Nil, s)
  | EmptyString => Some (Decimal.Nil, s)
  end.

(** The exponent when [e] or [E] follows: an optional sign and at least
    one digit. *)
Definition lex_exp (s : string) : option (option Z * string) :=
  match s with
  | String c r =>
      if Ascii.eqb c "e" || Ascii.eqb c "E" then
        let signed :=
          match r with
          | String sign r1 =>
              if Ascii.eqb sign "-" then (true, r1)
              else if Ascii.eqb sign "+" then (false, r1)
              else (false, r)
          | EmptyString => (false, r)
          end in
        match lex_digits (snd signed) with
        | (Decimal.Nil, _) => None
        | (d, r2) =>
            Some (Some (if fst signed then (- Z.of_N (N.of_uint d))%Z
                        else Z.of_N (N.of_uint d)), r2)
        end
      else Some (None, s)
  | EmptyString => Some (None, s)
  end.

Definition zeros (n : nat) : Decimal.uint := Nat.iter n Decimal.D0 Decimal.Nil.

(** The digits before and after the point of [whole.fraction] times ten to
    the power [x]: the point moves [x] places to the right. *)
Definition shift (x : Z) (whole fraction : Decimal.uint) : Decimal.uint * Decimal.uint :=
  if (0 <=? x)%Z then
    let n := Z.to_nat x in
    let k := Decimal.nb_digits fraction in
    if (n <=? k)%nat
    then (Decimal.app whole (Decimal.del_tail (k - n) fraction), Decimal.del_head n fraction)
    else (Decimal.app whole (Decimal.app fraction (zeros (n - k))), Decimal.Nil)
  else
    let n := Z.to_nat (- x) in
    let k := Decimal.nb_digits whole in
    if (n <=? k)%nat
    then (Decimal.del_tail n whole, Decimal.app (Decimal.del_head (k - n) whole) fraction)
    else (Decimal.Nil, Decimal.app (zeros (n - k)) (Decimal.app whole fraction)).

(** A fraction without its trailing zeros. *)
Definition strip_zeros (fraction : Decimal.uint) : Decimal.uint :=
  Decimal.rev (Decimal.nzhead (Decimal.rev fraction)).

(** The number a literal denotes: an integer when no fraction digit is left
    once the exponent is applied and trailing zeros are dropped. *)
Definition number_value (negative : bool) (whole fraction : Decimal.uint)
    (exponent : option Z) : value :=
  let digits := match exponent with
                | Some x => shift x whole fraction
                | None => (whole, fraction)
                end in
  match strip_zeros (snd digits) with
  | Decimal.Nil =>
      VNum (if negative then (- Z.of_N (N.of_uint (fst digits)))%Z
            else Z.of_N (N.of_uint (fst digits)))
  | digits_left => VDec negative (N.of_uint (fst digits)) digits_left
  end.

(** The digits of a number after its sign. *)
Definition parse_unsigned (negative : bool) (s : string) : option (value * string) :=
  match lex_int s with
  | Some (whole, s1) =>
      match lex_frac s1 with
      | Some (fraction, s2) =>
          match lex_exp s2 with
          | Some (exponent, s3) => Some (number_value negative whole fraction exponent, s3)
          | None => None
          end
      | None => None
      end
  | None => None
  end.

Definition parse_number (s : string) : option (value * string) :=
  match s with
  | String c r => if Ascii.eqb c "-" then parse_unsigned true r else parse_unsigned false s
  | EmptyString => None
  end.

Definition hex_value (c : ascii) : option nat :=
  let n := nat_of_ascii c in
  if ((48 <=? n) && (n <=? 57))%nat then Some (n - 48)
  else if ((97 <=? n) && (n <=? 102))%nat then Some (n - 87)
  else if ((65 <=? n) && (n <=? 70))%nat then Some (n - 55)
  else None.

(** The character a one-letter escape stands for. *)
Definition unescape (e : ascii) : option ascii :=
  if Ascii.eqb e "034" then Some "034"%char
  else if Ascii.eqb e "\" then Some "\"%char
  else if Ascii.eqb e "/" then Some "/"%char
  else if Ascii.eqb e "b" then Some (ascii_of_nat 8)
  else if Ascii.eqb e "f" then Some (ascii_of_nat 12)
  else if Ascii.eqb e "n" then Some (ascii_of_nat 10)
  else if Ascii.eqb e "r" then Some (ascii_of_nat 13)
  else if Ascii.eqb e "t" then Some (ascii_of_nat 9)
  else None.

(** The code unit of a [\uXXXX] escape. *)
Definition hex4 (a b c d : ascii) : option N :=
  match hex_value a, hex_value b, hex_value c, hex_value d with
  | Some w, Some x, Some y, Some z => Some (N.of_nat (4096 * w + 256 * x + 16 * y + z))
  | _, _, _, _ => None
  end.

(** The UTF-8 bytes of a code point. *)
Definition utf8 (code : N) : string :=
  if (code <? 128)%N then String (ascii_of_N code) EmptyString
  else if (code <? 2048)%N then
    String (ascii_of_N (192 + code / 64))
      (String (ascii_of_N (128 + code mod 64)) EmptyString)
  else if (code <? 65536)%N then
    String (ascii_of_N (224 + code / 4096))
      (String (ascii_of_N (128 + (code / 64) mod 64))
         (String (ascii_of_N (128 + code mod 64)) EmptyString))
  else
    String (ascii_of_N (240 + code / 262144))
      (String (ascii_of_N (128 + (code / 4096) mod 64))
         (String (ascii_of_N (128 + (code / 64) mod 64))
            (String (ascii_of_N (128 + code mod 64)) EmptyString))).

Definition high_surrogate (code : N) : bool := ((55296 <=? code) && (code <? 56320))%N.
Definition low_surrogate (code : N) : bool := ((56320 <=? code) && (code <? 57344))%N.

(** The code point of a surrogate pair. *)
Definition surrogate_pair (high low : N) : N :=
  (65536 + (high - 55296) * 1024 + (low - 56320))%N.

(** The characters [chars] in front of what the rest of a literal gives. *)
Definition prepend (chars : string) (parsed : option (string * string))
  : option (string * string) :=
  match parsed with
  | Some (t, r) => Some (chars ++ t, r)
  | None => None
  end.

(** The characters of a string literal after its opening quote.  A [\u]
    escape of a high surrogate directly followed by one of a low surrogate
    is one code point. *)
Fixpoint parse_chars (s : string) : option (string * string) :=
  match s with
  | EmptyString => None
  | String c r =>
      if Ascii.eqb c "034" then Some (EmptyString, r)
      else if Ascii.eqb c "\" then
        match r with
        | EmptyString => None
        | String e r1 =>
            if Ascii.eqb e "u" then
              match r1 with
              | String a (String b (String c' (String d r2))) =>
                  match hex4 a b c' d with
                  | Some code =>
                      if high_surrogate code then
                        match r2 with
                        | String e1 (String e2
                            (String a' (String b' (String c'' (String d' r3))))) =>
                            match
                              (if Ascii.eqb e1 "\" && Ascii.eqb e2 "u"
                               then hex4 a' b' c'' d' else None)
                            with
                            | Some low =>
                                if low_surrogate low
                                then prepend (utf8 (surrogate_pair code low)) (parse_chars r3)
                                else prepend (utf8 code) (parse_chars r2)
                            | None => prepend (utf8 code) (parse_chars r2)
                            end
                        | _ => prepend (utf8 code) (parse_chars r2)
                        end
                      else prepend (utf8 code) (parse_chars r2)
                  | None => None
                  end
              | _ => None
              end
            else
              match unescape e with
              | Some ch => prepend (String ch EmptyString) (parse_chars r1)
              | None => None
              end
        end
      else if (nat_of_ascii c <? 32)%nat then None
      else prepend (String c EmptyString) (parse_chars r)
  end.

(** Properties are defined in source order; a repeated name overwrites. *)
Definition obj_of_members (members : list (string * value)) : list (string * value) :=
  fold_left (fun o kv => obj_set (fst kv) (snd kv) o) members [].

(** The punctuator [c], after optional white space. *)
Definition expect (c : ascii) (s : string) : option string :=
  match skip_ws s with
  | String c' r => if Ascii.eqb c' c then Some r else None
  | EmptyString => None
  end.

(** [s] without its prefix [p]. *)
Fixpoint strip_prefix (p s : string) : option string :=
  match p, s with
  | EmptyString, _ => Some s
  | String a p', String b s' => if Ascii.eqb a b then strip_prefix p' s' else None
  | String _ _, EmptyString => None
  end.

(** The values without parts: [null], [true], [false], a string, a number. *)
Definition parse_atom (s : string) : option (value * string) :=
  match strip_prefix "null" s with
  | Some r => Some (VNull, r)
  | None =>
      match strip_prefix "true" s with
      | Some r => Some (VBool true, r)
      | None =>
          match strip_prefix "false" s with
          | Some r => Some (VBool false, r)
          | None =>
              match s with
              | EmptyString => None
              | String c r =>
                  if Ascii.eqb c "034" then
                    match parse_chars r with
                    | Some (t, r') => Some (VStr t, r')
                    | None => None
                    end
                  else parse_number s
              end
          end
      end
  end.

Fixpoint parse_value (fuel : nat) (s : string) {struct fuel} : option (value * string) :=
  match fuel with
  | O => None
  | S fuel' =>
      match skip_ws s with
      | EmptyString => None
      | String c r =>
          if Ascii.eqb c "[" then
            match expect "]" r with
            | Some r' => Some (VArr [], r')
            | None =>
                match parse_elements fuel' r with
                | Some (l, r') => Some (VArr l, r')
                | None => None
                end
            end
          else if Ascii.eqb c "{" then
            match expect "}" r with
            | Some r' => Some (VObj [], r')
            | None =>
                match parse_members fuel' r with
                | Some (m, r') => Some (VObj (obj_of_members m), r')
                | None => None
                end
            end
          else parse_atom (String c r)
      end
  end

with parse_elements (fuel : nat) (s : string) {struct fuel}
  : option (list value * string) :=
  match fuel with
  | O => None
  | S fuel' =>
      match parse_value fuel' s with
      | Some (v, r) =>
          match expect "," r with
          | Some r' =>
              match parse_elements fuel' r' with
              | Some (l, r'') => Some (v :: l, r'')
              | None => None
              end
          | None =>
              match expect "]" r with
              | Some r' => Some ([v], r')
              | None => None
              end
          end
      | None => None
      end
  end

with parse_members (fuel : nat) (s : string) {struct fuel}
  : option (list (string * value) * string) :=
  match fuel with
  | O => None
  | S fuel' =>
      match expect "034" s with
      | Some r =>
          match parse_chars r with
          | Some (k, r1) =>
              match expect ":" r1 with
              | Some r2 =>
                  match parse_value fuel' r2 with
                  | Some (v, r3) =>
                      match expect "," r3 with
                      | Some r4 =>
                          match parse_members fuel' r4 with
                          | Some (m, r5) => Some ((k, v) :: m, r5)
                          | None => None
                          end
                      | None =>
                          match expect "}" r3 with
                          | Some r4 => Some ([(k, v)], r4)
                          | None => None
                          end
                      end
                  | None => None
                  end
              | None => None
              end
          | None => None
          end
      | None => None
      end
  end.

(** A JSON text is one value between optional white space.  Every step of
    the parser that uses fuel reads a character of its own, so the length of
    the text is fuel enough (lemma [parse_value_fuel] below). *)
Definition parse (s : string) : option value :=
  match parse_value (S (String.length s)) s with
  | Some (v, r) =>
      match skip_ws r with
      | EmptyString => Some v
      | _ => None
      end
  | None => None
  end.

(** The values [parse (stringify v)] gives back unchanged: no [undefined]
    inside, no object with a repeated property name, and every number with
    a fraction in its one form, a fraction that does not end in zero. *)
Fixpoint nodup_keys (o : list (string * value)) : bool :=
  match o with
  | [] => true
  | (k, _) :: o' => negb (obj_has k o') && nodup_keys o'
  end.

Fixpoint is_json (v : value) : bool :=
  match v with
  | VUndefined => false
  | VNull | VBool _ | VNum _ | VStr _ => true
  | VDec _ _ fraction =>
      match fraction with
      | Decimal.Nil => false
      | _ => Decimal.uint_beq (strip_zeros fraction) fraction
      end
  | VArr l => forallb is_json l
  | VObj o => forallb (fun kv => is_json (snd kv)) o && nodup_keys o
  end.

(** The text [stringify] puts for an array element. *)
Definition text (v : value) : string :=
  match stringify v with
  | Some t => t
  | None => "null"
  end.

(** Fuel that parsing the text of a value takes. *)
Fixpoint weight (v : value) : nat :=
  match v with
  | VArr l => S (fold_right (fun x n => S (weight x + n)) 0 l)
  | VObj o => S (fold_right (fun kv n => S (weight (snd kv) + n)) 0 o)
  | _ => 1
  end.

(** The rest of the input after a digit sequence does not start with a
    digit. *)
Definition digit_free (rest : string) : Prop :=
  match rest with
  | String c _ => uint_of_char c (Some Decimal.Nil) = None
  | EmptyString => True
  end.

(** The characters a number literal can go on with. *)
Definition number_char (c : ascii) : bool :=
  match uint_of_char c (Some Decimal.Nil) with
  | Some _ => true
  | None => Ascii.eqb c "." || Ascii.eqb c "e" || Ascii.eqb c "E"
  end.

(** The rest of the input after a number must not go on with one of them. *)
Definition no_digit_ahead (rest : string) : Prop :=
  match rest with
  | String c _ => number_char c = false
  | EmptyString => True
  end.

(** The first character of a printed number is a sign or a digit. *)
Inductive number_head : string -> Prop :=
| head_minus r : number_head (String "-" r)
| head_0 r : number_head (String "0" r)
| head_1 r : number_head (String "1" r)
| head_2 r : number_head (String "2" r)
| head_3 r : number_head (String "3" r)
| head_4 r : number_head (String "4" r)
| head_5 r : number_head (String "5" r)
| head_6 r : number_head (String "6" r)
| head_7 r : number_head (String "7" r)
| head_8 r : number_head (String "8" r)
| head_9 r : number_head (String "9" r).

(** The text of one property of an object, and the fuel lists take. *)
Definition member_text (kv : string * value) : string :=
  quote (fst kv) ++ ":" ++ text (snd kv).

Definition list_weight (l : list value) : nat :=
  fold_right (fun x n => S (weight x + n)) 0 l.

Definition members_weight (o : list (string * value)) : nat :=
  fold_right (fun kv n => S (weight (snd kv) + n)) 0 o.

(** The statement proved for every value by nested induction. *)
Definition reads_back (v : value) : Prop :=
  is_json v = true ->
  forall fuel rest,
    weight v <= fuel -> no_digit_ahead rest ->
    parse_value fuel (text v ++ rest) = Some (v, rest).

(** A successful parse reads at least one character, and succeeds alike
    with any fuel that is at least the number of characters it reads. *)
Definition fuel_bound {A : Type} (p : nat -> string -> option (A * string))
    (fuel : nat) : Prop :=
  forall s a r,
    p fuel s = Some (a, r) ->
    String.length r < String.length s /\
    forall fuel', String.length s - String.length r <= fuel' -> p fuel' s = Some (a, r).

End JSON.

(** ** The JavaScript [Map] holding the queue *)

Module JSMap.

Definition t : Type := list (value * value).

Definition size (m : t) : nat := List.length m.

Definition keys (m : t) : list value := map fst m.

(** [m.set(k, v)]: an existing key keeps its place, a new key goes last. *)
Fixpoint set (k v : value) (m : t) : t :=
  match m with
  | [] => [(k, v)]
  | (k', v') :: m' =>
      if value_eqb k' k then (k', v) :: m' else (k', v') :: set k v m'
  end.

(** [m.delete(k)]. *)
Definition delete (k : value) (m : t) : t :=
  filter (fun e => negb (value_eqb (fst e) k)) m.

(** [[...m]] and [Array.from(m)]: the entries as two-element arrays. *)
Definition entries (m : t) : list value :=
  map (fun e => VArr [fst e; snd e]) m.

(** One item of the iterable given to [new Map]: it must be an object, and
    its properties [0] and [1] are the key and the value. *)
Definition entry_of (e : value) : result (value * value) :=
  match e with
  | VArr l => Ok (nth 0 l VUndefined, nth 1 l VUndefined)
  | VObj o => Ok (obj_get "0" o, obj_get "1" o)
  | _ => Throw (TypeError "Iterator value is not an entry object")
  end.

Fixpoint add_entries (m : t) (items : list value) : result t :=
  match items with
  | [] => Ok m
  | e :: items' =>
      match entry_of e with
      | Ok (k, v) => add_entries (set k v m) items'
      | Throw err => Throw err
      end
  end.

(** [new Map(iterable)]. *)
Definition construct (iterable : value) : result t :=
  match iterable with
  | VUndefined | VNull => Ok []
  | VArr l => add_entries [] l
  | VStr s => add_entries [] (chars s)
  | _ => Throw (TypeError "object is not iterable")
  end.

End JSMap.

(** ** The debounced scheduler *)

(** [debounce] comes from lodash and is not part of [src/]; the link only
    creates one debounced [sync] in its constructor and calls it.  The
    module below is the scheduling component section 5 of the specification
    describes: one timer, re-armed by every trigger.  Time is a count of
    milliseconds. *)
Module Debounce.

(** Modelled from the spec: the debounced function of lodash, absent from
    [src/], as an owned timer handle: the configured delay [wait] and the
    deadline of the armed timer, if any. *)
Record t : Type := mk { wait : Z; timer : option Z }.

(** Modelled from the spec: [debounce(func, wait)], absent from [src/],
    starts with the timer idle. *)
Definition create (wait : Z) : t := mk wait None.

(** Modelled from the spec: a trigger (a call of the debounced function,
    absent from [src/]) at time [now] resets the timer to [wait] after
    that trigger. *)
Definition call (now : Z) (d : t) : t := mk (wait d) (Some (now + wait d)%Z).

(** Modelled from the spec: the timer of the debounced function (absent
    from [src/]) expiring.  When the clock reaches [now], a timer whose
    deadline has come runs the wrapped function once, at its deadline, and
    is idle again. *)
Definition expire (now : Z) (d : t) : t * option Z :=
  match timer d with
  | Some deadline =>
      if (deadline <=? now)%Z then (mk (wait d) None, Some deadline) else (d, None)
  | None => (d, None)
  end.

Definition opt_cons {A : Type} (o : option A) (l : list A) : list A :=
  match o with
  | Some a => a :: l
  | None => l
  end.

(** Modelled from the spec: the invocations of the function wrapped by the
    debounced function (absent from [src/]).  These are the times at which
    it runs when the triggers come at the times [calls], in that order, and
    the clock then runs on until the timer is idle. *)
Fixpoint run (d : t) (calls : list Z) : list Z :=
  match calls with
  | [] => opt_cons (timer d) []
  | now :: calls' =>
      let (d', fired) := expire now d in
      opt_cons fired (run (call now d') calls')
  end.

End Debounce.

(** ** State of the link and its collaborators *)

(** The persistence provider: what [getItem] resolves to ([None] for the
    [null] of an absent key) and what [setItem] stores, on string keys. *)
Definition Storage : Type := list (string * string).

Fixpoint getItem (st : Storage) (key : string) : option string :=
  match st with
  | [] => None
  | (k, data) :: st' => if k =? key then Some data else getItem st' key
  end.

Fixpoint setItem (st : Storage) (key data : string) : Storage :=
  match st with
  | [] => [(key, data)]
  | (k, d) :: st' =>
      if k =? key then (k, data) :: st' else (k, d) :: setItem st' key data
  end.

(** The data of [syncStatusQuery] in the Apollo cache. *)
Record SyncStatus : Type := mkStatus { mutations : nat; inflight : bool }.

(** The operation handed to [request]: [operation.getContext()] is the
    object [context]. *)
Record Operation : Type := mkOperation {
  query : value;
  variables : value;
  context : list (string * value)
}.

(** An instance of the class after [setup(client)]: [client] is what the
    Apollo client's cache holds for [syncStatusQuery], [delayedSync] the
    debounced [sync], [clock] the current time of the environment. *)
Record OfflineLink : Type := mkLink {
  storage : Storage;
  sequential : bool;
  queue : JSMap.t;
  delayedSync : Debounce.t;
  client : option SyncStatus;
  clock : Z
}.

(** Effects in program order. *)
Inductive Event : Type :=
| EQueueSet (attemptId item : value)        (* this.queue.set *)
| EQueueDelete (attemptId : value)          (* queue.delete *)
| ESetItem (key data : string)              (* storage.setItem *)
| EWriteQuery (status : SyncStatus)         (* client.writeQuery *)
| EMutate (attemptId options : value)       (* client.mutate(options), for the entry attemptId *)
| EForward (operation : Operation)          (* forward(operation) *)
| EDelayedSync                              (* this.delayedSync() *)
| ENext (result : value)                    (* observer.next *)
| EError (error : value)                    (* observer.error *)
| EComplete.                                (* observer.complete *)

(** What the promise of [client.mutate] settles to. *)
Inductive Outcome : Type :=
| Resolved (result : value)
| Rejected (err : value).

(** What the observable of [forward(operation)] emits. *)
Inductive Emission : Type :=
| FNext (result : value)
| FError (networkError : value)
| FComplete.

(** The network and the Apollo client seen from [sync], for the replay of
    the entry [attemptId] in this cycle.  [mutate] is what the promise of
    [client.mutate(options)] settles to when [request] lets the operation
    through, and [settle_order] the order in which replays launched
    together settle.  For a replay that [request] intercepts again,
    [replay_uuid] is the id [uuidv4()] gives it, [replay_forward] what the
    forward link emits for it, and [replay_promise] what the promise of
    [client.mutate] settles to once the link has handed the client the
    given notifications. *)
Record Network : Type := mkNetwork {
  mutate : value -> value -> Outcome;
  settle_order : JSMap.t -> JSMap.t;
  replay_uuid : value -> value;
  replay_forward : value -> Operation -> list Emission;
  replay_promise : value -> list Event -> Outcome
}.

(** ** The monad of the methods *)

Definition M (A : Type) : Type := OfflineLink -> result A * OfflineLink * list Event.

Definition ret {A : Type} (a : A) : M A := fun s => (Ok a, s, []).

Definition bind {A B : Type} (c : M A) (k : A -> M B) : M B :=
  fun s =>
    match c s with
    | (Ok a, s1, log1) =>
        match k a s1 with
        | (r, s2, log2) => (r, s2, (log1 ++ log2)%list)
        end
    | (Throw err, s1, log1) => (Throw err, s1, log1)
    end.

Notation "x <- c ;; k" := (bind c (fun x => k))
  (at level 61, c at next level, right associativity).
Notation "c ;; k" := (bind c (fun _ => k))
  (at level 61, right associativity).

Definition get : M OfflineLink := fun s => (Ok s, s, []).
Definition put (s : OfflineLink) : M unit := fun _ => (Ok tt, s, []).
Definition emit (e : Event) : M unit := fun s => (Ok tt, s, [e]).
Definition lift {A : Type} (r : result A) : M A := fun s => (r, s, []).

(** The notifications to an observer among the events of a log. *)
Definition notifications (log : list Event) : list Event :=
  filter (fun ev => match ev with
                    | ENext _ | EError _ | EComplete => true
                    | _ => false
                    end) log.

(** Runs [c] and hands back what it told the observer. *)
Definition listen {A : Type} (c : M A) : M (list Event) :=
  fun s =>
    match c s with
    | (Ok _, s1, log1) => (Ok (notifications log1), s1, log1)
    | (Throw err, s1, log1) => (Throw err, s1, log1)
    end.

Definition outcome_of {A : Type} (x : result A * OfflineLink * list Event) : result A :=
  fst (fst x).
Definition state_of {A : Type} (x : result A * OfflineLink * list Event) : OfflineLink :=
  snd (fst x).
Definition log_of {A : Type} (x : result A * OfflineLink * list Event) : list Event :=
  snd x.

Definition set_queue (q : JSMap.t) (s : OfflineLink) : OfflineLink :=
  mkLink (storage s) (sequential s) q (delayedSync s) (client s) (clock s).
Definition set_storage (st : Storage) (s : OfflineLink) : OfflineLink :=
  mkLink st (sequential s) (queue s) (delayedSync s) (client s) (clock s).
Definition set_client (c : option SyncStatus) (s : OfflineLink) : OfflineLink :=
  mkLink (storage s) (sequential s) (queue s) (delayedSync s) c (clock s).
Definition set_delayedSync (d : Debounce.t) (s : OfflineLink) : OfflineLink :=
  mkLink (storage s) (sequential s) (queue s) d (client s) (clock s).
(** The clock of the environment moves on to [now]. *)
Definition set_clock (now : Z) (s : OfflineLink) : OfflineLink :=
  mkLink (storage s) (sequential s) (queue s) (delayedSync s) (client s) now.

(** ** The class [OfflineLink] *)

Definition storage_key : string := "@offlineLink".

(** [constructor({ storage, retryInterval = 30000, sequential = false })],
    run at time [now]. *)
Definition constructor (storage : option Storage) (retryInterval : option Z)
    (sequential : option bool) (now : Z) : result OfflineLink :=
  match storage with
  | None =>
      Throw (VObj [("name", VStr "Error");
                   ("message",
                    VStr "Storage is required, it can be window.localStorage, AsyncStorage, etc.")])
  | Some st =>
      Ok (mkLink st
                 (match sequential with Some b => b | None => false end)
                 []
                 (Debounce.create (match retryInterval with Some i => i | None => 30000%Z end))
                 None
                 now)
  end.

(** [this.queue.set(attemptId, item)] and [queue.delete(attemptId)]. *)
Definition queue_set (attemptId item : value) : M unit :=
  s <- get ;;
  put (set_queue (JSMap.set attemptId item (queue s)) s) ;;
  emit (EQueueSet attemptId item).

Definition queue_delete (attemptId : value) : M unit :=
  s <- get ;;
  put (set_queue (JSMap.delete attemptId (queue s)) s) ;;
  emit (EQueueDelete attemptId).

(** [this.delayedSync()]. *)
Definition call_delayedSync : M unit :=
  s <- get ;;
  put (set_delayedSync (Debounce.call (clock s) (delayedSync s)) s) ;;
  emit EDelayedSync.

(** [JSON.parse(stored)] on what [getItem] resolved to: [null] is converted
    to the text [null]. *)
Definition JSON_parse (stored : option string) : result value :=
  match JSON.parse (match stored with Some text => text | None => "null" end) with
  | Some v => Ok v
  | None => Throw (SyntaxError "Unexpected token in JSON")
  end.

(** [getQueue()]: the map the promise resolves to.  A [Map] is truthy, so
    [new Map(...) || new Map()] is its left operand; an exception in the
    [then] callback is caught by [catch]. *)
Definition getQueue : M JSMap.t :=
  s <- get ;;
  match
    match JSON_parse (getItem (storage s) storage_key) with
    | Ok parsed => JSMap.construct parsed
    | Throw err => Throw err
    end
  with
  | Ok m => ret m
  | Throw _ => ret []
  end.

(** [JSON.stringify([...this.queue])]. *)
Definition serialize (q : JSMap.t) : string :=
  match JSON.stringify (VArr (JSMap.entries q)) with
  | Some text => text
  | None => "undefined"
  end.

(** [updateStatus(inflight)]. *)
Definition updateStatus (inflight : bool) : M unit :=
  s <- get ;;
  let status := mkStatus (JSMap.size (queue s)) inflight in
  put (set_client (Some status) s) ;;
  emit (EWriteQuery status).

(** [saveQueue()]. *)
Definition saveQueue : M unit :=
  s <- get ;;
  let data := serialize (queue s) in
  put (set_storage (setItem (storage s) storage_key data) s) ;;
  emit (ESetItem storage_key data) ;;
  updateStatus false.

(** [add(item)]; [uuid] is what [uuidv4()] returns at this call. *)
Definition add (uuid : value) (item : value) : M value :=
  let attemptId := uuid in
  queue_set attemptId item ;;
  saveQueue ;;
  ret attemptId.

(** [remove(attemptId)]. *)
Definition remove (attemptId : value) : M unit :=
  queue_delete attemptId ;;
  saveQueue.

(** What the observer of [request] hands the caller when the forward link
    fails: [{data: context.optimisticResponse, dataPresent: true, errors: []}]. *)
Definition optimistic_result (optimisticResponse : value) : value :=
  VObj [("data", optimisticResponse);
        ("dataPresent", VBool true);
        ("errors", VArr [])].

(** The observer given to [forward(operation).subscribe] in [request],
    applied to what the forward link emits. *)
Fixpoint deliver (attemptId optimisticResponse : value) (emissions : list Emission)
  : M unit :=
  match emissions with
  | [] => ret tt
  | FNext result :: emissions' =>
      remove attemptId ;;
      emit (ENext result) ;;
      deliver attemptId optimisticResponse emissions'
  | FError networkError :: _ =>
      call_delayedSync ;;
      emit (ENext (optimistic_result optimisticResponse)) ;;
      emit EComplete
  | FComplete :: _ => emit EComplete
  end.

(** The caller's observer subscribed to [forward(operation)] itself. *)
Fixpoint pass_through (emissions : list Emission) : M unit :=
  match emissions with
  | [] => ret tt
  | FNext result :: emissions' => emit (ENext result) ;; pass_through emissions'
  | FError networkError :: _ => emit (EError networkError)
  | FComplete :: _ => emit EComplete
  end.

(** [{mutation: query, variables, optimisticResponse: context.optimisticResponse}]. *)
Definition attempt_of (operation : Operation) : value :=
  VObj [("mutation", query operation);
        ("variables", variables operation);
        ("optimisticResponse", obj_get "optimisticResponse" (context operation))].

(** The subscriber function of the observable [request] returns, up to the
    point where [forward(operation)] has been subscribed to. *)
Definition issue (uuid : value) (operation : Operation) : M value :=
  attemptId <- add uuid (attempt_of operation) ;;
  emit (EForward operation) ;;
  ret attemptId.

(** [request(operation, forward)] together with one subscription of the
    caller to the observable it returns; [forward] gives what the next link
    emits for the operation. *)
Definition request (uuid : value) (operation : Operation)
    (forward : Operation -> list Emission) : M unit :=
  let optimisticResponse := obj_get "optimisticResponse" (context operation) in
  if negb (truthy optimisticResponse) then
    emit (EForward operation) ;;
    pass_through (forward operation)
  else
    attemptId <- issue uuid operation ;;
    deliver attemptId optimisticResponse (forward operation).

(** [err.networkError.response], as a condition. *)
Definition has_response (err : value) : result bool :=
  match get_prop err "networkError" with
  | Ok networkError =>
      match get_prop networkError "response" with
      | Ok response => Ok (truthy response)
      | Throw e => Throw e
      end
  | Throw e => Throw e
  end.

(** The operation the Apollo client runs its link chain on for
    [client.mutate(options)]: the document and the variables of the options,
    and their [optimisticResponse] in the context. *)
Definition operation_of (options : value) : Operation :=
  mkOperation (obj_get "mutation" (spread options))
              (obj_get "variables" (spread options))
              [("optimisticResponse", obj_get "optimisticResponse" (spread options))].

(** The test of [request] on the operation of these options: the link
    intercepts the replay when the options still carry a truthy
    [optimisticResponse]. *)
Definition intercepted (options : value) : bool :=
  truthy (obj_get "optimisticResponse" (context (operation_of options))).

(** The call [client.mutate(options)] for the entry [attemptId], up to the
    point where it returns its promise: the link chain is run and
    subscribed to, so an intercepted replay is queued and persisted under
    the id [uuidv4()] gives it, and forwarded. *)
Definition call_mutate (net : Network) (attemptId options : value) : M unit :=
  emit (EMutate attemptId options) ;;
  if intercepted options
  then issue (replay_uuid net attemptId) (operation_of options) ;; ret tt
  else ret tt.

(** The promise of that call settling.  For an intercepted replay the
    observer of [request] first handles what the forward link emits, and
    the promise settles on what the client was handed. *)
Definition settle_mutate (net : Network) (attemptId options : value) : M Outcome :=
  if intercepted options then
    heard <- listen (deliver (replay_uuid net attemptId)
                       (obj_get "optimisticResponse" (context (operation_of options)))
                       (replay_forward net attemptId (operation_of options))) ;;
    ret (replay_promise net attemptId heard)
  else ret (mutate net attemptId options).

(** [await client.mutate(options)] for the entry [attemptId]. *)
Definition client_mutate (net : Network) (attemptId options : value) : M Outcome :=
  call_mutate net attemptId options ;;
  settle_mutate net attemptId options.

(** Body of the sequential loop: the awaited promise
    [client.mutate({...attempt, optimisticResponse: undefined}).then(..).catch(..)]. *)
Definition replay_sequential (net : Network) (attemptId attempt : value) : M bool :=
  o <- client_mutate net attemptId
         (VObj (obj_set "optimisticResponse" VUndefined (spread attempt))) ;;
  match o with
  | Resolved _ => queue_delete attemptId ;; ret true
  | Rejected err =>
      response <- lift (has_response err) ;;
      if response then queue_delete attemptId ;; ret true else ret false
  end.

(** [for (const [attemptId, attempt] of attempts) { ... if (!success) break; }]. *)
Fixpoint sync_sequential (net : Network) (attempts : JSMap.t) : M unit :=
  match attempts with
  | [] => ret tt
  | (attemptId, attempt) :: attempts' =>
      success <- replay_sequential net attemptId attempt ;;
      if success then sync_sequential net attempts' else ret tt
  end.

(** Concurrent mode.  [launch] is the [map]: every [client.mutate(attempt)]
    is called at once, in queue order. *)
Fixpoint launch (net : Network) (attempts : JSMap.t) : M unit :=
  match attempts with
  | [] => ret tt
  | (attemptId, attempt) :: attempts' =>
      call_mutate net attemptId attempt ;;
      launch net attempts'
  end.

(** One launched replay settling, and the [then]/[catch] handlers of [sync]
    on what its promise settled to. *)
Definition settle (net : Network) (attemptId attempt : value) : M unit :=
  o <- settle_mutate net attemptId attempt ;;
  match o with
  | Resolved _ => queue_delete attemptId
  | Rejected err =>
      response <- lift (has_response err) ;;
      if response then queue_delete attemptId else ret tt
  end.

(** The replays settle one after the other.  [Promise.all] rejects as soon
    as a handler throws, and [sync] with it: the replays that settle later
    are handled after the cycle has ended. *)
Fixpoint settle_all (net : Network) (settled : JSMap.t) : M unit :=
  match settled with
  | [] => ret tt
  | (attemptId, attempt) :: settled' =>
      settle net attemptId attempt ;;
      settle_all net settled'
  end.

Definition sync_concurrent (net : Network) (attempts : JSMap.t) : M unit :=
  launch net attempts ;;
  settle_all net (settle_order net attempts).

(** [sync()]. *)
Definition sync (net : Network) : M unit :=
  s <- get ;;
  if (JSMap.size (queue s) <? 1)%nat then ret tt
  else
    updateStatus true ;;
    (if sequential s
     then sync_sequential net (queue s)
     else sync_concurrent net (queue s)) ;;
    saveQueue ;;
    s' <- get ;;
    if (0 <? JSMap.size (queue s'))%nat then call_delayedSync else ret tt.

(** [setup(client)]. *)
Definition setup (net : Network) : M unit :=
  q <- getQueue ;;
  s <- get ;;
  put (set_queue q s) ;;
  sync net.

(** ** Vocabulary of the properties *)

(** The options [sync] hands to [client.mutate] for a queued attempt: the
    sequential loop blanks the optimistic response, the concurrent one
    passes the attempt as it is. *)
Definition options_sent (seq : bool) (attempt : value) : value :=
  if seq then VObj (obj_set "optimisticResponse" VUndefined (spread attempt))
  else attempt.

(** What an error says of the server, read off its shape.  The Apollo
    client rejects with an error that has a [networkError] (the error of
    the link, with the HTTP [response] when the server sent one) and
    [graphQLErrors] (the errors of a result the server returned). *)
Definition network_error (err : value) : value :=
  match err with
  | VObj properties => obj_get "networkError" properties
  | _ => VUndefined
  end.

Definition server_response (err : value) : value :=
  match network_error err with
  | VObj properties => obj_get "response" properties
  | _ => VUndefined
  end.

Definition graphql_errors (err : value) : list value :=
  match err with
  | VObj properties =>
      match obj_get "graphQLErrors" properties with
      | VArr errors => errors
      | _ => []
      end
  | _ => []
  end.

(** The three kinds of network outcome of a replay: a success; a terminal
    failure, on which the server was reached and answered with an error (an
    HTTP response, or the GraphQL errors of a processed request); a
    retryable failure, any other rejection. *)
Inductive Verdict : Type := Success | TerminalFailure | RetryableFailure.

(** The classification in the words of the specification ("the server was
    reached and returned a structured application-level error" against "no
    structured server response was obtained"), read off the error the
    client rejects with.  The code does not compute it: its handlers test
    [has_response], and [removable] below is what they decide. *)
Definition verdict (o : Outcome) : Verdict :=
  match o with
  | Resolved _ => Success
  | Rejected err =>
      if truthy (server_response err) then TerminalFailure
      else match graphql_errors err with
           | _ :: _ => TerminalFailure
           | [] => RetryableFailure
           end
  end.

(** Verdict of the replay of a queue entry in a sequential cycle. *)
Definition replay_verdict (net : Network) (e : value * value) : Verdict :=
  verdict (mutate net (fst e) (options_sent true (snd e))).

(** The replay was accepted, or refused with an HTTP response. *)
Definition answered (o : Outcome) : bool :=
  match o with
  | Resolved _ => true
  | Rejected err => truthy (server_response err)
  end.

(** The replay failed in the link, which got no HTTP response. *)
Definition unanswered (o : Outcome) : bool :=
  match o with
  | Resolved _ => false
  | Rejected err =>
      match network_error err with
      | VUndefined | VNull => false
      | _ => negb (truthy (server_response err))
      end
  end.

(** Outcome of the replay of a queue entry in a sequential cycle. *)
Definition replay_outcome (net : Network) (e : value * value) : Outcome :=
  mutate net (fst e) (options_sent true (snd e)).

(** The handlers of the sequential loop delete the entry. *)
Definition removable (net : Network) (e : value * value) : bool :=
  match replay_outcome net e with
  | Resolved _ => true
  | Rejected err =>
      match has_response err with
      | Ok true => true
      | _ => false
      end
  end.

(** The [client.mutate] calls of a log, in order. *)
Definition mutate_calls (log : list Event) : list (value * value) :=
  flat_map (fun ev => match ev with
                      | EMutate attemptId options => [(attemptId, options)]
                      | _ => []
                      end) log.


(** Events of one replay that ends in removal. *)
Definition removal_events (seq : bool) (e : value * value) : list Event :=
  [EMutate (fst e) (options_sent seq (snd e)); EQueueDelete (fst e)].

(** Every change of the in-memory queue in the log is directly followed by
    a [setItem]. *)
Fixpoint persisted_after_each_mutation (log : list Event) : bool :=
  match log with
  | [] => true
  | EQueueSet _ _ :: rest | EQueueDelete _ :: rest =>
      match rest with
      | ESetItem _ _ :: _ => persisted_after_each_mutation rest
      | _ => false
      end
  | _ :: rest => persisted_after_each_mutation rest
  end.

(** Storage and memory agree: the stored text is the serialized queue. *)
Definition persisted (s : OfflineLink) : Prop :=
  getItem (storage s) storage_key = Some (serialize (queue s)).

(** Consecutive trigger times are in order and less than [wait] apart. *)
Fixpoint closely_spaced (wait : Z) (first : Z) (rest : list Z) : Prop :=
  match rest with
  | [] => True
  | next :: rest' =>
      (first <= next < first + wait)%Z /\ closely_spaced wait next rest'
  end.

(** Queues that JSON can carry: distinct ids, ids and payloads JSON data. *)
Definition json_queue (q : JSMap.t) : Prop :=
  NoDup (JSMap.keys q) /\
  Forall (fun e => JSON.is_json (fst e) = true /\ JSON.is_json (snd e) = true) q.

(** The queue after [queue.delete] of the keys of the entries [dels]. *)
Definition delete_all (dels : JSMap.t) (q : JSMap.t) : JSMap.t :=
  fold_left (fun m e => JSMap.delete (fst e) m) dels q.

(** The replay loop of [sync] in the mode of the link, and the state in which
    it starts: the status has just been published as in flight. *)
Definition replay_loop (net : Network) (s : OfflineLink) : M unit :=
  if sequential s then sync_sequential net (queue s) else sync_concurrent net (queue s).

Definition started (s : OfflineLink) : OfflineLink :=
  set_client (Some (mkStatus (JSMap.size (queue s)) true)) s.

(** A property of the link that every update a method makes preserves:
    of the queue by [set] and [delete], of the stored text, of the
    published status, and of the timer by a call of the debounced sync. *)
Record stable (P : OfflineLink -> Prop) : Prop := mkStable {
  stable_set : forall k v s, P s -> P (set_queue (JSMap.set k v (queue s)) s);
  stable_delete : forall k s, P s -> P (set_queue (JSMap.delete k (queue s)) s);
  stable_storage : forall st s, P s -> P (set_storage st s);
  stable_client : forall c s, P s -> P (set_client c s);
  stable_delayedSync :
    forall s, P s -> P (set_delayedSync (Debounce.call (clock s) (delayedSync s)) s)
}.

(** The computation [c] takes a link with the property to one with it. *)
Definition keeps (P : OfflineLink -> Prop) {A : Type} (c : M A) : Prop :=
  forall s, P s -> P (state_of (c s)).

(** What the caller's observer is handed when it is subscribed to the
    forward link itself: the emissions up to the first error or completion. *)
Fixpoint relayed (emissions : list Emission) : list Event :=
  match emissions with
  | [] => []
  | FNext result :: emissions' => ENext result :: relayed emissions'
  | FError networkError :: _ => [EError networkError]
  | FComplete :: _ => [EComplete]
  end.

(** The forward link produced a result before anything else. *)
Definition starts_with_result (emissions : list Emission) : bool :=
  match emissions with
  | FNext _ :: _ => true
  | _ => false
  end.

(** The entry under which [request] queues the replay of a queue entry
    that it intercepts again: the id [uuidv4()] gives the replay, and the
    payload [request] builds from the operation. *)
Definition clone (net : Network) (e : value * value) : value * value :=
  (replay_uuid net (fst e), attempt_of (operation_of (snd e))).

(** What the forward link emits for the replay of a queue entry. *)
Definition replay_emissions (net : Network) (e : value * value) : list Emission :=
  replay_forward net (fst e) (operation_of (snd e)).

(** What the observer of [request] hands the caller on these emissions. *)
Fixpoint handed (optimisticResponse : value) (emissions : list Emission) : list Event :=
  match emissions with
  | [] => []
  | FNext result :: emissions' => ENext result :: handed optimisticResponse emissions'
  | FError _ :: _ =>
      [ENext (VObj [("data", optimisticResponse);
                    ("dataPresent", VBool true);
                    ("errors", VArr [])]);
       EComplete]
  | FComplete :: _ => [EComplete]
  end.

(** What the promise of the replay of a queue entry that [request]
    intercepts again settles to. *)
Definition replay_settles (net : Network) (e : value * value) : Outcome :=
  replay_promise net (fst e)
    (handed (obj_get "optimisticResponse" (context (operation_of (snd e))))
       (replay_emissions net e)).

(** The keys a concurrent cycle deletes as the replays [settled] settle:
    for each, the clone when the forward link produced a result, then the
    entry itself. *)
Definition settled_deletes (net : Network) (settled : JSMap.t) : JSMap.t :=
  flat_map (fun e => ((if starts_with_result (replay_emissions net e)
                       then [clone net e] else []) ++ [e])%list) settled.

(** Parsed JSON that [new Map] refuses: a number, a boolean, an object, a
    non-empty string, or an array with an item that is not an object. *)
Definition not_entries (v : value) : bool :=
  match v with
  | VNum _ | VDec _ _ _ | VBool _ | VObj _ => true
  | VStr text => negb (text =? EmptyString)
  | VArr items =>
      existsb (fun e => match e with
                        | VArr _ | VObj _ => false
                        | _ => true
                        end) items
  | VUndefined | VNull => false
  end.

(** ** Instances used to exercise the properties *)

Definition demo_attempt (name : string) : value :=
  VObj [("mutation", VStr name);
        ("variables", VObj [("id", VNum 7)]);
        ("optimisticResponse", VObj [("saved", VBool true)])].

Definition demo_queue : JSMap.t :=
  [(VStr "a", demo_attempt "first");
   (VStr "b", demo_attempt "second");
   (VStr "c", demo_attempt "third")].

Definition demo_link (seq : bool) (q : JSMap.t) : OfflineLink :=
  mkLink [] seq q (Debounce.create 1000) None 0.

(** A client whose promise resolves with the last result it was handed
    once the link completes, and rejects with the error of the link, or
    with the GraphQL errors of a result that carries some. *)
Fixpoint client_promise (stored : value) (failed : option value) (heard : list Event)
  : Outcome :=
  match heard with
  | [] => Resolved stored
  | ENext result :: heard' =>
      match obj_get "errors" (spread result) with
      | VArr (e :: errors) =>
          client_promise stored
            (Some (VObj [("graphQLErrors", VArr (e :: errors)); ("networkError", VNull)]))
            heard'
      | _ => client_promise result failed heard'
      end
  | EError err :: _ => Rejected (VObj [("graphQLErrors", VArr []); ("networkError", err)])
  | EComplete :: _ =>
      match failed with
      | Some err => Rejected err
      | None => Resolved stored
      end
  | _ :: heard' => client_promise stored failed heard'
  end.

(** The id of the clone of an entry: its own id with a prefix. *)
Definition clone_id (attemptId : value) : value :=
  match attemptId with
  | VStr id => VStr ("r-" ++ id)
  | _ => VStr "r"
  end.

Definition fetch_failed : value := VObj [("message", VStr "Failed to fetch")].

Definition bad_request : value := VObj [("response", VObj [("status", VNum 400)])].

Definition not_allowed : value := VObj [("message", VStr "Not allowed")].

(** The error the client rejects with when the server processed the
    request and refused it: GraphQL errors and no [networkError]. *)
Definition refused : value :=
  VObj [("graphQLErrors", VArr [not_allowed]); ("networkError", VNull)].

(** The result of the server that goes with it. *)
Definition refusal : value := VObj [("data", VNull); ("errors", VArr [not_allowed])].

(** A network on which the replay of [a] succeeds, that of [b] gets no
    answer and that of [c] is rejected by the server; replays launched
    together settle last first. *)
Definition demo_net : Network :=
  mkNetwork
    (fun attemptId _ =>
       if value_eqb attemptId (VStr "a") then Resolved (VObj [("data", VObj [])])
       else if value_eqb attemptId (VStr "b")
            then Rejected (VObj [("networkError", fetch_failed)])
            else Rejected (VObj [("networkError", bad_request)]))
    (@rev (value * value))
    clone_id
    (fun attemptId _ =>
       if value_eqb attemptId (VStr "a") then [FNext (VObj [("data", VObj [])]); FComplete]
       else if value_eqb attemptId (VStr "b") then [FError fetch_failed]
            else [FError bad_request])
    (fun _ => client_promise VUndefined None).

(** A network on which every replay succeeds. *)
Definition online_net : Network :=
  mkNetwork (fun _ _ => Resolved (VObj [("data", VObj [])])) (fun q => q)
    clone_id
    (fun _ _ => [FNext (VObj [("data", VObj [])]); FComplete])
    (fun _ => client_promise VUndefined None).

Definition demo_operation : Operation :=
  mkOperation (VStr "mutation Save") (VObj [("id", VNum 7)])
              [("optimisticResponse", VObj [("saved", VBool true)])].

(** A link on which two writes were intercepted. *)
Definition two_queued : OfflineLink :=
  state_of ((add (VStr "a") (demo_attempt "first") ;;
             add (VStr "b") (demo_attempt "second")) (demo_link true [])).

(** A network on which the server processes every replay and refuses it:
    the result carries GraphQL errors, and the client rejects with an error
    that carries them and no [networkError]. *)
Definition rejecting_net : Network :=
  mkNetwork (fun _ _ => Rejected refused) (fun q => q)
    clone_id
    (fun _ _ => [FNext refusal; FComplete])
    (fun _ => client_promise VUndefined None).

(** A network on which the replay of [a] succeeds and the server refuses
    every other replay. *)
Definition refusing_net : Network :=
  mkNetwork
    (fun attemptId _ =>
       if value_eqb attemptId (VStr "a") then Resolved (VObj [("data", VObj [])])
       else Rejected refused)
    (fun q => q)
    clone_id
    (fun attemptId _ =>
       if value_eqb attemptId (VStr "a") then [FNext (VObj [("data", VObj [])]); FComplete]
       else [FNext refusal; FComplete])
    (fun _ => client_promise VUndefined None).

(** A network on which the link hands over the body of an HTTP error as a
    result before it fails. *)
Definition partial_net : Network :=
  mkNetwork
    (fun _ _ => Rejected (VObj [("graphQLErrors", VArr []); ("networkError", bad_request)]))
    (fun q => q)
    clone_id
    (fun _ _ => [FNext (VObj [("data", VObj [])]); FError bad_request])
    (fun _ => client_promise VUndefined None).

(** A write that declares no optimistic response. *)
Definition plain_operation : Operation :=
  mkOperation (VStr "mutation Save") (VObj [("id", VNum 7)]) [].

(** The queue [a], [c], [b], [d]. *)
Definition reordered_queue : JSMap.t :=
  [(VStr "a", demo_attempt "first");
   (VStr "c", demo_attempt "third");
   (VStr "b", demo_attempt "second");
   (VStr "d", demo_attempt "fourth")].

(** The euro sign. *)
Definition euro : string := JSON.utf8 8364.

(** A queued write with a price. *)
Definition priced_queue : JSMap.t :=
  [(VStr "a",
    VObj [("mutation", VStr "mutation Buy");
          ("variables",
           VObj [("price", VDec false 1 (Decimal.D5 Decimal.Nil));
                 ("discount", VDec true 0 (Decimal.D0 (Decimal.D5 Decimal.Nil)));
                 ("unit", VStr euro)]);
          ("optimisticResponse", VObj [("saved", VBool true)])])].


(** A stored entry with a fraction, an exponent and a [\u] escape in its
    payload. *)
Definition priced_text : string :=
  let q := String "034" EmptyString in
  "[[" ++ q ++ "a" ++ q ++ ",{" ++ q ++ "price" ++ q ++ ":1.5,"
       ++ q ++ "count" ++ q ++ ":1e3,"
       ++ q ++ "unit" ++ q ++ ":" ++ q ++ "\u20ac" ++ q ++ "}]]".

(** * Facts *)

(** ** Values *)

Lemma value_eqb_eq (a b : value) : value_eqb a b = true <-> a = b.
Proof.
  revert b. induction a using value_nested_ind; intros c; destruct c; simpl;
    try (split; [discriminate | congruence]); try tauto.
  - rewrite Bool.eqb_true_iff. split; congruence.
  - rewrite Z.eqb_eq. split; congruence.
  - rewrite !andb_true_iff, Bool.eqb_true_iff, N.eqb_eq. split.
    + intros [[-> ->] E]. f_equal. now apply Decimal.internal_uint_dec_bl.
    + intros E. injection E as -> -> ->. repeat split.
      now apply Decimal.internal_uint_dec_lb.
  - rewrite String.eqb_eq. split; congruence.
  - revert elements. induction H as [|x l Hx Hl IH]; intros [|y l2];
      try (split; [discriminate | congruence]); try tauto.
    rewrite andb_true_iff, Hx, IH. split.
    + intros [-> E]. congruence.
    + intros E. injection E as -> ->. tauto.
  - revert properties. induction H as [|[k x] o Hx Ho IH]; intros [|[k2 y] o2];
      try (split; [discriminate | congruence]); try tauto.
    simpl in Hx. rewrite !andb_true_iff, String.eqb_eq, Hx, IH. split.
    + intros [[-> ->] E]. congruence.
    + intros E. injection E as -> -> ->. tauto.
Qed.

Lemma value_eqb_refl (a : value) : value_eqb a a = true.
Proof. now apply value_eqb_eq. Qed.

Lemma value_eqb_neq (a b : value) : value_eqb a b = false <-> a <> b.
Proof.
  rewrite <- value_eqb_eq. destruct (value_eqb a b); split; congruence.
Qed.

(** ** Strings *)

Lemma append_assoc (a b c : string) : (a ++ b) ++ c = a ++ (b ++ c).
Proof. induction a as [|x a IH]; simpl; [reflexivity | now rewrite IH]. Qed.

(** ** JSON: what [stringify] writes, [parse] reads back *)

Module JSONFacts.
Import JSON.

Lemma parse_chars_escape (c : ascii) (t s rest : string) :
  parse_chars t = Some (s, rest) ->
  parse_chars (escape c ++ t) = Some (String c s, rest).
Proof.
  intros H.
  destruct c as [[] [] [] [] [] [] [] []];
    match goal with
    | |- context [escape ?c] =>
        let e := eval vm_compute in (escape c) in change (escape c) with e
    end;
    cbn [append]; cbn; rewrite H; reflexivity.
Qed.

Lemma parse_chars_escape_all (s rest : string) :
  parse_chars (escape_all s ++ String "034" rest) = Some (s, rest).
Proof.
  induction s as [|c s IH]; [reflexivity|].
  cbn [escape_all]. rewrite append_assoc. now apply parse_chars_escape.
Qed.

Lemma quote_append (k rest : string) :
  quote k ++ rest = String "034" (escape_all k ++ String "034" rest).
Proof. unfold quote. cbn [append]. now rewrite append_assoc. Qed.

Lemma lex_digits_printed (d : Decimal.uint) (rest : string) :
  digit_free rest ->
  lex_digits (NilEmpty.string_of_uint d ++ rest) = (d, rest).
Proof.
  intros Hrest. induction d; cbn [NilEmpty.string_of_uint append lex_digits];
    try (rewrite IHd; reflexivity).
  destruct rest as [|c rest]; [reflexivity|].
  cbn [lex_digits]. unfold digit_free in Hrest. now rewrite Hrest.
Qed.

Lemma no_digit_ahead_free (rest : string) : no_digit_ahead rest -> digit_free rest.
Proof.
  destruct rest as [|c rest]; [easy|]. unfold no_digit_ahead, digit_free, number_char.
  now destruct (uint_of_char c (Some Decimal.Nil)).
Qed.

Lemma nzhead_not_D0 (d d' : Decimal.uint) : Decimal.nzhead d <> Decimal.D0 d'.
Proof. induction d; simpl; try discriminate. exact IHd. Qed.

Lemma to_uint_shape (n : N) :
  N.to_uint n <> Decimal.Nil /\
  (forall d', N.to_uint n = Decimal.D0 d' -> d' = Decimal.Nil).
Proof.
  assert (E : N.to_uint n = Decimal.unorm (N.to_uint n)).
  { rewrite <- (DecimalN.Unsigned.to_of (N.to_uint n)).
    now rewrite DecimalN.Unsigned.of_to. }
  unfold Decimal.unorm in E.
  destruct (Decimal.nzhead (N.to_uint n)) eqn:Hz; rewrite E; split;
    try discriminate; intros d' Hd; try discriminate.
  - now injection Hd as <-.
  - exfalso. now apply (nzhead_not_D0 (N.to_uint n) u).
Qed.

Lemma lex_int_printed (n : N) (rest : string) :
  digit_free rest ->
  lex_int (NilZero.string_of_uint (N.to_uint n) ++ rest) = Some (N.to_uint n, rest).
Proof.
  intros Hrest. destruct (to_uint_shape n) as [Hnil Hzero].
  unfold lex_int, NilZero.string_of_uint.
  destruct (N.to_uint n) as [|d|d|d|d|d|d|d|d|d|d] eqn:E; [congruence|..];
    rewrite lex_digits_printed by assumption; try reflexivity.
  now rewrite (Hzero d eq_refl).
Qed.

Lemma digits_head (n : N) (rest : string) :
  number_head (NilZero.string_of_uint (N.to_uint n) ++ rest) /\
  forall r, NilZero.string_of_uint (N.to_uint n) ++ rest <> String "-" r.
Proof.
  destruct (to_uint_shape n) as [Hnil _]. unfold NilZero.string_of_uint.
  destruct (N.to_uint n); [congruence|..]; cbn [NilEmpty.string_of_uint append];
    (split; [constructor | discriminate]).
Qed.

Lemma number_to_string_head (z : Z) (rest : string) :
  number_head (number_to_string z ++ rest).
Proof.
  unfold number_to_string. destruct (z <? 0)%Z.
  - cbn [append]. constructor.
  - apply digits_head.
Qed.

Lemma decimal_to_string_head (negative : bool) (whole : N) (fraction : Decimal.uint)
    (rest : string) :
  number_head (decimal_to_string negative whole fraction ++ rest).
Proof.
  unfold decimal_to_string. destruct negative.
  - cbn [append]. constructor.
  - rewrite append_assoc. apply digits_head.
Qed.

(** A number without a sign is read as one. *)
Lemma parse_number_unsigned (n : N) (rest : string) :
  parse_number (NilZero.string_of_uint (N.to_uint n) ++ rest) =
  parse_unsigned false (NilZero.string_of_uint (N.to_uint n) ++ rest).
Proof.
  destruct (digits_head n rest) as [_ Hminus]. unfold parse_number.
  destruct (NilZero.string_of_uint (N.to_uint n) ++ rest) as [|c r] eqn:E.
  - destruct (to_uint_shape n) as [Hnil _]. unfold NilZero.string_of_uint in E.
    destruct (N.to_uint n); [congruence|..]; discriminate.
  - destruct (Ascii.eqb c "-") eqn:Ec; [|reflexivity].
    apply Ascii.eqb_eq in Ec. subst c. now specialize (Hminus r).
Qed.

Lemma lex_exp_none (rest : string) :
  no_digit_ahead rest -> lex_exp rest = Some (None, rest).
Proof.
  destruct rest as [|c rest]; [reflexivity|]. unfold no_digit_ahead, number_char, lex_exp.
  destruct (uint_of_char c (Some Decimal.Nil)); [discriminate|].
  intros H. apply orb_false_iff in H as [H HE]. apply orb_false_iff in H as [_ He].
  now rewrite He, HE.
Qed.

Lemma lex_frac_none (rest : string) :
  no_digit_ahead rest -> lex_frac rest = Some (Decimal.Nil, rest).
Proof.
  destruct rest as [|c rest]; [reflexivity|]. unfold no_digit_ahead, number_char, lex_frac.
  destruct (uint_of_char c (Some Decimal.Nil)); [discriminate|].
  intros H. apply orb_false_iff in H as [H _]. apply orb_false_iff in H as [Hp _].
  now rewrite Hp.
Qed.

Lemma parse_unsigned_integer (negative : bool) (n : N) (rest : string) :
  no_digit_ahead rest ->
  parse_unsigned negative (NilZero.string_of_uint (N.to_uint n) ++ rest) =
  Some (VNum (if negative then (- Z.of_N n)%Z else Z.of_N n), rest).
Proof.
  intros Hrest. unfold parse_unsigned.
  rewrite lex_int_printed by now apply no_digit_ahead_free.
  rewrite lex_frac_none, lex_exp_none by assumption.
  unfold number_value. cbn [fst snd strip_zeros]. cbn.
  now rewrite DecimalN.Unsigned.of_to.
Qed.

Lemma parse_unsigned_decimal (negative : bool) (whole : N) (fraction : Decimal.uint)
    (rest : string) :
  is_json (VDec negative whole fraction) = true ->
  no_digit_ahead rest ->
  parse_unsigned negative
    (NilZero.string_of_uint (N.to_uint whole)
     ++ String "." (NilEmpty.string_of_uint fraction ++ rest)) =
  Some (VDec negative whole fraction, rest).
Proof.
  intros Hjson Hrest. unfold parse_unsigned.
  rewrite lex_int_printed by reflexivity.
  cbn [lex_frac]. change (Ascii.eqb "." ".") with true. cbv iota.
  rewrite lex_digits_printed by now apply no_digit_ahead_free.
  cbn [is_json] in Hjson.
  destruct fraction as [|f|f|f|f|f|f|f|f|f|f]; [discriminate|..];
    apply Decimal.internal_uint_dec_bl in Hjson;
    rewrite lex_exp_none by assumption;
    unfold number_value; cbn [fst snd]; rewrite Hjson, DecimalN.Unsigned.of_to;
    reflexivity.
Qed.

Lemma parse_number_printed (z : Z) (rest : string) :
  no_digit_ahead rest ->
  parse_number (number_to_string z ++ rest) = Some (VNum z, rest).
Proof.
  intros Hrest. unfold number_to_string.
  destruct (z <? 0)%Z eqn:Hneg.
  - cbn [append parse_number]. change (Ascii.eqb "-" "-") with true. cbv iota.
    rewrite parse_unsigned_integer by assumption.
    apply Z.ltb_lt in Hneg. do 2 f_equal. f_equal. rewrite N2Z.inj_abs_N. lia.
  - apply Z.ltb_ge in Hneg.
    rewrite parse_number_unsigned, parse_unsigned_integer by assumption.
    do 2 f_equal. f_equal. rewrite N2Z.inj_abs_N. lia.
Qed.

Lemma parse_decimal_printed (negative : bool) (whole : N) (fraction : Decimal.uint)
    (rest : string) :
  is_json (VDec negative whole fraction) = true ->
  no_digit_ahead rest ->
  parse_number (decimal_to_string negative whole fraction ++ rest) =
  Some (VDec negative whole fraction, rest).
Proof.
  intros Hjson Hrest. unfold decimal_to_string. destruct negative.
  - cbn [append parse_number]. change (Ascii.eqb "-" "-") with true. cbv iota.
    rewrite append_assoc. cbn [append]. now apply parse_unsigned_decimal.
  - rewrite append_assoc. cbn [append].
    rewrite parse_number_unsigned. now apply parse_unsigned_decimal.
Qed.

Lemma parse_value_number (fuel : nat) (z : Z) (rest : string) :
  no_digit_ahead rest ->
  parse_value (S fuel) (number_to_string z ++ rest) = Some (VNum z, rest).
Proof.
  intros Hrest. rewrite <- (parse_number_printed z rest Hrest).
  destruct (number_to_string_head z rest); reflexivity.
Qed.

Lemma parse_value_decimal (fuel : nat) (negative : bool) (whole : N)
    (fraction : Decimal.uint) (rest : string) :
  is_json (VDec negative whole fraction) = true ->
  no_digit_ahead rest ->
  parse_value (S fuel) (decimal_to_string negative whole fraction ++ rest) =
  Some (VDec negative whole fraction, rest).
Proof.
  intros Hjson Hrest.
  rewrite <- (parse_decimal_printed negative whole fraction rest Hjson Hrest).
  destruct (decimal_to_string_head negative whole fraction rest); reflexivity.
Qed.

Lemma parse_value_string_eq (fuel : nat) (r : string) :
  parse_value (S fuel) (String "034" r) =
  match parse_chars r with
  | Some (t, r') => Some (VStr t, r')
  | None => None
  end.
Proof. reflexivity. Qed.

Lemma parse_value_array_eq (fuel : nat) (r : string) :
  parse_value (S fuel) (String "[" r) =
  match expect "]" r with
  | Some r' => Some (VArr [], r')
  | None =>
      match parse_elements fuel r with
      | Some (l, r') => Some (VArr l, r')
      | None => None
      end
  end.
Proof. reflexivity. Qed.

Lemma parse_value_object_eq (fuel : nat) (r : string) :
  parse_value (S fuel) (String "{" r) =
  match expect "}" r with
  | Some r' => Some (VObj [], r')
  | None =>
      match parse_members fuel r with
      | Some (m, r') => Some (VObj (obj_of_members m), r')
      | None => None
      end
  end.
Proof. reflexivity. Qed.

Lemma parse_elements_eq (fuel : nat) (s : string) :
  parse_elements (S fuel) s =
  match parse_value fuel s with
  | Some (v, r) =>
      match expect "," r with
      | Some r' =>
          match parse_elements fuel r' with
          | Some (l, r'') => Some (v :: l, r'')
          | None => None
          end
      | None =>
          match expect "]" r with
          | Some r' => Some ([v], r')
          | None => None
          end
      end
  | None => None
  end.
Proof. reflexivity. Qed.

Lemma parse_members_eq (fuel : nat) (s : string) :
  parse_members (S fuel) s =
  match expect "034" s with
  | Some r =>
      match parse_chars r with
      | Some (k, r1) =>
          match expect ":" r1 with
          | Some r2 =>
              match parse_value fuel r2 with
              | Some (v, r3) =>
                  match expect "," r3 with
                  | Some r4 =>
                      match parse_members fuel r4 with
                      | Some (m, r5) => Some ((k, v) :: m, r5)
                      | None => None
                      end
                  | None =>
                      match expect "}" r3 with
                      | Some r4 => Some ([(k, v)], r4)
                      | None => None
                      end
                  end
              | None => None
              end
          | None => None
          end
      | None => None
      end
  | None => None
  end.
Proof. reflexivity. Qed.

Lemma text_array (l : list value) :
  text (VArr l) = String "[" (join "," (map text l) ++ "]").
Proof. reflexivity. Qed.

Lemma stringify_json (v : value) : is_json v = true -> stringify v = Some (text v).
Proof. destruct v; try reflexivity. discriminate. Qed.

Lemma text_object (o : list (string * value)) :
  forallb (fun kv => is_json (snd kv)) o = true ->
  text (VObj o) = String "{" (join "," (map member_text o) ++ "}").
Proof.
  intros H. unfold text. cbn [stringify append]. do 3 f_equal.
  induction o as [|[k v] o IH]; [reflexivity|].
  cbn [forallb snd] in H. apply andb_true_iff in H as [Hv Ho].
  cbn [flat_map map snd fst]. rewrite (stringify_json v Hv), IH by assumption.
  reflexivity.
Qed.

(** No value starts with a closing bracket, a comma or white space. *)
Lemma expect_close_text (v : value) (rest : string) :
  is_json v = true -> expect "]" (text v ++ rest) = None.
Proof.
  intros H. destruct v; try discriminate; try reflexivity.
  - destruct b; reflexivity.
  - change (text (VNum z)) with (number_to_string z).
    destruct (number_to_string_head z rest); reflexivity.
  - change (text (VDec negative whole fraction))
      with (decimal_to_string negative whole fraction).
    destruct (decimal_to_string_head negative whole fraction rest); reflexivity.
Qed.

Lemma expect_close_member (kv : string * value) (rest : string) :
  expect "}" (member_text kv ++ rest) = None.
Proof. unfold member_text. rewrite append_assoc, quote_append. reflexivity. Qed.

Lemma obj_set_append (k : string) (v : value) (acc : list (string * value)) :
  obj_has k acc = false -> obj_set k v acc = (acc ++ [(k, v)])%list.
Proof.
  induction acc as [|[k' v'] acc IH]; [reflexivity|].
  cbn [obj_has obj_set]. intros H. apply orb_false_iff in H as [Hk Hacc].
  rewrite Hk, IH by assumption. reflexivity.
Qed.

Lemma obj_has_app (k : string) (a b : list (string * value)) :
  obj_has k (a ++ b)%list = obj_has k a || obj_has k b.
Proof.
  induction a as [|[k' v'] a IH]; [reflexivity|].
  cbn [obj_has app]. now rewrite IH, orb_assoc.
Qed.

Lemma obj_of_members_nodup (o : list (string * value)) :
  nodup_keys o = true -> obj_of_members o = o.
Proof.
  unfold obj_of_members.
  assert (G : forall acc,
             nodup_keys o = true ->
             (forall kv, In kv o -> obj_has (fst kv) acc = false) ->
             fold_left (fun a kv => obj_set (fst kv) (snd kv) a) o acc = (acc ++ o)%list).
  { induction o as [|[k v] o IH]; intros acc Hnd Hacc.
    - cbn. now rewrite List.app_nil_r.
    - cbn [nodup_keys] in Hnd. apply andb_true_iff in Hnd as [Hk Hnd].
      apply negb_true_iff in Hk.
      cbn [fold_left fst snd].
      rewrite obj_set_append by (apply (Hacc (k, v)); now left).
      rewrite IH; [now rewrite <- List.app_assoc | assumption |].
      intros [k' v'] Hin. cbn [fst]. rewrite obj_has_app. cbn [obj_has].
      pose proof (Hacc (k', v') (or_intror Hin)) as Ha. cbn [fst] in Ha.
      rewrite Ha. cbn [orb]. rewrite orb_false_r. apply String.eqb_neq. intros ->.
      clear - Hk Hin. induction o as [|[k2 v2] o IH]; [easy|].
      cbn [obj_has] in Hk. apply orb_false_iff in Hk as [Hk2 Hk].
      destruct Hin as [E|Hin]; [|now apply IH].
      injection E as -> ->. now rewrite String.eqb_refl in Hk2. }
  intros Hnd. apply (G [] Hnd). reflexivity.
Qed.

(** The punctuator the parser waits for is the next character. *)
Ltac expect_here c :=
  change (expect c (String c ?r)) with (Some r); cbv beta iota.

Lemma parse_elements_text (l : list value) :
  Forall reads_back l -> forallb is_json l = true -> l <> [] ->
  forall fuel rest,
    list_weight l <= fuel ->
    parse_elements fuel (join "," (map text l) ++ String "]" rest) = Some (l, rest).
Proof.
  induction 1 as [|x l Hx Hl IH]; [congruence|].
  intros Hjson _ fuel rest Hfuel.
  cbn [forallb] in Hjson. apply andb_true_iff in Hjson as [Hjx Hjl].
  cbn [list_weight fold_right] in Hfuel. fold (list_weight l) in Hfuel.
  destruct fuel as [|fuel]; [lia|].
  rewrite parse_elements_eq.
  destruct l as [|y l].
  - cbn [map join]. rewrite (Hx Hjx) by (lia || exact I || reflexivity).
    reflexivity.
  - change (join "," (map text (x :: y :: l)))
      with (text x ++ String "," (join "," (map text (y :: l)))).
    rewrite append_assoc. cbn [append].
    rewrite (Hx Hjx) by (lia || reflexivity).
    expect_here ","%char.
    rewrite IH by (assumption || discriminate || lia). reflexivity.
Qed.

Lemma parse_members_text (o : list (string * value)) :
  Forall (fun kv => reads_back (snd kv)) o ->
  forallb (fun kv => is_json (snd kv)) o = true -> o <> [] ->
  forall fuel rest,
    members_weight o <= fuel ->
    parse_members fuel (join "," (map member_text o) ++ String "}" rest) = Some (o, rest).
Proof.
  induction 1 as [|[k x] o Hx Ho IH]; [congruence|].
  intros Hjson _ fuel rest Hfuel.
  cbn [forallb snd] in Hjson. apply andb_true_iff in Hjson as [Hjx Hjo].
  cbn [members_weight fold_right snd] in Hfuel. fold (members_weight o) in Hfuel.
  cbn [snd] in Hx.
  destruct fuel as [|fuel]; [lia|].
  rewrite parse_members_eq.
  destruct o as [|y o].
  - cbn [map join]. unfold member_text at 1. cbn [fst snd].
    rewrite append_assoc, quote_append.
    expect_here "034"%char.
    rewrite parse_chars_escape_all. cbn [append].
    expect_here ":"%char.
    rewrite (Hx Hjx) by (lia || reflexivity). reflexivity.
  - change (join "," (map member_text ((k, x) :: y :: o)))
      with (member_text (k, x) ++ String "," (join "," (map member_text (y :: o)))).
    unfold member_text at 1. cbn [fst snd].
    rewrite !append_assoc, quote_append.
    expect_here "034"%char.
    rewrite parse_chars_escape_all. cbn [append].
    expect_here ":"%char.
    rewrite (Hx Hjx) by (lia || reflexivity).
    expect_here ","%char.
    rewrite IH by (assumption || discriminate || lia). reflexivity.
Qed.

Lemma parse_value_text (v : value) : reads_back v.
Proof.
  induction v using value_nested_ind; intros Hjson fuel rest Hfuel Hrest;
    try discriminate;
    (destruct fuel as [|fuel]; [cbn [weight] in Hfuel; lia|]).
  - reflexivity.
  - destruct b; reflexivity.
  - now apply parse_value_number.
  - now apply parse_value_decimal.
  - change (text (VStr s)) with (quote s). rewrite quote_append.
    rewrite parse_value_string_eq, parse_chars_escape_all. reflexivity.
  - rewrite text_array. cbn [append]. rewrite append_assoc. cbn [append].
    rewrite parse_value_array_eq.
    cbn [is_json] in Hjson. cbn [weight] in Hfuel. fold (list_weight l) in Hfuel.
    destruct l as [|x l]; [reflexivity|].
    assert (Hx : is_json x = true)
      by (cbn [forallb] in Hjson; now apply andb_true_iff in Hjson as [? _]).
    replace (expect "]" (join "," (map text (x :: l)) ++ String "]" rest)) with (@None string).
    + rewrite parse_elements_text by (assumption || discriminate || lia). reflexivity.
    + symmetry. destruct l as [|y l].
      * cbn [map join]. now apply expect_close_text.
      * change (join "," (map text (x :: y :: l)))
          with (text x ++ String "," (join "," (map text (y :: l)))).
        rewrite append_assoc. now apply expect_close_text.
  - cbn [is_json] in Hjson. apply andb_true_iff in Hjson as [Hjson Hnd].
    rewrite (text_object _ Hjson). cbn [append]. rewrite append_assoc. cbn [append].
    rewrite parse_value_object_eq.
    cbn [weight] in Hfuel. fold (members_weight o) in Hfuel.
    destruct o as [|kv o]; [reflexivity|].
    replace (expect "}" (join "," (map member_text (kv :: o)) ++ String "}" rest))
      with (@None string).
    + rewrite parse_members_text by (assumption || discriminate || lia).
      now rewrite obj_of_members_nodup.
    + symmetry. destruct o as [|y o].
      * cbn [map join]. apply expect_close_member.
      * change (join "," (map member_text (kv :: y :: o)))
          with (member_text kv ++ String "," (join "," (map member_text (y :: o)))).
        rewrite append_assoc. apply expect_close_member.
Qed.

Lemma append_empty_r (s : string) : s ++ EmptyString = s.
Proof. induction s as [|c s IH]; simpl; [reflexivity | now rewrite IH]. Qed.

(** *** The parser does not run out of fuel *)

Lemma skip_ws_length (s : string) : String.length (skip_ws s) <= String.length s.
Proof.
  induction s as [|c s IH]; [reflexivity|]. cbn [skip_ws].
  destruct (is_ws c); cbn [String.length]; lia.
Qed.

Lemma expect_length (c : ascii) (s r : string) :
  expect c s = Some r -> String.length r < String.length s.
Proof.
  unfold expect. pose proof (skip_ws_length s) as Hws.
  destruct (skip_ws s) as [|c' r']; [discriminate|].
  destruct (Ascii.eqb c' c); [|discriminate].
  intros E. injection E as <-. cbn [String.length] in Hws. lia.
Qed.

Lemma strip_prefix_length (p s r : string) :
  strip_prefix p s = Some r -> String.length s = String.length p + String.length r.
Proof.
  revert s. induction p as [|a p IH]; intros [|b s] E; cbn in E; try discriminate.
  - now injection E as <-.
  - now injection E as <-.
  - destruct (Ascii.eqb a b); [|discriminate]. cbn [String.length].
    now rewrite (IH s E).
Qed.

Lemma prepend_length (chars t r : string) (parsed : option (string * string)) (n : nat) :
  prepend chars parsed = Some (t, r) ->
  (forall t', parsed = Some (t', r) -> String.length r < n) ->
  String.length r < n.
Proof.
  destruct parsed as [[t' r']|]; [|discriminate]. cbn [prepend].
  intros E H. injection E as _ <-. now apply (H t').
Qed.

Lemma parse_chars_length (s t r : string) :
  parse_chars s = Some (t, r) -> String.length r < String.length s.
Proof.
  remember (String.length s) as n eqn:Hn.
  assert (Hle : String.length s <= n) by lia. clear Hn.
  revert s t r Hle. induction n as [|n IH]; intros [|c s] t r Hle E;
    cbn [String.length] in *; try discriminate; try lia.
  assert (Hsub : forall s' chars,
             String.length s' <= n ->
             prepend chars (parse_chars s') = Some (t, r) -> String.length r < S n).
  { intros s' chars Hs' E'. apply (prepend_length _ _ _ _ _ E').
    intros t' Et'. apply IH in Et'; lia. }
  cbn [parse_chars] in E.
  destruct (Ascii.eqb c "034").
  { injection E as _ <-. lia. }
  destruct (Ascii.eqb c "\").
  - destruct s as [|e s1]; [discriminate|]. cbn [String.length] in *.
    destruct (Ascii.eqb e "u").
    + destruct s1 as [|a [|b [|c' [|d s2]]]]; try discriminate.
      cbn [String.length] in *.
      destruct (hex4 a b c' d) as [code|]; [|discriminate].
      destruct (high_surrogate code);
        [|eapply Hsub; [|exact E]; lia].
      destruct s2 as [|e1 [|e2 [|a' [|b' [|c'' [|d' s3]]]]]];
        try (eapply Hsub; [|exact E]; cbn [String.length] in *; lia).
      cbn [String.length] in *.
      destruct (if (Ascii.eqb e1 "\" && Ascii.eqb e2 "u")%bool
                then hex4 a' b' c'' d' else None) as [low|];
        [destruct (low_surrogate low)|];
        (eapply Hsub; [|exact E]; cbn [String.length] in *; lia).
    + destruct (unescape e); [|discriminate].
      eapply Hsub; [|exact E]; lia.
  - destruct (nat_of_ascii c <? 32)%nat; [discriminate|].
    eapply Hsub; [|exact E]; lia.
Qed.

Lemma lex_digits_length (s r : string) (d : Decimal.uint) :
  lex_digits s = (d, r) ->
  String.length r <= String.length s /\
  (d <> Decimal.Nil -> String.length r < String.length s).
Proof.
  revert d r. induction s as [|c s IH]; intros d r E; cbn [lex_digits] in E.
  - injection E as <- <-. split; [reflexivity | congruence].
  - destruct (uint_of_char c (Some Decimal.Nil)).
    + destruct (lex_digits s) as [d1 r1] eqn:E1.
      destruct (IH d1 r1 eq_refl) as [Hle _].
      destruct (uint_of_char c (Some d1)).
      * injection E as <- <-. cbn [String.length]. split; intros; lia.
      * injection E as <- <-. split; [reflexivity | congruence].
    + injection E as <- <-. split; [reflexivity | congruence].
Qed.

Lemma lex_int_length (s r : string) (d : Decimal.uint) :
  lex_int s = Some (d, r) -> String.length r < String.length s.
Proof.
  unfold lex_int. destruct (lex_digits s) as [d0 r1] eqn:E.
  destruct (lex_digits_length s r1 d0 E) as [_ Hlt].
  destruct d0 as [|d0|d0|d0|d0|d0|d0|d0|d0|d0|d0]; try discriminate;
    try (intros E'; injection E' as _ <-; apply Hlt; discriminate).
  destruct d0; try discriminate.
  intros E'; injection E' as _ <-; apply Hlt; discriminate.
Qed.

Lemma lex_frac_length (s r : string) (d : Decimal.uint) :
  lex_frac s = Some (d, r) -> String.length r <= String.length s.
Proof.
  unfold lex_frac. destruct s as [|c s]; [intros E; now injection E as _ <-|].
  destruct (Ascii.eqb c ".").
  - destruct (lex_digits s) as [d0 r1] eqn:E.
    destruct (lex_digits_length s r1 d0 E) as [Hle _].
    destruct d0; try discriminate; intros E'; injection E' as _ <-;
      cbn [String.length]; lia.
  - intros E. now injection E as _ <-.
Qed.

Lemma lex_exp_length (s r : string) (x : option Z) :
  lex_exp s = Some (x, r) -> String.length r <= String.length s.
Proof.
  unfold lex_exp. destruct s as [|c s]; [intros E; now injection E as _ <-|].
  destruct (Ascii.eqb c "e" || Ascii.eqb c "E")%bool;
    [|intros E; now injection E as _ <-].
  match goal with
  | |- context [lex_digits (snd ?p)] =>
      assert (Hp : String.length (snd p) <= String.length s);
      [|destruct (lex_digits (snd p)) as [d0 r1] eqn:E;
        destruct (lex_digits_length _ r1 d0 E) as [Hle _]]
  end.
  { destruct s as [|sign s1]; [reflexivity|].
    destruct (Ascii.eqb sign "-"); [cbn [snd String.length]; lia|].
    destruct (Ascii.eqb sign "+"); cbn [snd String.length]; lia. }
  destruct d0; try discriminate; intros E'; injection E' as _ <-;
    cbn [String.length]; lia.
Qed.

Lemma parse_unsigned_length (negative : bool) (s r : string) (v : value) :
  parse_unsigned negative s = Some (v, r) -> String.length r < String.length s.
Proof.
  unfold parse_unsigned.
  destruct (lex_int s) as [[whole s1]|] eqn:E1; [|discriminate].
  destruct (lex_frac s1) as [[fraction s2]|] eqn:E2; [|discriminate].
  destruct (lex_exp s2) as [[exponent s3]|] eqn:E3; [|discriminate].
  intros E. injection E as _ <-.
  apply lex_int_length in E1. apply lex_frac_length in E2. apply lex_exp_length in E3.
  lia.
Qed.

Lemma parse_number_length (s r : string) (v : value) :
  parse_number s = Some (v, r) -> String.length r < String.length s.
Proof.
  unfold parse_number. destruct s as [|c s]; [discriminate|].
  destruct (Ascii.eqb c "-"); intros E; apply parse_unsigned_length in E;
    cbn [String.length] in *; lia.
Qed.

Lemma parse_atom_length (s r : string) (v : value) :
  parse_atom s = Some (v, r) -> String.length r < String.length s.
Proof.
  unfold parse_atom.
  destruct (strip_prefix "null" s) as [r1|] eqn:E1.
  { intros E. injection E as _ <-. apply strip_prefix_length in E1. cbn in E1. lia. }
  destruct (strip_prefix "true" s) as [r2|] eqn:E2.
  { intros E. injection E as _ <-. apply strip_prefix_length in E2. cbn in E2. lia. }
  destruct (strip_prefix "false" s) as [r3|] eqn:E3.
  { intros E. injection E as _ <-. apply strip_prefix_length in E3. cbn in E3. lia. }
  destruct s as [|c s]; [discriminate|].
  destruct (Ascii.eqb c "034").
  - destruct (parse_chars s) as [[t r']|] eqn:E4; [|discriminate].
    intros E. injection E as _ <-. apply parse_chars_length in E4.
    cbn [String.length]. lia.
  - apply parse_number_length.
Qed.

Lemma parse_value_eq (fuel : nat) (s : string) :
  parse_value (S fuel) s =
  match skip_ws s with
  | EmptyString => None
  | String c r =>
      if Ascii.eqb c "[" then
        match expect "]" r with
        | Some r' => Some (VArr [], r')
        | None =>
            match parse_elements fuel r with
            | Some (l, r') => Some (VArr l, r')
            | None => None
            end
        end
      else if Ascii.eqb c "{" then
        match expect "}" r with
        | Some r' => Some (VObj [], r')
        | None =>
            match parse_members fuel r with
            | Some (m, r') => Some (VObj (obj_of_members m), r')
            | None => None
            end
        end
      else parse_atom (String c r)
  end.
Proof. reflexivity. Qed.

Lemma parse_fuel_bound (fuel : nat) :
  fuel_bound parse_value fuel /\
  fuel_bound parse_elements fuel /\
  fuel_bound parse_members fuel.
Proof.
  induction fuel as [|fuel (IHv & IHe & IHm)];
    [split; [|split]; intros s a r E; discriminate|].
  split; [|split]; intros s a r E.
  - rewrite parse_value_eq in E.
    pose proof (skip_ws_length s) as Hws.
    destruct (skip_ws s) as [|c r0] eqn:Es; [discriminate|].
    cbn [String.length] in Hws.
    destruct (Ascii.eqb c "[") eqn:Ea; [|destruct (Ascii.eqb c "{") eqn:Eo].
    + destruct (expect "]" r0) as [r'|] eqn:Ex.
      * injection E as <- <-. apply expect_length in Ex as Hx.
        split; [lia|]. intros [|fuel'] Hf; [lia|].
        now rewrite parse_value_eq, Es, Ea, Ex.
      * destruct (parse_elements fuel r0) as [[l r']|] eqn:El; [|discriminate].
        injection E as <- <-. destruct (IHe _ _ _ El) as [Hlt Hmono].
        split; [lia|]. intros [|fuel'] Hf; [lia|].
        rewrite parse_value_eq, Es, Ea, Ex, Hmono by lia. reflexivity.
    + destruct (expect "}" r0) as [r'|] eqn:Ex.
      * injection E as <- <-. apply expect_length in Ex as Hx.
        split; [lia|]. intros [|fuel'] Hf; [lia|].
        now rewrite parse_value_eq, Es, Ea, Eo, Ex.
      * destruct (parse_members fuel r0) as [[m r']|] eqn:El; [|discriminate].
        injection E as <- <-. destruct (IHm _ _ _ El) as [Hlt Hmono].
        split; [lia|]. intros [|fuel'] Hf; [lia|].
        rewrite parse_value_eq, Es, Ea, Eo, Ex, Hmono by lia. reflexivity.
    + pose proof (parse_atom_length _ _ _ E) as Hlt. cbn [String.length] in Hlt.
      split; [lia|]. intros [|fuel'] Hf; [lia|].
      now rewrite parse_value_eq, Es, Ea, Eo.
  - rewrite parse_elements_eq in E.
    destruct (parse_value fuel s) as [[v r1]|] eqn:Ev; [|discriminate].
    destruct (IHv _ _ _ Ev) as [Hlt1 Hmono1].
    destruct (expect "," r1) as [r2|] eqn:Ec.
    + destruct (parse_elements fuel r2) as [[l r3]|] eqn:El; [|discriminate].
      injection E as <- <-. destruct (IHe _ _ _ El) as [Hlt2 Hmono2].
      apply expect_length in Ec as Hc.
      split; [lia|]. intros [|fuel'] Hf; [lia|].
      rewrite parse_elements_eq, Hmono1, Ec, Hmono2 by lia. reflexivity.
    + destruct (expect "]" r1) as [r2|] eqn:Ex; [|discriminate].
      injection E as <- <-. apply expect_length in Ex as Hx.
      split; [lia|]. intros [|fuel'] Hf; [lia|].
      rewrite parse_elements_eq, Hmono1, Ec, Ex by lia. reflexivity.
  - rewrite parse_members_eq in E.
    destruct (expect "034" s) as [r0|] eqn:Eq; [|discriminate].
    destruct (parse_chars r0) as [[k r1]|] eqn:Ek; [|discriminate].
    destruct (expect ":" r1) as [r2|] eqn:Ecol; [|discriminate].
    destruct (parse_value fuel r2) as [[v r3]|] eqn:Ev; [|discriminate].
    destruct (IHv _ _ _ Ev) as [Hlt1 Hmono1].
    apply expect_length in Eq as Hq. apply parse_chars_length in Ek as Hk.
    apply expect_length in Ecol as Hcol.
    destruct (expect "," r3) as [r4|] eqn:Ec.
    + destruct (parse_members fuel r4) as [[m r5]|] eqn:Em; [|discriminate].
      injection E as <- <-. destruct (IHm _ _ _ Em) as [Hlt2 Hmono2].
      apply expect_length in Ec as Hc.
      split; [lia|]. intros [|fuel'] Hf; [lia|].
      rewrite parse_members_eq, Eq, Ek, Ecol, Hmono1, Ec, Hmono2 by lia. reflexivity.
    + destruct (expect "}" r3) as [r4|] eqn:Ex; [|discriminate].
      injection E as <- <-. apply expect_length in Ex as Hx.
      split; [lia|]. intros [|fuel'] Hf; [lia|].
      rewrite parse_members_eq, Eq, Ek, Ecol, Hmono1, Ec, Ex by lia. reflexivity.
Qed.

(** Whatever fuel a parse succeeds with, the length of the text does. *)
Lemma parse_value_fuel (fuel : nat) (s r : string) (v : value) :
  parse_value fuel s = Some (v, r) ->
  parse_value (S (String.length s)) s = Some (v, r).
Proof.
  intros E. destruct (parse_fuel_bound fuel) as [Hv _].
  destruct (Hv s v r E) as [_ Hmono]. apply Hmono. lia.
Qed.

(** So [parse] fails only on a text no amount of fuel reads as one value. *)
Lemma parse_none (s : string) :
  parse s = None ->
  forall fuel,
    match parse_value fuel s with
    | Some (_, r) => skip_ws r <> EmptyString
    | None => True
    end.
Proof.
  unfold parse. intros Hnone fuel.
  destruct (parse_value fuel s) as [[v r]|] eqn:E; [|exact I].
  rewrite (parse_value_fuel fuel s r v E) in Hnone.
  destruct (skip_ws r); [discriminate | discriminate].
Qed.

(** [JSON.parse(JSON.stringify(v))] is [v] for JSON data. *)
Lemma parse_stringify (v : value) :
  is_json v = true ->
  exists t, stringify v = Some t /\ parse t = Some v.
Proof.
  intros Hjson. exists (text v). split; [now apply stringify_json|].
  unfold parse.
  rewrite (parse_value_fuel (weight v) (text v) EmptyString v); [reflexivity|].
  rewrite <- (append_empty_r (text v)) at 1.
  apply (parse_value_text v Hjson); [lia | exact I].
Qed.

End JSONFacts.

(** ** The queue as a [Map] *)

Open Scope list_scope.

Lemma set_fresh (k v : value) (m : JSMap.t) :
  ~ In k (JSMap.keys m) -> JSMap.set k v m = (m ++ [(k, v)])%list.
Proof.
  induction m as [|[k' v'] m IH]; cbn; intros Hk; [reflexivity|].
  destruct (value_eqb k' k) eqn:E.
  - apply value_eqb_eq in E. tauto.
  - rewrite IH by tauto. reflexivity.
Qed.

Lemma delete_in (k : value) (x : value * value) (m : JSMap.t) :
  In x (JSMap.delete k m) <-> In x m /\ fst x <> k.
Proof.
  unfold JSMap.delete. rewrite filter_In, negb_true_iff, value_eqb_neq. tauto.
Qed.

Lemma delete_absent (k : value) (m : JSMap.t) :
  ~ In k (JSMap.keys m) -> JSMap.delete k m = m.
Proof.
  unfold JSMap.delete, JSMap.keys. induction m as [|[k' v'] m IH]; cbn; intros Hk;
    [reflexivity|].
  destruct (value_eqb k' k) eqn:E.
  - apply value_eqb_eq in E. tauto.
  - cbn. rewrite IH by tauto. reflexivity.
Qed.

Lemma delete_all_in (dels q : JSMap.t) (x : value * value) :
  In x (delete_all dels q) <-> In x q /\ ~ In (fst x) (JSMap.keys dels).
Proof.
  unfold delete_all, JSMap.keys. revert q.
  induction dels as [|d dels IH]; intros q; cbn [fold_left map In].
  - tauto.
  - rewrite IH, delete_in. intuition congruence.
Qed.

Lemma delete_all_prefix (pre rest : JSMap.t) :
  NoDup (JSMap.keys (pre ++ rest)) -> delete_all pre (pre ++ rest)%list = rest.
Proof.
  unfold delete_all, JSMap.keys. induction pre as [|[k v] pre IH]; intros Hnd;
    [reflexivity|].
  cbn [app map fst] in Hnd. inversion Hnd as [|? ? Hk Hnd']; subst.
  cbn [fold_left app fst]. unfold JSMap.delete at 2. cbn [filter fst].
  rewrite value_eqb_refl. cbn [negb].
  fold (JSMap.delete k (pre ++ rest)). rewrite delete_absent by exact Hk.
  now apply IH.
Qed.

Lemma add_entries_entries (q acc : JSMap.t) :
  NoDup (JSMap.keys (acc ++ q)) ->
  JSMap.add_entries acc (JSMap.entries q) = Ok (acc ++ q)%list.
Proof.
  revert acc. induction q as [|[k v] q IH]; intros acc Hnd; cbn.
  - now rewrite List.app_nil_r.
  - rewrite set_fresh.
    + rewrite IH; rewrite <- List.app_assoc; [reflexivity | exact Hnd].
    + unfold JSMap.keys in *. rewrite map_app in Hnd. cbn in Hnd.
      apply NoDup_remove_2 in Hnd. rewrite in_app_iff in Hnd. tauto.
Qed.

Lemma getItem_setItem (st : Storage) (key data : string) :
  getItem (setItem st key data) key = Some data.
Proof.
  induction st as [|[k d] st IH]; cbn.
  - now rewrite String.eqb_refl.
  - destruct (k =? key) eqn:E; cbn; rewrite E; [reflexivity | exact IH].
Qed.

(** ** Running the methods *)

Lemma saveQueue_run (s : OfflineLink) :
  saveQueue s =
  (Ok tt,
   set_client (Some (mkStatus (JSMap.size (queue s)) false))
     (set_storage (setItem (storage s) storage_key (serialize (queue s))) s),
   [ESetItem storage_key (serialize (queue s));
    EWriteQuery (mkStatus (JSMap.size (queue s)) false)]).
Proof. reflexivity. Qed.

Lemma add_run (uuid item : value) (s : OfflineLink) :
  add uuid item s =
  (Ok uuid,
   set_client (Some (mkStatus (JSMap.size (JSMap.set uuid item (queue s))) false))
     (set_storage
        (setItem (storage s) storage_key (serialize (JSMap.set uuid item (queue s))))
        (set_queue (JSMap.set uuid item (queue s)) s)),
   [EQueueSet uuid item;
    ESetItem storage_key (serialize (JSMap.set uuid item (queue s)));
    EWriteQuery (mkStatus (JSMap.size (JSMap.set uuid item (queue s))) false)]).
Proof. reflexivity. Qed.

Lemma remove_run (attemptId : value) (s : OfflineLink) :
  remove attemptId s =
  (Ok tt,
   set_client (Some (mkStatus (JSMap.size (JSMap.delete attemptId (queue s))) false))
     (set_storage
        (setItem (storage s) storage_key (serialize (JSMap.delete attemptId (queue s))))
        (set_queue (JSMap.delete attemptId (queue s)) s)),
   [EQueueDelete attemptId;
    ESetItem storage_key (serialize (JSMap.delete attemptId (queue s)));
    EWriteQuery (mkStatus (JSMap.size (JSMap.delete attemptId (queue s))) false)]).
Proof. reflexivity. Qed.

(** ** More on the queue as a [Map] *)

Lemma set_present (k v : value) (m : JSMap.t) : In (k, v) (JSMap.set k v m).
Proof.
  induction m as [|[k' v'] m IH]; cbn; [now left|].
  destruct (value_eqb k' k) eqn:E.
  - apply value_eqb_eq in E. subst. now left.
  - now right.
Qed.

Lemma set_others (k v : value) (m : JSMap.t) (x : value * value) :
  fst x <> k -> (In x (JSMap.set k v m) <-> In x m).
Proof.
  intros Hx. induction m as [|[k' v'] m IH]; cbn.
  - split; [intros [E|[]]; subst; now cbn in Hx | tauto].
  - destruct (value_eqb k' k) eqn:E.
    + apply value_eqb_eq in E. subst k'. cbn.
      split; (intros [E|H]; [subst x; now cbn in Hx | now right]).
    + cbn. rewrite IH. tauto.
Qed.

Lemma set_existing_keys (k v : value) (m : JSMap.t) :
  In k (JSMap.keys m) -> JSMap.keys (JSMap.set k v m) = JSMap.keys m.
Proof.
  unfold JSMap.keys. induction m as [|[k' v'] m IH]; cbn; [tauto|].
  intros Hk. destruct (value_eqb k' k) eqn:E; [reflexivity|].
  apply value_eqb_neq in E. cbn. f_equal. apply IH. tauto.
Qed.

Lemma set_keys_nodup (k v : value) (m : JSMap.t) :
  NoDup (JSMap.keys m) -> NoDup (JSMap.keys (JSMap.set k v m)).
Proof.
  intros Hnd. destruct (in_dec (fun a b => Bool.reflect_dec _ _ (iff_reflect _ _
                          (iff_sym (value_eqb_eq a b)))) k (JSMap.keys m)) as [Hin|Hout].
  - now rewrite set_existing_keys.
  - rewrite set_fresh by exact Hout. unfold JSMap.keys in *. rewrite map_app. cbn.
    apply NoDup_app; [exact Hnd | repeat constructor; easy |].
    intros a Ha [<-|[]]. exact (Hout Ha).
Qed.

Lemma delete_keys_nodup (k : value) (m : JSMap.t) :
  NoDup (JSMap.keys m) -> NoDup (JSMap.keys (JSMap.delete k m)).
Proof.
  unfold JSMap.keys, JSMap.delete. induction m as [|[k' v'] m IH]; cbn; intros Hnd;
    [constructor|].
  inversion Hnd as [|? ? Hk Hnd']; subst.
  destruct (negb (value_eqb k' k)); [|now apply IH].
  cbn. constructor; [|now apply IH].
  intros Hin. apply Hk. apply in_map_iff in Hin as (x & Hx & Hin).
  apply filter_In in Hin as [Hin _]. apply in_map_iff. now exists x.
Qed.

Lemma delete_idempotent (k : value) (m : JSMap.t) :
  JSMap.delete k (JSMap.delete k m) = JSMap.delete k m.
Proof.
  unfold JSMap.delete. induction m as [|[k' v'] m IH]; cbn; [reflexivity|].
  destruct (negb (value_eqb k' k)) eqn:E; cbn; rewrite ?E; cbn; now rewrite ?IH.
Qed.

Lemma delete_appended (k v : value) (m : JSMap.t) :
  ~ In k (JSMap.keys m) -> JSMap.delete k (m ++ [(k, v)]) = m.
Proof.
  intros Hk. unfold JSMap.delete. rewrite filter_app. cbn.
  rewrite value_eqb_refl. cbn. rewrite List.app_nil_r.
  now apply delete_absent.
Qed.

Lemma setItem_setItem (st : Storage) (key d1 d2 : string) :
  setItem (setItem st key d1) key d2 = setItem st key d2.
Proof.
  induction st as [|[k d] st IH]; cbn.
  - now rewrite String.eqb_refl.
  - destruct (k =? key)%string eqn:E; cbn; rewrite E; [reflexivity | now rewrite IH].
Qed.

Lemma delete_cons (k : value) (x : value * value) (q : JSMap.t) :
  JSMap.delete k (x :: q) =
  if value_eqb (fst x) k then JSMap.delete k q else x :: JSMap.delete k q.
Proof. unfold JSMap.delete. cbn [filter]. now destruct (value_eqb (fst x) k). Qed.

Lemma delete_all_cons (dels q : JSMap.t) (x : value * value) :
  delete_all dels (x :: q) =
  if existsb (fun d => value_eqb (fst x) (fst d)) dels
  then delete_all dels q
  else x :: delete_all dels q.
Proof.
  unfold delete_all. revert x q. induction dels as [|d dels IH]; intros x q;
    [reflexivity|].
  cbn [fold_left existsb]. rewrite delete_cons.
  destruct (value_eqb (fst x) (fst d)); cbn [orb]; [reflexivity | apply IH].
Qed.

Lemma delete_all_filter (dels q : JSMap.t) :
  delete_all dels q =
  filter (fun x => negb (existsb (fun d => value_eqb (fst x) (fst d)) dels)) q.
Proof.
  induction q as [|x q IH].
  - unfold delete_all. induction dels as [|d dels IHd]; [reflexivity | exact IHd].
  - rewrite delete_all_cons. cbn [filter].
    destruct (existsb (fun d => value_eqb (fst x) (fst d)) dels); cbn [negb];
      now rewrite IH.
Qed.

Lemma filter_size (keep : value * value -> bool) (q : JSMap.t) :
  JSMap.size (filter keep q) <= JSMap.size q.
Proof.
  unfold JSMap.size. induction q as [|x q IH]; cbn; [lia|].
  destruct (keep x); cbn; lia.
Qed.

Lemma delete_all_covering (dels q : JSMap.t) :
  (forall x, In x q -> In (fst x) (JSMap.keys dels)) -> delete_all dels q = [].
Proof.
  intros Hcover. destruct (delete_all dels q) as [|x l] eqn:E; [reflexivity|].
  assert (Hx : In x (delete_all dels q)) by (rewrite E; now left).
  apply delete_all_in in Hx as [Hx Hout]. exfalso. apply Hout, Hcover, Hx.
Qed.

(** ** Interception *)



Lemma issue_run (uuid : value) (operation : Operation) (s : OfflineLink) :
  issue uuid operation s =
  (Ok uuid, state_of (add uuid (attempt_of operation) s),
   log_of (add uuid (attempt_of operation) s) ++ [EForward operation]).
Proof. reflexivity. Qed.

Lemma request_run (uuid : value) (operation : Operation) (s : OfflineLink) :
  truthy (obj_get "optimisticResponse" (context operation)) = true ->
  ~ In uuid (JSMap.keys (queue s)) ->
  exists s1,
    issue uuid operation s =
    (Ok uuid, s1,
     [EQueueSet uuid (attempt_of operation);
      ESetItem storage_key (serialize (queue s ++ [(uuid, attempt_of operation)]));
      EWriteQuery (mkStatus (S (JSMap.size (queue s))) false);
      EForward operation]) /\
    queue s1 = queue s ++ [(uuid, attempt_of operation)] /\
    clock s1 = clock s /\
    delayedSync s1 = delayedSync s /\
    persisted s1 /\
    forall forward,
      request uuid operation forward s =
      (outcome_of (deliver uuid (obj_get "optimisticResponse" (context operation))
                     (forward operation) s1),
       state_of (deliver uuid (obj_get "optimisticResponse" (context operation))
                   (forward operation) s1),
       [EQueueSet uuid (attempt_of operation);
        ESetItem storage_key (serialize (queue s ++ [(uuid, attempt_of operation)]));
        EWriteQuery (mkStatus (S (JSMap.size (queue s))) false);
        EForward operation]
       ++ log_of (deliver uuid (obj_get "optimisticResponse" (context operation))
                    (forward operation) s1)).
Proof.
  intros Hopt Hfresh.
  exists (state_of (add uuid (attempt_of operation) s)).
  assert (Hsize : JSMap.size (queue s ++ [(uuid, attempt_of operation)]) =
                  S (JSMap.size (queue s))).
  { unfold JSMap.size. rewrite length_app. cbn. lia. }
  split; [|split; [|split; [|split; [|split]]]].
  - rewrite issue_run, add_run, (set_fresh _ _ _ Hfresh), Hsize. reflexivity.
  - rewrite add_run. cbn [state_of fst snd queue set_client set_storage set_queue].
    now apply set_fresh.
  - reflexivity.
  - reflexivity.
  - unfold persisted. rewrite add_run.
    cbn [state_of fst snd queue storage set_client set_storage set_queue].
    apply getItem_setItem.
  - intros forward. unfold request. rewrite Hopt. cbn [negb]. unfold bind at 1.
    rewrite issue_run, add_run, (set_fresh _ _ _ Hfresh), Hsize.
    cbn [state_of log_of outcome_of fst snd app].
    match goal with
    | |- context [deliver ?a ?b ?c ?st] => destruct (deliver a b c st) as [[r s2] log2]
    end.
    reflexivity.
Qed.

Lemma pass_through_run (emissions : list Emission) (s : OfflineLink) :
  pass_through emissions s = (Ok tt, s, relayed emissions).
Proof.
  induction emissions as [|[result|networkError|] emissions IH]; try reflexivity.
  cbn [pass_through relayed]. unfold bind, emit. rewrite IH. reflexivity.
Qed.

Lemma deliver_next (attemptId optimisticResponse result : value)
    (emissions : list Emission) (s : OfflineLink) :
  deliver attemptId optimisticResponse (FNext result :: emissions) s =
  (outcome_of (deliver attemptId optimisticResponse emissions
                 (state_of (remove attemptId s))),
   state_of (deliver attemptId optimisticResponse emissions
               (state_of (remove attemptId s))),
   log_of (remove attemptId s) ++ ENext result ::
   log_of (deliver attemptId optimisticResponse emissions
             (state_of (remove attemptId s)))).
Proof.
  cbn [deliver]. unfold bind at 1. rewrite remove_run.
  unfold bind at 1. unfold emit at 1.
  cbn [state_of log_of fst snd].
  match goal with
  | |- context [deliver attemptId optimisticResponse emissions ?st] =>
      destruct (deliver attemptId optimisticResponse emissions st) as [[r s2] log2]
  end.
  reflexivity.
Qed.

Lemma deliver_queue (attemptId optimisticResponse : value) (emissions : list Emission)
    (s : OfflineLink) :
  queue (state_of (deliver attemptId optimisticResponse emissions s)) =
  if starts_with_result emissions then JSMap.delete attemptId (queue s) else queue s.
Proof.
  revert s. induction emissions as [|[result|networkError|] emissions IH]; intros s;
    try reflexivity.
  rewrite deliver_next. cbn [state_of fst snd starts_with_result]. rewrite IH.
  rewrite remove_run. cbn [state_of fst snd queue set_client set_storage set_queue].
  destruct (starts_with_result emissions); [apply delete_idempotent | reflexivity].
Qed.

Lemma deliver_persisted (attemptId optimisticResponse : value) (emissions : list Emission)
    (s : OfflineLink) :
  persisted s -> persisted (state_of (deliver attemptId optimisticResponse emissions s)).
Proof.
  revert s. induction emissions as [|[result|networkError|] emissions IH]; intros s Hs;
    try exact Hs.
  rewrite deliver_next. cbn [state_of fst snd]. apply IH.
  unfold persisted. rewrite remove_run. apply getItem_setItem.
Qed.

Lemma deliver_outcome (attemptId optimisticResponse : value) (emissions : list Emission)
    (s : OfflineLink) :
  outcome_of (deliver attemptId optimisticResponse emissions s) = Ok tt.
Proof.
  revert s. induction emissions as [|[result|networkError|] emissions IH]; intros s;
    try reflexivity.
  rewrite deliver_next. cbn [outcome_of fst]. apply IH.
Qed.


(** ** Invariants of the methods *)

Lemma keeps_ret (P : OfflineLink -> Prop) {A : Type} (a : A) : keeps P (ret a).
Proof. intros s Hs. exact Hs. Qed.

Lemma keeps_emit (P : OfflineLink -> Prop) (e : Event) : keeps P (emit e).
Proof. intros s Hs. exact Hs. Qed.

Lemma keeps_lift (P : OfflineLink -> Prop) {A : Type} (r : result A) : keeps P (lift r).
Proof. intros s Hs. exact Hs. Qed.

Lemma keeps_bind (P : OfflineLink -> Prop) {A B : Type} (c : M A) (k : A -> M B) :
  keeps P c -> (forall a, keeps P (k a)) -> keeps P (bind c k).
Proof.
  intros Hc Hk s Hs. specialize (Hc s Hs). unfold bind.
  destruct (c s) as [[[a|err] s1] log1]; [|exact Hc].
  specialize (Hk a s1 Hc). now destruct (k a s1) as [[r s2] log2].
Qed.

Lemma keeps_listen (P : OfflineLink -> Prop) {A : Type} (c : M A) :
  keeps P c -> keeps P (listen c).
Proof.
  intros Hc s Hs. specialize (Hc s Hs). unfold listen.
  now destruct (c s) as [[[a|err] s1] log1].
Qed.

Section Stable.

Variable P : OfflineLink -> Prop.
Hypothesis HP : stable P.
Variable net : Network.

Lemma keeps_queue_delete (attemptId : value) : keeps P (queue_delete attemptId).
Proof. intros s Hs. now apply (stable_delete P HP). Qed.

Lemma keeps_call_delayedSync : keeps P call_delayedSync.
Proof. intros s Hs. now apply (stable_delayedSync P HP). Qed.

Lemma keeps_updateStatus (inflight : bool) : keeps P (updateStatus inflight).
Proof. intros s Hs. now apply (stable_client P HP). Qed.

Lemma keeps_saveQueue : keeps P saveQueue.
Proof.
  intros s Hs. rewrite saveQueue_run.
  now apply (stable_client P HP), (stable_storage P HP).
Qed.

Lemma keeps_add (uuid item : value) : keeps P (add uuid item).
Proof.
  intros s Hs. rewrite add_run.
  now apply (stable_client P HP), (stable_storage P HP), (stable_set P HP).
Qed.

Lemma keeps_remove (attemptId : value) : keeps P (remove attemptId).
Proof.
  intros s Hs. rewrite remove_run.
  now apply (stable_client P HP), (stable_storage P HP), (stable_delete P HP).
Qed.

Lemma keeps_issue (uuid : value) (operation : Operation) : keeps P (issue uuid operation).
Proof. intros s Hs. rewrite issue_run. now apply keeps_add. Qed.

Lemma keeps_deliver (attemptId optimisticResponse : value) (emissions : list Emission) :
  keeps P (deliver attemptId optimisticResponse emissions).
Proof.
  induction emissions as [|[result|networkError|] emissions IH]; cbn [deliver].
  - apply keeps_ret.
  - apply keeps_bind; [apply keeps_remove|]. intros _.
    apply keeps_bind; [apply keeps_emit|]. intros _. exact IH.
  - apply keeps_bind; [apply keeps_call_delayedSync|]. intros _.
    apply keeps_bind; [apply keeps_emit|]. intros _. apply keeps_emit.
  - apply keeps_emit.
Qed.

Lemma keeps_request (uuid : value) (operation : Operation)
    (forward : Operation -> list Emission) :
  keeps P (request uuid operation forward).
Proof.
  unfold request.
  destruct (negb (truthy (obj_get "optimisticResponse" (context operation)))).
  - intros s Hs. unfold bind, emit. now rewrite pass_through_run.
  - apply keeps_bind; [apply keeps_issue|]. intros a. apply keeps_deliver.
Qed.

Lemma keeps_call_mutate (attemptId options : value) :
  keeps P (call_mutate net attemptId options).
Proof.
  unfold call_mutate. apply keeps_bind; [apply keeps_emit|]. intros _.
  destruct (intercepted options); [|apply keeps_ret].
  apply keeps_bind; [apply keeps_issue|]. intros _. apply keeps_ret.
Qed.

Lemma keeps_settle_mutate (attemptId options : value) :
  keeps P (settle_mutate net attemptId options).
Proof.
  unfold settle_mutate. destruct (intercepted options); [|apply keeps_ret].
  apply keeps_bind; [apply keeps_listen, keeps_deliver|]. intros heard. apply keeps_ret.
Qed.

Lemma keeps_handlers {A : Type} (attemptId : value) (o : Outcome) (removed kept : M A) :
  keeps P removed -> keeps P kept ->
  keeps P (match o with
           | Resolved _ => queue_delete attemptId ;; removed
           | Rejected err =>
               response <- lift (has_response err) ;;
               if response then queue_delete attemptId ;; removed else kept
           end).
Proof.
  intros Hr Hk. destruct o as [result|err].
  - apply keeps_bind; [apply keeps_queue_delete|]. intros _. exact Hr.
  - apply keeps_bind; [apply keeps_lift|]. intros [|]; [|exact Hk].
    apply keeps_bind; [apply keeps_queue_delete|]. intros _. exact Hr.
Qed.

Lemma keeps_replay_sequential (attemptId attempt : value) :
  keeps P (replay_sequential net attemptId attempt).
Proof.
  unfold replay_sequential, client_mutate.
  apply keeps_bind.
  - apply keeps_bind; [apply keeps_call_mutate|]. intros _. apply keeps_settle_mutate.
  - intros o. apply keeps_handlers; apply keeps_ret.
Qed.

Lemma keeps_sync_sequential (attempts : JSMap.t) : keeps P (sync_sequential net attempts).
Proof.
  induction attempts as [|[attemptId attempt] attempts IH]; cbn [sync_sequential].
  - apply keeps_ret.
  - apply keeps_bind; [apply keeps_replay_sequential|].
    intros [|]; [exact IH | apply keeps_ret].
Qed.

Lemma keeps_launch (attempts : JSMap.t) : keeps P (launch net attempts).
Proof.
  induction attempts as [|[attemptId attempt] attempts IH]; cbn [launch].
  - apply keeps_ret.
  - apply keeps_bind; [apply keeps_call_mutate|]. intros _. exact IH.
Qed.

Lemma keeps_settle (attemptId attempt : value) : keeps P (settle net attemptId attempt).
Proof.
  unfold settle. apply keeps_bind; [apply keeps_settle_mutate|]. intros o.
  destruct o as [result|err]; [apply keeps_queue_delete|].
  apply keeps_bind; [apply keeps_lift|].
  intros [|]; [apply keeps_queue_delete | apply keeps_ret].
Qed.

Lemma keeps_settle_all (settled : JSMap.t) : keeps P (settle_all net settled).
Proof.
  induction settled as [|[attemptId attempt] settled IH]; cbn [settle_all].
  - apply keeps_ret.
  - apply keeps_bind; [apply keeps_settle|]. intros _. exact IH.
Qed.

Lemma keeps_sync_concurrent (attempts : JSMap.t) : keeps P (sync_concurrent net attempts).
Proof.
  unfold sync_concurrent. apply keeps_bind; [apply keeps_launch|].
  intros _. apply keeps_settle_all.
Qed.

Lemma keeps_replay_loop (s : OfflineLink) : keeps P (replay_loop net s).
Proof.
  unfold replay_loop.
  destruct (sequential s); [apply keeps_sync_sequential | apply keeps_sync_concurrent].
Qed.

Lemma keeps_sync : keeps P (sync net).
Proof.
  unfold sync. apply keeps_bind; [intros s Hs; exact Hs|]. intros a.
  destruct (JSMap.size (queue a) <? 1)%nat; [apply keeps_ret|].
  apply keeps_bind; [apply keeps_updateStatus|]. intros _.
  apply keeps_bind.
  { destruct (sequential a); [apply keeps_sync_sequential | apply keeps_sync_concurrent]. }
  intros _. apply keeps_bind; [apply keeps_saveQueue|]. intros _.
  apply keeps_bind; [intros s Hs; exact Hs|]. intros s'.
  destruct (0 <? JSMap.size (queue s'))%nat; [apply keeps_call_delayedSync | apply keeps_ret].
Qed.

End Stable.

Lemma stable_distinct_ids : stable (fun s => NoDup (JSMap.keys (queue s))).
Proof.
  constructor; intros; try assumption.
  - now apply set_keys_nodup.
  - now apply delete_keys_nodup.
Qed.

(** The clock stands still while a method runs, and the timer is either
    untouched or re-armed at that time. *)
Lemma stable_timer (s0 : OfflineLink) :
  stable (fun s => clock s = clock s0 /\
                   (delayedSync s = delayedSync s0 \/
                    delayedSync s = Debounce.call (clock s0) (delayedSync s0))).
Proof.
  constructor; intros; try assumption.
  destruct H as [Hclock Htimer]. split; [exact Hclock|]. right.
  cbn [delayedSync set_delayedSync]. rewrite Hclock.
  destruct Htimer as [-> | ->]; reflexivity.
Qed.

(** ** The sync cycle *)

Lemma obj_get_set (k : string) (v : value) (o : list (string * value)) :
  obj_get k (obj_set k v o) = v.
Proof.
  induction o as [|[k' v'] o IH]; cbn [obj_set obj_get].
  - now rewrite String.eqb_refl.
  - destruct (k' =? k)%string eqn:E; cbn [obj_get]; rewrite E; [reflexivity | exact IH].
Qed.

(** The sequential loop blanks the optimistic response, so [request] lets
    its replays through. *)
Lemma intercepted_blank (attempt : value) : intercepted (options_sent true attempt) = false.
Proof.
  unfold intercepted, operation_of, options_sent. cbn [context spread obj_get].
  rewrite String.eqb_refl. now rewrite obj_get_set.
Qed.

Lemma client_mutate_through (net : Network) (attemptId options : value) (s : OfflineLink) :
  intercepted options = false ->
  client_mutate net attemptId options s =
  (Ok (mutate net attemptId options), s, [EMutate attemptId options]).
Proof.
  intros H. unfold client_mutate, call_mutate, settle_mutate. rewrite H. reflexivity.
Qed.

(** [err.networkError.response] by the shape of the error. *)
Lemma has_response_shape (err : value) :
  match network_error err with
  | VUndefined | VNull => exists exn, has_response err = Throw exn
  | _ => has_response err = Ok (truthy (server_response err))
  end.
Proof.
  unfold has_response, server_response, network_error.
  destruct err as [| | | | | | |o]; cbn [get_prop]; try (eexists; reflexivity).
  destruct (obj_get "networkError" o); cbn [get_prop]; try reflexivity;
    eexists; reflexivity.
Qed.

Lemma removable_answered (net : Network) (e : value * value) :
  removable net e = answered (replay_outcome net e).
Proof.
  unfold removable, answered. destruct (replay_outcome net e) as [result|err];
    [reflexivity|].
  pose proof (has_response_shape err) as H. unfold server_response in *.
  destruct (network_error err);
    match type of H with
    | ex _ => destruct H as [exn ->]; reflexivity
    | _ => rewrite H; now destruct (truthy _)
    end.
Qed.

Lemma unanswered_kept (o : Outcome) :
  unanswered o = true -> exists err, o = Rejected err /\ has_response err = Ok false.
Proof.
  destruct o as [result|err]; [discriminate|]. cbn [unanswered]. intros H.
  exists err. split; [reflexivity|].
  pose proof (has_response_shape err) as Hs.
  destruct (network_error err); try discriminate; rewrite Hs;
    apply negb_true_iff in H; now rewrite H.
Qed.

Lemma replay_sequential_run (net : Network) (attemptId attempt : value) (s : OfflineLink) :
  replay_sequential net attemptId attempt s =
  if removable net (attemptId, attempt)
  then (Ok true, set_queue (JSMap.delete attemptId (queue s)) s,
        removal_events true (attemptId, attempt))
  else (match replay_outcome net (attemptId, attempt) with
        | Rejected err =>
            match has_response err with
            | Throw e => Throw e
            | Ok _ => Ok false
            end
        | Resolved _ => Ok false
        end, s, [EMutate attemptId (options_sent true attempt)]).
Proof.
  unfold replay_sequential. unfold bind at 1.
  change (VObj (obj_set "optimisticResponse" VUndefined (spread attempt)))
    with (options_sent true attempt).
  rewrite client_mutate_through by apply intercepted_blank.
  unfold removable, replay_outcome. cbn [fst snd].
  destruct (mutate net attemptId (options_sent true attempt)) as [res|err]; [reflexivity|].
  unfold bind, lift. destruct (has_response err) as [[|]|e]; reflexivity.
Qed.

Lemma sync_sequential_removable (net : Network) (pre rest : JSMap.t) (s : OfflineLink) :
  Forall (fun e => removable net e = true) pre ->
  sync_sequential net (pre ++ rest) s =
  match sync_sequential net rest (set_queue (delete_all pre (queue s)) s) with
  | (r, s2, log2) => (r, s2, flat_map (removal_events true) pre ++ log2)
  end.
Proof.
  intros Hpre. revert s. induction Hpre as [|[k v] pre Hk Hpre IH]; intros s.
  - cbn [app flat_map delete_all fold_left].
    replace (set_queue (queue s) s) with s by now destruct s.
    now destruct (sync_sequential net rest s) as [[r s2] log2].
  - cbn [app sync_sequential]. unfold bind at 1. rewrite replay_sequential_run, Hk.
    change (set_queue (delete_all ((k, v) :: pre) (queue s)) s)
      with (set_queue (delete_all pre (queue (set_queue (JSMap.delete k (queue s)) s)))
              (set_queue (JSMap.delete k (queue s)) s)).
    rewrite IH.
    match goal with
    | |- context [sync_sequential net rest ?st] =>
        destruct (sync_sequential net rest st) as [[r s2] log2]
    end; cbn [flat_map]; rewrite <- List.app_assoc; reflexivity.
Qed.

Lemma sync_sequential_stop (net : Network) (e : value * value) (rest : JSMap.t)
    (s : OfflineLink) :
  removable net e = false ->
  exists r, sync_sequential net (e :: rest) s =
            (r, s, [EMutate (fst e) (options_sent true (snd e))]).
Proof.
  destruct e as [k v]. cbn [fst snd]. intros H.
  cbn [sync_sequential]. unfold bind at 1. rewrite replay_sequential_run, H.
  destruct (replay_outcome net (k, v)) as [res|err].
  - eexists. reflexivity.
  - destruct (has_response err); eexists; reflexivity.
Qed.

(** A replay that failed in the link without a response ends the loop
    without an exception. *)
Lemma sync_sequential_unanswered (net : Network) (e : value * value) (rest : JSMap.t)
    (s : OfflineLink) :
  unanswered (replay_outcome net e) = true ->
  sync_sequential net (e :: rest) s =
  (Ok tt, s, [EMutate (fst e) (options_sent true (snd e))]).
Proof.
  destruct e as [k v]. cbn [fst snd]. intros H.
  destruct (unanswered_kept _ H) as (err & Ho & Hr).
  assert (Hrem : removable net (k, v) = false) by (unfold removable; now rewrite Ho, Hr).
  cbn [sync_sequential]. unfold bind at 1. rewrite replay_sequential_run, Hrem, Ho, Hr.
  reflexivity.
Qed.

Lemma sync_run (net : Network) (s : OfflineLink) :
  queue s <> [] ->
  sync net s =
  match replay_loop net s (started s) with
  | (Ok _, s1, log1) =>
      match saveQueue s1 with
      | (_, s2, log2) =>
          if (0 <? JSMap.size (queue s1))%nat
          then (Ok tt,
                set_delayedSync (Debounce.call (clock s2) (delayedSync s2)) s2,
                EWriteQuery (mkStatus (JSMap.size (queue s)) true)
                  :: log1 ++ log2 ++ [EDelayedSync])
          else (Ok tt, s2,
                EWriteQuery (mkStatus (JSMap.size (queue s)) true) :: log1 ++ log2)
      end
  | (Throw err, s1, log1) =>
      (Throw err, s1, EWriteQuery (mkStatus (JSMap.size (queue s)) true) :: log1)
  end.
Proof.
  intros Hq. unfold sync, replay_loop, started.
  unfold bind at 1. unfold get at 1.
  destruct (queue s) as [|e q] eqn:Eq; [congruence|].
  cbn [JSMap.size List.length Nat.ltb Nat.leb].
  unfold bind at 1. unfold updateStatus at 1. unfold bind at 1, get at 1.
  unfold bind at 1, put at 1, emit at 1. rewrite Eq.
  cbn [JSMap.size List.length app].
  unfold bind at 1.
  match goal with
  | |- context [(if sequential s then ?a else ?b) ?st] =>
      destruct ((if sequential s then a else b) st) as [[[[]|err] s1] log1]
  end; [|reflexivity].
  unfold bind at 1. rewrite saveQueue_run.
  unfold bind at 1, get at 1.
  change (queue (set_client _ (set_storage _ s1))) with (queue s1).
  unfold Nat.ltb, Nat.leb. destruct (JSMap.size (queue s1)); reflexivity.
Qed.

Lemma mutate_calls_app (l1 l2 : list Event) :
  mutate_calls (l1 ++ l2) = mutate_calls l1 ++ mutate_calls l2.
Proof. apply flat_map_app. Qed.

Lemma sync_after_loop (net : Network) (s s1 : OfflineLink) (r : result unit)
    (log1 : list Event) :
  queue s <> [] ->
  replay_loop net s (started s) = (r, s1, log1) ->
  queue (state_of (sync net s)) = queue s1 /\
  exists tail,
    log_of (sync net s) =
    EWriteQuery (mkStatus (JSMap.size (queue s)) true) :: log1 ++ tail /\
    mutate_calls tail = [].
Proof.
  intros Hq Hloop. rewrite (sync_run net s Hq), Hloop.
  destruct r as [[]|err].
  - rewrite saveQueue_run. destruct (0 <? JSMap.size (queue s1))%nat.
    + split; [reflexivity|]. eexists. split; [reflexivity|]. reflexivity.
    + split; [reflexivity|]. eexists. split; [reflexivity|]. reflexivity.
  - split; [reflexivity|]. exists []. now rewrite List.app_nil_r.
Qed.

Lemma sync_sequential_split (net : Network) (pre rest : JSMap.t) (s : OfflineLink) :
  Forall (fun e => removable net e = true) pre ->
  match rest with
  | [] => True
  | e :: _ => removable net e = false
  end ->
  exists r,
    sync_sequential net (pre ++ rest) s =
    (r, set_queue (delete_all pre (queue s)) s,
     flat_map (removal_events true) pre ++
     map (fun e => EMutate (fst e) (options_sent true (snd e))) (firstn 1 rest)).
Proof.
  intros Hpre Hrest. rewrite (sync_sequential_removable net pre rest s Hpre).
  destruct rest as [|e rest].
  - exists (Ok tt). reflexivity.
  - destruct (sync_sequential_stop net e rest
                (set_queue (delete_all pre (queue s)) s) Hrest) as [r Hr].
    exists r. rewrite Hr. reflexivity.
Qed.

Lemma removable_split (net : Network) (q : JSMap.t) :
  exists pre rest,
    q = pre ++ rest /\
    Forall (fun e => removable net e = true) pre /\
    match rest with
    | [] => True
    | e :: _ => removable net e = false
    end.
Proof.
  induction q as [|e q (pre & rest & -> & Hpre & Hrest)].
  - exists [], []. repeat split. constructor.
  - destruct (removable net e) eqn:He.
    + exists (e :: pre), rest. repeat split; [now constructor | assumption].
    + exists [], (e :: pre ++ rest). repeat split; [constructor | assumption].
Qed.

Lemma mutate_calls_removals (seq : bool) (pre : JSMap.t) :
  mutate_calls (flat_map (removal_events seq) pre) =
  map (fun e => (fst e, options_sent seq (snd e))) pre.
Proof.
  induction pre as [|e pre IH]; [reflexivity|].
  cbn [flat_map map]. rewrite mutate_calls_app, IH. reflexivity.
Qed.


(** The sequential loop changes nothing of the link but the queue, from
    which it only deletes. *)
Lemma sync_sequential_state (net : Network) (s : OfflineLink) :
  sequential s = true ->
  exists r dels log,
    replay_loop net s (started s) =
    (r, set_queue (delete_all dels (queue s)) (started s), log).
Proof.
  intros Hseq. unfold replay_loop. rewrite Hseq.
  destruct (removable_split net (queue s)) as (pre & rest & Hq & Hpre & Hrest).
  destruct (sync_sequential_split net pre rest (started s) Hpre Hrest) as [r Hr].
  exists r, pre. eexists. rewrite Hq at 1. exact Hr.
Qed.

(** A replay rejected with an error on which [err.networkError.response]
    cannot be read ends the sequential loop, and the cycle, with the
    exception of the handler. *)
Lemma sync_sequential_abort (net : Network) (s : OfflineLink) (pre rest : JSMap.t)
    (attemptId attempt err exn : value) :
  sequential s = true ->
  NoDup (JSMap.keys (queue s)) ->
  queue s = pre ++ (attemptId, attempt) :: rest ->
  Forall (fun e => answered (replay_outcome net e) = true) pre ->
  mutate net attemptId (options_sent true attempt) = Rejected err ->
  has_response err = Throw exn ->
  sync net s =
  (Throw exn, set_queue ((attemptId, attempt) :: rest) (started s),
   EWriteQuery (mkStatus (JSMap.size (queue s)) true)
     :: flat_map (removal_events true) pre
     ++ [EMutate attemptId (options_sent true attempt)]).
Proof.
  intros Hseq Hnd Hq Hpre Hrej Hthrow.
  assert (Hpre' : Forall (fun e => removable net e = true) pre).
  { eapply Forall_impl; [|exact Hpre]. intros e He. now rewrite removable_answered. }
  assert (Hne : queue s <> []) by (rewrite Hq; now destruct pre).
  assert (Hrem : removable net (attemptId, attempt) = false).
  { unfold removable, replay_outcome. cbn [fst snd]. now rewrite Hrej, Hthrow. }
  assert (Hloop : replay_loop net s (started s) =
                  (Throw exn, set_queue (delete_all pre (queue s)) (started s),
                   flat_map (removal_events true) pre ++
                   [EMutate attemptId (options_sent true attempt)])).
  { unfold replay_loop. rewrite Hseq. rewrite Hq at 1.
    rewrite (sync_sequential_removable net pre _ (started s) Hpre').
    cbn [sync_sequential]. unfold bind at 1. rewrite replay_sequential_run, Hrem.
    unfold replay_outcome. cbn [fst snd]. rewrite Hrej, Hthrow. reflexivity. }
  rewrite (sync_run net s Hne), Hloop. do 2 f_equal.
  rewrite Hq. f_equal. apply delete_all_prefix. now rewrite <- Hq.
Qed.

(** * The properties *)

Lemma refused_is_terminal (err : value) :
  graphql_errors err <> [] -> verdict (Rejected err) = TerminalFailure.
Proof.
  intros H. cbn [verdict]. destruct (truthy (server_response err)); [reflexivity|].
  now destruct (graphql_errors err).
Qed.

Lemma no_network_error_throws (err : value) :
  network_error err = VNull -> exists exn, has_response err = Throw exn.
Proof. intros H. pose proof (has_response_shape err) as Hs. now rewrite H in Hs. Qed.

Lemma disjoint_keys (l1 l2 : list value) (k : value) :
  NoDup (l1 ++ l2) -> In k l1 -> ~ In k l2.
Proof.
  induction l1 as [|a l1 IH]; cbn; intros Hnd Hin Hk; [exact Hin|].
  inversion Hnd as [|? ? Ha Hnd']; subst.
  destruct Hin as [->|Hin]; [apply Ha, in_app_iff; now right | now apply IH].
Qed.

(** C1 (the code at the failing input).  A replay that the server processed
    and refused, whose error carries GraphQL errors and a null
    [networkError], is a terminal failure; yet the attempt is not removed.
    In sequential mode, once the attempts before it have been replayed and
    removed, the handler throws on [err.networkError.response]: the attempt
    is still in the queue, [sync] rejects, nothing is written to storage and
    no further cycle is scheduled. *)
Theorem sync_keeps_refused_attempt (net : Network) (s : OfflineLink) (pre rest : JSMap.t)
    (attemptId attempt err : value) :
  sequential s = true ->
  NoDup (JSMap.keys (queue s)) ->
  queue s = pre ++ (attemptId, attempt) :: rest ->
  Forall (fun e => answered (replay_outcome net e) = true) pre ->
  replay_outcome net (attemptId, attempt) = Rejected err ->
  graphql_errors err <> [] ->
  network_error err = VNull ->
  replay_verdict net (attemptId, attempt) = TerminalFailure /\
  In (attemptId, attempt) (queue (state_of (sync net s))) /\
  (exists exn, outcome_of (sync net s) = Throw exn) /\
  storage (state_of (sync net s)) = storage s /\
  delayedSync (state_of (sync net s)) = delayedSync s.
Proof.
  intros Hseq Hnd Hq Hpre Hrej Hgql Hnull.
  destruct (no_network_error_throws err Hnull) as [exn Hthrow].
  split.
  { unfold replay_verdict. unfold replay_outcome in Hrej. rewrite Hrej.
    now apply refused_is_terminal. }
  rewrite (sync_sequential_abort net s pre rest attemptId attempt err exn
             Hseq Hnd Hq Hpre Hrej Hthrow).
  cbn [state_of outcome_of fst snd queue storage delayedSync set_queue started set_client].
  split; [now left|]. split; [now exists exn|]. split; reflexivity.
Qed.

(** C4 (the code at the failing input).  In sequential mode the loop does
    not go on after such a terminal failure.  The attempts before it are
    replayed in order and removed; the refused attempt is replayed and is
    the last one tried: it is not removed, and no attempt behind it gets a
    [client.mutate] call in the cycle. *)
Theorem sync_sequential_stops_at_refusal (net : Network) (s : OfflineLink)
    (pre rest : JSMap.t) (attemptId attempt err : value) :
  sequential s = true ->
  NoDup (JSMap.keys (queue s)) ->
  queue s = pre ++ (attemptId, attempt) :: rest ->
  Forall (fun e => answered (replay_outcome net e) = true) pre ->
  replay_outcome net (attemptId, attempt) = Rejected err ->
  graphql_errors err <> [] ->
  network_error err = VNull ->
  replay_verdict net (attemptId, attempt) = TerminalFailure /\
  mutate_calls (log_of (sync net s)) =
    map (fun e => (fst e, options_sent true (snd e))) (pre ++ [(attemptId, attempt)]) /\
  queue (state_of (sync net s)) = (attemptId, attempt) :: rest /\
  (forall e, In e rest ->
             ~ In (fst e) (map fst (mutate_calls (log_of (sync net s))))).
Proof.
  intros Hseq Hnd Hq Hpre Hrej Hgql Hnull.
  destruct (no_network_error_throws err Hnull) as [exn Hthrow].
  split.
  { unfold replay_verdict. unfold replay_outcome in Hrej. rewrite Hrej.
    now apply refused_is_terminal. }
  rewrite (sync_sequential_abort net s pre rest attemptId attempt err exn
             Hseq Hnd Hq Hpre Hrej Hthrow).
  cbn [state_of log_of fst snd queue set_queue].
  assert (Hcalls : mutate_calls
                     (EWriteQuery (mkStatus (JSMap.size (queue s)) true)
                        :: flat_map (removal_events true) pre
                        ++ [EMutate attemptId (options_sent true attempt)]) =
                   map (fun e => (fst e, options_sent true (snd e)))
                     (pre ++ [(attemptId, attempt)])).
  { cbn [mutate_calls flat_map app].
    fold (mutate_calls (flat_map (removal_events true) pre
                        ++ [EMutate attemptId (options_sent true attempt)])).
    rewrite mutate_calls_app, mutate_calls_removals, map_app. reflexivity. }
  rewrite Hcalls. split; [reflexivity|]. split; [reflexivity|].
  intros e He Hin. rewrite map_map in Hin. cbn [fst] in Hin.
  apply (disjoint_keys (map fst (pre ++ [(attemptId, attempt)])) (map fst rest) (fst e)).
  - rewrite <- map_app, <- List.app_assoc. cbn [app]. rewrite <- Hq. exact Hnd.
  - exact Hin.
  - now apply in_map.
Qed.

(** C8.  When the queue is empty [sync] returns at once: it makes no effect
    (no status update, no network call, no write to storage) and leaves the
    link, the storage and the cache as they were. *)
Theorem sync_empty_queue (net : Network) (s : OfflineLink) :
  JSMap.size (queue s) = 0 ->
  sync net s = (Ok tt, s, []).
Proof.
  intros Hsize. unfold sync, bind, get. rewrite Hsize. reflexivity.
Qed.

(** C2.  An intercepted write that declares an optimistic response (one
    [request] takes for present) and gets a fresh id from [uuidv4] appends
    exactly one attempt to the queue and persists the queue before
    [forward(operation)] is called: whatever the forward link then emits,
    the enqueue, the [setItem] and the status update come first, and the
    state in which the network call is made holds the new entry in memory
    and in storage. *)
Theorem request_enqueues_before_forward (uuid : value) (operation : Operation)
    (forward : Operation -> list Emission) (s : OfflineLink) :
  truthy (obj_get "optimisticResponse" (context operation)) = true ->
  ~ In uuid (JSMap.keys (queue s)) ->
  exists s1,
    issue uuid operation s =
    (Ok uuid, s1,
     [EQueueSet uuid (attempt_of operation);
      ESetItem storage_key (serialize (queue s ++ [(uuid, attempt_of operation)]));
      EWriteQuery (mkStatus (S (JSMap.size (queue s))) false);
      EForward operation]) /\
    queue s1 = queue s ++ [(uuid, attempt_of operation)] /\
    persisted s1 /\
    request uuid operation forward s =
    (outcome_of (deliver uuid (obj_get "optimisticResponse" (context operation))
                   (forward operation) s1),
     state_of (deliver uuid (obj_get "optimisticResponse" (context operation))
                 (forward operation) s1),
     [EQueueSet uuid (attempt_of operation);
      ESetItem storage_key (serialize (queue s ++ [(uuid, attempt_of operation)]));
      EWriteQuery (mkStatus (S (JSMap.size (queue s))) false);
      EForward operation]
     ++ log_of (deliver uuid (obj_get "optimisticResponse" (context operation))
                  (forward operation) s1)).
Proof.
  intros Hopt Hfresh.
  destruct (request_run uuid operation s Hopt Hfresh)
    as (s1 & Hissue & Hq1 & _ & _ & Hpersisted & Hreq).
  exists s1. repeat split; try assumption. apply Hreq.
Qed.


(** C10.  Every [saveQueue] writes the serialized queue and then publishes
    the status [mutations = queue size, inflight = false], whatever the
    status was: so do [add], [remove] and the [remove] the observer of
    [request] performs on a result; in particular, after a cycle has
    published [inflight = true] (the state [started s]), an [add] or a
    [remove] made before the cycle ends puts [inflight = false] back. *)
Theorem saveQueue_publishes_not_inflight (s : OfflineLink) (uuid item attemptId : value)
    (optimisticResponse result : value) :
  (log_of (saveQueue s) =
     [ESetItem storage_key (serialize (queue s));
      EWriteQuery (mkStatus (JSMap.size (queue s)) false)] /\
   client (state_of (saveQueue s)) = Some (mkStatus (JSMap.size (queue s)) false)) /\
  (log_of (add uuid item s) =
     [EQueueSet uuid item;
      ESetItem storage_key (serialize (queue (state_of (add uuid item s))));
      EWriteQuery (mkStatus (JSMap.size (queue (state_of (add uuid item s)))) false)] /\
   client (state_of (add uuid item s)) =
     Some (mkStatus (JSMap.size (queue (state_of (add uuid item s)))) false)) /\
  (log_of (remove attemptId s) =
     [EQueueDelete attemptId;
      ESetItem storage_key (serialize (queue (state_of (remove attemptId s))));
      EWriteQuery (mkStatus (JSMap.size (queue (state_of (remove attemptId s)))) false)] /\
   client (state_of (remove attemptId s)) =
     Some (mkStatus (JSMap.size (queue (state_of (remove attemptId s)))) false)) /\
  (client (started s) = Some (mkStatus (JSMap.size (queue s)) true) /\
   client (state_of (add uuid item (started s))) =
     Some (mkStatus (JSMap.size (JSMap.set uuid item (queue s))) false) /\
   client (state_of (remove attemptId (started s))) =
     Some (mkStatus (JSMap.size (JSMap.delete attemptId (queue s))) false) /\
   client (state_of (deliver attemptId optimisticResponse [FNext result] (started s))) =
     Some (mkStatus (JSMap.size (JSMap.delete attemptId (queue s))) false)).
Proof. repeat split. Qed.

Lemma sync_persists_at_end (net : Network) (s : OfflineLink) :
  queue s <> [] ->
  outcome_of (sync net s) = Ok tt ->
  persisted (state_of (sync net s)).
Proof.
  intros Hne Hok. rewrite (sync_run net s Hne) in *.
  destruct (replay_loop net s (started s)) as [[[[]|err] s1] log1]; [|discriminate].
  rewrite saveQueue_run in *. unfold persisted.
  destruct (0 <? JSMap.size (queue s1))%nat;
    cbn [state_of fst snd queue storage set_client set_storage set_delayedSync];
    apply getItem_setItem.
Qed.

(** C5 (as the code has it).  [add] and [remove] each change the queue and
    at once write the whole queue to storage, so storage and memory agree
    when they return.  Inside a [sync] pass the removals are made on the
    in-memory queue only; the pass writes the remaining queue once, when it
    completes, and storage and memory agree again from then. *)
Theorem add_remove_persist (net : Network) (s : OfflineLink) (uuid item attemptId : value) :
  (persisted_after_each_mutation (log_of (add uuid item s)) = true /\
   persisted (state_of (add uuid item s))) /\
  (persisted_after_each_mutation (log_of (remove attemptId s)) = true /\
   persisted (state_of (remove attemptId s))) /\
  (queue s <> [] -> outcome_of (sync net s) = Ok tt -> persisted (state_of (sync net s))).
Proof.
  split; [|split].
  - split; [reflexivity|]. rewrite add_run. apply getItem_setItem.
  - split; [reflexivity|]. rewrite remove_run. apply getItem_setItem.
  - apply sync_persists_at_end.
Qed.

Lemma construct_entries (q : JSMap.t) :
  NoDup (JSMap.keys q) -> JSMap.construct (VArr (JSMap.entries q)) = Ok q.
Proof. intros Hnd. cbn [JSMap.construct]. now rewrite add_entries_entries. Qed.

Lemma entries_json (q : JSMap.t) :
  Forall (fun e => JSON.is_json (fst e) = true /\ JSON.is_json (snd e) = true) q ->
  JSON.is_json (VArr (JSMap.entries q)) = true.
Proof.
  cbn [JSON.is_json]. induction 1 as [|[k v] q [Hk Hv] Hq IH]; [reflexivity|].
  cbn [fst snd] in Hk, Hv. cbn [JSMap.entries map forallb JSON.is_json fst snd].
  rewrite Hk, Hv. exact IH.
Qed.

Lemma getQueue_serialized (s : OfflineLink) (q : JSMap.t) :
  json_queue q ->
  getItem (storage s) storage_key = Some (serialize q) ->
  getQueue s = (Ok q, s, []).
Proof.
  intros [Hnd Hjson] Hstored.
  destruct (JSONFacts.parse_stringify (VArr (JSMap.entries q)) (entries_json _ Hjson))
    as (t & Ht & Hparse).
  unfold getQueue, bind, get. rewrite Hstored.
  unfold JSON_parse, serialize. rewrite Ht, Hparse, (construct_entries _ Hnd).
  reflexivity.
Qed.


(** [getQueue] never rejects and has no effect: whatever is stored, it
    resolves to some queue. *)
Lemma getQueue_total (s : OfflineLink) :
  exists q, getQueue s = (Ok q, s, []).
Proof.
  unfold getQueue, bind, get.
  destruct (JSON_parse (getItem (storage s) storage_key)) as [parsed|err];
    [|eexists; reflexivity].
  destruct (JSMap.construct parsed); eexists; reflexivity.
Qed.

(** C7.  [getQueue] resolves to an empty queue when nothing is stored under
    the storage key and when what is stored does not parse as JSON; in both
    cases it throws nothing, has no effect and leaves the link as it was.
    The serialized form of a queue of JSON data is not such a text: it is
    read back as that queue. *)
Theorem getQueue_absent_or_corrupt (s : OfflineLink) :
  (getItem (storage s) storage_key = None \/
   (exists stored, getItem (storage s) storage_key = Some stored /\
                   JSON.parse stored = None) ->
   getQueue s = (Ok [], s, [])) /\
  (forall q, json_queue q ->
             getItem (storage s) storage_key = Some (serialize q) ->
             getQueue s = (Ok q, s, [])).
Proof.
  split.
  - intros [Habsent | (stored & Hstored & Hcorrupt)]; unfold getQueue, bind, get.
    + rewrite Habsent. reflexivity.
    + rewrite Hstored. unfold JSON_parse. rewrite Hcorrupt. reflexivity.
  - intros q Hjson Hstored. now apply getQueue_serialized.
Qed.

Lemma last_cons (first next : Z) (rest : list Z) :
  last (next :: rest) first = last rest next.
Proof.
  revert first next. induction rest as [|x rest IH]; intros first next; [reflexivity|].
  change (last (next :: x :: rest) first) with (last (x :: rest) first).
  now rewrite (IH first x), (IH next x).
Qed.

Lemma run_coalesces (rest : list Z) (first : Z) (d : Debounce.t) :
  match Debounce.timer d with
  | None => True
  | Some deadline => (first < deadline)%Z
  end ->
  closely_spaced (Debounce.wait d) first rest ->
  Debounce.run d (first :: rest) = [(last rest first + Debounce.wait d)%Z].
Proof.
  revert first d. induction rest as [|next rest IH]; intros first d Htimer Hspaced.
  - cbn [Debounce.run last]. unfold Debounce.expire.
    destruct (Debounce.timer d) as [deadline|]; [|reflexivity].
    destruct (deadline <=? first)%Z eqn:E; [apply Z.leb_le in E; lia | reflexivity].
  - destruct Hspaced as [Hnext Hspaced].
    assert (E : Debounce.run d (first :: next :: rest) =
                Debounce.run (Debounce.call first d) (next :: rest)).
    { cbn [Debounce.run]. unfold Debounce.expire at 1.
      destruct (Debounce.timer d) as [deadline|]; [|reflexivity].
      destruct (deadline <=? first)%Z eqn:E; [apply Z.leb_le in E; lia | reflexivity]. }
    rewrite E, IH.
    + now rewrite last_cons.
    + cbn. lia.
    + exact Hspaced.
Qed.

(** C9.  Sync scheduling is debounced.  Each [this.delayedSync()] (from the
    failure callback of [request] or from the reschedule at the end of
    [sync]) re-arms the one timer of the link to [retryInterval] after the
    call.  For a non-negative [retryInterval], when the timer is idle, or
    not yet due at the first trigger, and the triggers come in order with
    less than [retryInterval] between consecutive ones, [sync] runs exactly
    once, [retryInterval] after the last trigger. *)
Theorem delayedSync_coalesces (s : OfflineLink) (first : Z) (rest : list Z) :
  (0 <= Debounce.wait (delayedSync s))%Z ->
  match Debounce.timer (delayedSync s) with
  | None => True
  | Some deadline => (first < deadline)%Z
  end ->
  closely_spaced (Debounce.wait (delayedSync s)) first rest ->
  delayedSync (state_of (call_delayedSync s)) = Debounce.call (clock s) (delayedSync s) /\
  Debounce.timer (Debounce.call (clock s) (delayedSync s)) =
    Some (clock s + Debounce.wait (delayedSync s))%Z /\
  Debounce.run (delayedSync s) (first :: rest) =
    [(last rest first + Debounce.wait (delayedSync s))%Z].
Proof.
  intros _ Htimer Hspaced. split; [reflexivity|]. split; [reflexivity|].
  now apply run_coalesces.
Qed.

(** ** Worked instances *)

Lemma demo_queue_nodup : NoDup (JSMap.keys demo_queue).
Proof. repeat constructor; cbn; intuition discriminate. Defined.

Lemma sync_keeps_refused_attempt_witness :
  In (VStr "b", demo_attempt "second")
     (queue (state_of (sync refusing_net (demo_link true demo_queue)))) /\
  storage (state_of (sync refusing_net (demo_link true demo_queue))) = [].
Proof.
  destruct (sync_keeps_refused_attempt refusing_net (demo_link true demo_queue)
              [(VStr "a", demo_attempt "first")] [(VStr "c", demo_attempt "third")]
              (VStr "b") (demo_attempt "second")
              (VObj [("graphQLErrors", VArr [not_allowed]); ("networkError", VNull)]))
    as (_ & H1 & _ & H2 & _).
  - reflexivity.
  - exact demo_queue_nodup.
  - reflexivity.
  - repeat constructor.
  - reflexivity.
  - discriminate.
  - reflexivity.
  - split; [exact H1 | exact H2].
Defined.

Lemma sync_sequential_stops_at_refusal_witness :
  mutate_calls (log_of (sync refusing_net (demo_link true demo_queue))) =
    [(VStr "a", options_sent true (demo_attempt "first"));
     (VStr "b", options_sent true (demo_attempt "second"))] /\
  queue (state_of (sync refusing_net (demo_link true demo_queue))) =
    [(VStr "b", demo_attempt "second"); (VStr "c", demo_attempt "third")].
Proof.
  destruct (sync_sequential_stops_at_refusal refusing_net (demo_link true demo_queue)
              [(VStr "a", demo_attempt "first")] [(VStr "c", demo_attempt "third")]
              (VStr "b") (demo_attempt "second")
              (VObj [("graphQLErrors", VArr [not_allowed]); ("networkError", VNull)]))
    as (_ & H1 & H2 & _).
  - reflexivity.
  - exact demo_queue_nodup.
  - reflexivity.
  - repeat constructor.
  - reflexivity.
  - discriminate.
  - reflexivity.
  - split; [exact H1 | exact H2].
Defined.

Lemma sync_empty_queue_witness :
  sync demo_net (demo_link false []) = (Ok tt, demo_link false [], []).
Proof. apply (sync_empty_queue demo_net (demo_link false [])). reflexivity. Defined.

Lemma request_enqueues_before_forward_witness :
  exists s1,
    issue (VStr "d") demo_operation (demo_link false demo_queue) =
    (Ok (VStr "d"), s1,
     [EQueueSet (VStr "d") (attempt_of demo_operation);
      ESetItem storage_key (serialize (demo_queue ++ [(VStr "d", attempt_of demo_operation)]));
      EWriteQuery (mkStatus 4 false);
      EForward demo_operation]) /\
    queue s1 = demo_queue ++ [(VStr "d", attempt_of demo_operation)].
Proof.
  destruct (request_enqueues_before_forward (VStr "d") demo_operation
              (fun _ => [FError VNull]) (demo_link false demo_queue)) as (s1 & H1 & H2 & _).
  - reflexivity.
  - cbn. intuition discriminate.
  - exists s1. split; [exact H1 | exact H2].
Defined.


Lemma add_remove_persist_witness :
  persisted (state_of (sync online_net two_queued)).
Proof.
  refine (proj2 (proj2 (add_remove_persist online_net two_queued VNull VNull VNull)) _ _).
  - vm_compute. discriminate.
  - reflexivity.
Defined.

(** The claim C5 as the specification states it fails in a sync pass: in
    sequential mode with two queued attempts that both succeed, neither
    removal is followed by a [setItem], and before the closing [saveQueue]
    the in-memory queue is empty while storage still holds both attempts. *)
Lemma sync_removals_not_persisted :
  persisted_after_each_mutation (log_of (sync online_net two_queued)) = false /\
  queue (state_of ((updateStatus true ;; sync_sequential online_net (queue two_queued))
                     two_queued)) = [] /\
  getItem (storage (state_of ((updateStatus true ;;
                               sync_sequential online_net (queue two_queued))
                                two_queued))) storage_key =
    Some (serialize [(VStr "a", demo_attempt "first"); (VStr "b", demo_attempt "second")]).
Proof. vm_compute. repeat split. Qed.



Lemma getQueue_absent_or_corrupt_witness :
  getQueue (demo_link false demo_queue) = (Ok [], demo_link false demo_queue, []) /\
  getQueue (mkLink [(storage_key, "[[1,")] false demo_queue (Debounce.create 1000) None 0) =
    (Ok [], mkLink [(storage_key, "[[1,")] false demo_queue (Debounce.create 1000) None 0, []) /\
  getQueue (mkLink [(storage_key, serialize priced_queue)] false []
              (Debounce.create 1000) None 0) =
    (Ok priced_queue,
     mkLink [(storage_key, serialize priced_queue)] false [] (Debounce.create 1000) None 0,
     []).
Proof.
  split; [|split].
  - apply (proj1 (getQueue_absent_or_corrupt (demo_link false demo_queue))).
    left. reflexivity.
  - apply (proj1 (getQueue_absent_or_corrupt
                    (mkLink [(storage_key, "[[1,")] false demo_queue
                       (Debounce.create 1000) None 0))).
    right. exists "[[1,". split; reflexivity.
  - apply (proj2 (getQueue_absent_or_corrupt
                    (mkLink [(storage_key, serialize priced_queue)] false []
                       (Debounce.create 1000) None 0))).
    + split; [repeat constructor; cbn; intuition discriminate | repeat constructor].
    + reflexivity.
Defined.

(** A stored text with a fraction, an exponent and a [\u] escape is not a
    corrupt one: [getQueue] restores its entry. *)
Lemma getQueue_reads_numbers_and_escapes :
  getQueue (mkLink [(storage_key, priced_text)] false [] (Debounce.create 1000) None 0) =
  (Ok [(VStr "a", VObj [("price", VDec false 1 (Decimal.D5 Decimal.Nil));
                        ("count", VNum 1000);
                        ("unit", VStr euro)])],
   mkLink [(storage_key, priced_text)] false [] (Debounce.create 1000) None 0, []).
Proof. vm_compute. reflexivity. Qed.

Lemma delayedSync_coalesces_witness :
  Debounce.run (delayedSync (demo_link false demo_queue)) [0; 400; 1300; 2299]%Z = [3299%Z].
Proof.
  refine (proj2 (proj2 (delayedSync_coalesces (demo_link false demo_queue) 0
                          [400; 1300; 2299]%Z _ _ _))).
  - cbn. lia.
  - exact I.
  - cbn. lia.
Defined.

(** * Further properties of the code *)

(** ** The queue under [add] and [remove] *)

(** X1.  [add] files the attempt under its id: afterwards the queue maps the
    id to the item and every entry under another id is as before.  A new id
    goes to the end of the queue; an id already in the queue keeps its
    place and only has its payload replaced, so the ids, their order and
    the size of the queue do not change. *)
Theorem add_then_lookup (uuid item : value) (s : OfflineLink) :
  In (uuid, item) (queue (state_of (add uuid item s))) /\
  (forall x, fst x <> uuid ->
             (In x (queue (state_of (add uuid item s))) <-> In x (queue s))) /\
  (~ In uuid (JSMap.keys (queue s)) ->
   queue (state_of (add uuid item s)) = queue s ++ [(uuid, item)]) /\
  (In uuid (JSMap.keys (queue s)) ->
   JSMap.keys (queue (state_of (add uuid item s))) = JSMap.keys (queue s)).
Proof.
  rewrite add_run. cbn [state_of fst snd queue set_client set_storage set_queue].
  split; [apply set_present|]. split; [intros x Hx; now apply set_others|].
  split; [apply set_fresh | apply set_existing_keys].
Qed.

(** X2.  [remove] is idempotent: a second [remove] of the same id leaves the
    link exactly as the first did.  After it the id is not in the queue and
    every entry under another id is as before.  For an id that is not
    queued the queue is unchanged, yet [remove] still writes the queue to
    storage and publishes the status. *)
Theorem remove_idempotent (attemptId : value) (s : OfflineLink) :
  state_of (remove attemptId (state_of (remove attemptId s))) =
    state_of (remove attemptId s) /\
  ~ In attemptId (JSMap.keys (queue (state_of (remove attemptId s)))) /\
  (forall x, fst x <> attemptId ->
             (In x (queue (state_of (remove attemptId s))) <-> In x (queue s))) /\
  (~ In attemptId (JSMap.keys (queue s)) ->
   queue (state_of (remove attemptId s)) = queue s /\
   log_of (remove attemptId s) =
     [EQueueDelete attemptId;
      ESetItem storage_key (serialize (queue s));
      EWriteQuery (mkStatus (JSMap.size (queue s)) false)]).
Proof.
  rewrite !remove_run.
  cbn [state_of log_of fst snd queue storage set_client set_storage set_queue].
  split; [|split; [|split]].
  - unfold set_client, set_storage, set_queue. cbn.
    now rewrite delete_idempotent, setItem_setItem.
  - intros Hin. apply in_map_iff in Hin as (x & Hx & Hin).
    apply delete_in in Hin as [_ Hne]. congruence.
  - intros x Hx. rewrite delete_in. tauto.
  - intros Hout. rewrite (delete_absent _ _ Hout). split; reflexivity.
Qed.

(** ** What a cycle may do to the queue *)

Lemma sync_queue_deleted (net : Network) (s : OfflineLink) :
  sequential s = true ->
  exists dels, queue (state_of (sync net s)) = delete_all dels (queue s).
Proof.
  intros Hseq. destruct (queue s) as [|e q] eqn:Eq.
  - exists []. unfold sync, bind, get. rewrite Eq. cbn. now rewrite Eq.
  - assert (Hne : queue s <> []) by (rewrite Eq; discriminate).
    destruct (sync_sequential_state net s Hseq) as (r & dels & log & Hloop).
    destruct (sync_after_loop net s _ r log Hne Hloop) as [Hqueue _].
    exists dels. rewrite Hqueue, <- Eq. reflexivity.
Qed.

(** X3.  A sequential sync cycle only ever removes attempts: whatever the
    network does, the queue after the cycle is the queue before it with
    some entries filtered out.  The attempts that remain keep their ids,
    payloads and relative order, and the queue does not grow. *)
Theorem sync_only_removes (net : Network) (s : OfflineLink) :
  sequential s = true ->
  (exists keep, queue (state_of (sync net s)) = filter keep (queue s)) /\
  (forall x, In x (queue (state_of (sync net s))) -> In x (queue s)) /\
  JSMap.size (queue (state_of (sync net s))) <= JSMap.size (queue s).
Proof.
  intros Hseq. destruct (sync_queue_deleted net s Hseq) as [dels Hq].
  rewrite Hq, delete_all_filter. split; [|split].
  - eexists. reflexivity.
  - intros x Hx. now apply filter_In in Hx as [Hx _].
  - apply filter_size.
Qed.

(** X5.  How a cycle that runs to its end leaves the link.  Whenever [sync]
    on a non-empty queue resolves, the status it last published is
    [inflight = false] with the number of attempts that remain, the log
    ends with the [setItem] of the remaining queue and that status, and the
    debounced sync is called again exactly when attempts remain.  With an
    empty queue the timer is left as it was, except in concurrent mode when
    a replay that came back through [request] has armed it on the way. *)
Theorem sync_completion (net : Network) (s : OfflineLink) :
  queue s <> [] ->
  outcome_of (sync net s) = Ok tt ->
  client (state_of (sync net s)) =
    Some (mkStatus (JSMap.size (queue (state_of (sync net s)))) false) /\
  (delayedSync (state_of (sync net s)) =
     (if (0 <? JSMap.size (queue (state_of (sync net s))))%nat
      then Debounce.call (clock s) (delayedSync s)
      else delayedSync s) \/
   (sequential s = false /\
    queue (state_of (sync net s)) = [] /\
    delayedSync (state_of (sync net s)) = Debounce.call (clock s) (delayedSync s))) /\
  exists replays,
    log_of (sync net s) =
    EWriteQuery (mkStatus (JSMap.size (queue s)) true) :: replays ++
    [ESetItem storage_key (serialize (queue (state_of (sync net s))));
     EWriteQuery (mkStatus (JSMap.size (queue (state_of (sync net s)))) false)] ++
    (if (0 <? JSMap.size (queue (state_of (sync net s))))%nat then [EDelayedSync] else []).
Proof.
  intros Hne Hok. rewrite (sync_run net s Hne) in *.
  assert (Hinv : clock (state_of (replay_loop net s (started s))) = clock s /\
                 (delayedSync (state_of (replay_loop net s (started s))) = delayedSync s \/
                  delayedSync (state_of (replay_loop net s (started s))) =
                    Debounce.call (clock s) (delayedSync s))).
  { apply (keeps_replay_loop _ (stable_timer s) net s (started s)).
    split; [reflexivity | now left]. }
  assert (Hseq : sequential s = true ->
                 delayedSync (state_of (replay_loop net s (started s))) = delayedSync s).
  { intros Hseq. destruct (sync_sequential_state net s Hseq) as (r & dels & log & ->).
    reflexivity. }
  destruct (replay_loop net s (started s)) as [[[[]|err] s1] log1]; [|discriminate].
  cbn [state_of fst snd] in Hinv, Hseq. destruct Hinv as [Hclock Htimer].
  rewrite saveQueue_run in *.
  destruct (0 <? JSMap.size (queue s1))%nat eqn:E;
    cbn [state_of log_of fst snd queue client delayedSync clock
         set_client set_storage set_queue set_delayedSync];
    rewrite E; (split; [reflexivity|]); (split; [|exists log1; reflexivity]).
  - left. rewrite Hclock. destruct Htimer as [-> | ->]; reflexivity.
  - destruct (sequential s); [left; now apply Hseq|].
    destruct Htimer as [Ht|Ht]; [now left | right].
    split; [reflexivity|]. split; [|exact Ht].
    unfold JSMap.size in E. now destruct (queue s1).
Qed.

(** X6.  A sequential cycle in which every replay is accepted, or refused
    with an HTTP response, empties the queue: [sync] resolves, the queue is
    empty, the stored text is the empty list, the published status is
    [mutations = 0, inflight = false], and no further cycle is scheduled. *)
Theorem sync_drains_queue (net : Network) (s : OfflineLink) :
  sequential s = true ->
  queue s <> [] ->
  Forall (fun e => answered (replay_outcome net e) = true) (queue s) ->
  outcome_of (sync net s) = Ok tt /\
  queue (state_of (sync net s)) = [] /\
  getItem (storage (state_of (sync net s))) storage_key = Some "[]"%string /\
  client (state_of (sync net s)) = Some (mkStatus 0 false) /\
  delayedSync (state_of (sync net s)) = delayedSync s.
Proof.
  intros Hseq Hne Hall.
  assert (Hrem : Forall (fun e => removable net e = true) (queue s)).
  { eapply Forall_impl; [|exact Hall]. intros e He. now rewrite removable_answered. }
  assert (Hloop : exists log,
             replay_loop net s (started s) = (Ok tt, set_queue [] (started s), log)).
  { unfold replay_loop. rewrite Hseq.
    pose proof (sync_sequential_removable net (queue s) [] (started s) Hrem) as Hr.
    rewrite List.app_nil_r in Hr. rewrite Hr. cbn [sync_sequential ret].
    change (queue (started s)) with (queue s).
    rewrite delete_all_covering
      by (intros x Hx; now apply (in_map fst) in Hx).
    eexists. reflexivity. }
  destruct Hloop as [log Hloop].
  rewrite (sync_run net s Hne), Hloop, saveQueue_run.
  cbn [queue set_queue JSMap.size List.length Nat.ltb Nat.leb
       state_of outcome_of log_of fst snd storage client delayedSync
       set_client set_storage started].
  repeat split. apply getItem_setItem.
Qed.

(** X7.  An error without [networkError] aborts a sequential cycle.  When
    the replay of an attempt rejects with an error on which
    [err.networkError.response] cannot be read, the handler throws: [sync]
    rejects with that exception after the replays made so far, the attempt
    and those behind it stay in the in-memory queue, nothing is written to
    storage, the status is left at [inflight = true] and no further cycle
    is scheduled. *)
Theorem sync_sequential_aborts (net : Network) (s : OfflineLink) (pre rest : JSMap.t)
    (attemptId attempt err exn : value) :
  sequential s = true ->
  NoDup (JSMap.keys (queue s)) ->
  queue s = pre ++ (attemptId, attempt) :: rest ->
  Forall (fun e => answered (replay_outcome net e) = true) pre ->
  mutate net attemptId (options_sent true attempt) = Rejected err ->
  has_response err = Throw exn ->
  outcome_of (sync net s) = Throw exn /\
  log_of (sync net s) =
    EWriteQuery (mkStatus (JSMap.size (queue s)) true)
      :: flat_map (removal_events true) pre
      ++ [EMutate attemptId (options_sent true attempt)] /\
  queue (state_of (sync net s)) = (attemptId, attempt) :: rest /\
  storage (state_of (sync net s)) = storage s /\
  client (state_of (sync net s)) = Some (mkStatus (JSMap.size (queue s)) true) /\
  delayedSync (state_of (sync net s)) = delayedSync s.
Proof.
  intros Hseq Hnd Hq Hpre Hrej Hthrow.
  rewrite (sync_sequential_abort net s pre rest attemptId attempt err exn
             Hseq Hnd Hq Hpre Hrej Hthrow).
  repeat split.
Qed.

Lemma replay_verdict_answered (net : Network) (e : value * value) :
  answered (replay_outcome net e) = true -> replay_verdict net e <> RetryableFailure.
Proof.
  unfold replay_verdict, replay_outcome, answered.
  destruct (mutate net (fst e) (options_sent true (snd e))) as [result|err];
    [discriminate|].
  cbn [verdict]. now intros ->.
Qed.

Lemma replay_verdict_unanswered (net : Network) (e : value * value) (err : value) :
  replay_outcome net e = Rejected err ->
  unanswered (Rejected err) = true ->
  graphql_errors err = [] ->
  replay_verdict net e = RetryableFailure.
Proof.
  unfold replay_verdict, replay_outcome. intros -> Hun Hgql. cbn [verdict unanswered] in *.
  rewrite Hgql. destruct (network_error err); try discriminate;
    apply negb_true_iff in Hun; now rewrite Hun.
Qed.

(** X18.  Sequential replay, in the cases the handlers of [sync] tell
    apart.  In sequential mode the attempts are replayed in insertion order,
    one at a time.  Every attempt before the first one that fails in the
    link without an HTTP response was accepted, or refused with an HTTP
    response (a success or a terminal failure): it is replayed, then
    removed, before the next one is replayed.  The first attempt whose
    replay fails in the link without a response is replayed and is the
    last one tried: it and the attempts behind it stay in the queue, which
    is then written to storage and published, and the debounced sync is
    called when attempts remain.  Such a failure is a retryable one when
    the error carries no GraphQL errors. *)
Theorem sync_sequential_replays_in_order (net : Network) (s : OfflineLink)
    (pre rest : JSMap.t) :
  sequential s = true ->
  NoDup (JSMap.keys (queue s)) ->
  queue s = pre ++ rest ->
  queue s <> [] ->
  Forall (fun e => answered (replay_outcome net e) = true) pre ->
  match rest with
  | [] => True
  | e :: _ => unanswered (replay_outcome net e) = true
  end ->
  outcome_of (sync net s) = Ok tt /\
  log_of (sync net s) =
    EWriteQuery (mkStatus (JSMap.size (queue s)) true)
      :: flat_map (removal_events true) pre
      ++ map (fun e => EMutate (fst e) (options_sent true (snd e))) (firstn 1 rest)
      ++ [ESetItem storage_key (serialize rest);
          EWriteQuery (mkStatus (JSMap.size rest) false)]
      ++ (if (0 <? JSMap.size rest)%nat then [EDelayedSync] else []) /\
  queue (state_of (sync net s)) = rest /\
  Forall (fun e => replay_verdict net e <> RetryableFailure) pre /\
  Forall (fun e => forall err, replay_outcome net e = Rejected err ->
                               graphql_errors err = [] ->
                               replay_verdict net e = RetryableFailure) (firstn 1 rest).
Proof.
  intros Hseq Hnd Hq Hne Hpre Hrest.
  assert (Hpre' : Forall (fun e => removable net e = true) pre).
  { eapply Forall_impl; [|exact Hpre]. intros e He. now rewrite removable_answered. }
  assert (Hdel : delete_all pre (queue s) = rest).
  { rewrite Hq. apply delete_all_prefix. now rewrite <- Hq. }
  assert (Hloop : replay_loop net s (started s) =
                  (Ok tt, set_queue rest (started s),
                   flat_map (removal_events true) pre ++
                   map (fun e => EMutate (fst e) (options_sent true (snd e)))
                     (firstn 1 rest))).
  { unfold replay_loop. rewrite Hseq. rewrite Hq at 1.
    rewrite (sync_sequential_removable net pre rest (started s) Hpre').
    change (queue (started s)) with (queue s). rewrite Hdel.
    destruct rest as [|e rest]; [reflexivity|].
    now rewrite (sync_sequential_unanswered net e rest _ Hrest). }
  rewrite (sync_run net s Hne), Hloop, saveQueue_run.
  cbn [queue set_queue].
  split; [|split; [|split; [|split]]].
  - now destruct (0 <? JSMap.size rest)%nat.
  - destruct (0 <? JSMap.size rest)%nat; cbn [log_of snd];
      rewrite <- ?List.app_assoc; reflexivity.
  - now destruct (0 <? JSMap.size rest)%nat.
  - eapply Forall_impl; [|exact Hpre]. intros e He. now apply replay_verdict_answered.
  - destruct rest as [|e rest]; constructor; [|constructor].
    intros err Hrej Hgql. apply (replay_verdict_unanswered net e err Hrej); [|exact Hgql].
    now rewrite <- Hrej.
Qed.

(** ** A concurrent cycle *)

Lemma notifications_app (l1 l2 : list Event) :
  notifications (l1 ++ l2) = notifications l1 ++ notifications l2.
Proof. apply filter_app. Qed.

Lemma deliver_handed (attemptId optimisticResponse : value) (emissions : list Emission)
    (s : OfflineLink) :
  notifications (log_of (deliver attemptId optimisticResponse emissions s)) =
  handed optimisticResponse emissions.
Proof.
  revert s. induction emissions as [|[result|networkError|] emissions IH]; intros s;
    try reflexivity.
  rewrite deliver_next. cbn [log_of snd handed].
  rewrite notifications_app, remove_run. cbn [log_of snd notifications filter app].
  fold (notifications
          (log_of (deliver attemptId optimisticResponse emissions
                     (state_of (remove attemptId s))))).
  now rewrite IH.
Qed.

Lemma deliver_no_mutate (attemptId optimisticResponse : value) (emissions : list Emission)
    (s : OfflineLink) :
  mutate_calls (log_of (deliver attemptId optimisticResponse emissions s)) = [].
Proof.
  revert s. induction emissions as [|[result|networkError|] emissions IH]; intros s;
    try reflexivity.
  rewrite deliver_next. cbn [log_of snd].
  rewrite mutate_calls_app, remove_run. cbn [log_of snd mutate_calls flat_map app].
  apply IH.
Qed.

Lemma delete_all_app (a b q : JSMap.t) :
  delete_all (a ++ b) q = delete_all b (delete_all a q).
Proof. apply fold_left_app. Qed.

Lemma call_mutate_intercepted (net : Network) (attemptId options : value)
    (s : OfflineLink) :
  intercepted options = true ->
  call_mutate net attemptId options s =
  (Ok tt,
   state_of (add (replay_uuid net attemptId) (attempt_of (operation_of options)) s),
   EMutate attemptId options
     :: log_of (add (replay_uuid net attemptId) (attempt_of (operation_of options)) s)
     ++ [EForward (operation_of options)]).
Proof. intros H. unfold call_mutate. rewrite H. reflexivity. Qed.

(** Launching the replays of a concurrent cycle queues a clone of every
    attempt that is intercepted again. *)
Lemma launch_intercepted (net : Network) (attempts : JSMap.t) (s : OfflineLink) :
  Forall (fun e => intercepted (snd e) = true) attempts ->
  NoDup (JSMap.keys (queue s ++ map (clone net) attempts)) ->
  outcome_of (launch net attempts s) = Ok tt /\
  queue (state_of (launch net attempts s)) = queue s ++ map (clone net) attempts /\
  mutate_calls (log_of (launch net attempts s)) = attempts.
Proof.
  intros Hall. revert s. induction Hall as [|[k v] l Hk Hl IH]; intros s Hnd.
  - cbn. now rewrite List.app_nil_r.
  - cbn [snd] in Hk. cbn [launch]. unfold bind.
    rewrite (call_mutate_intercepted net k v s Hk), add_run.
    cbn [state_of log_of fst snd].
    assert (Hfresh : ~ In (replay_uuid net k) (JSMap.keys (queue s))).
    { unfold JSMap.keys in Hnd. rewrite map_app in Hnd. cbn [map fst clone] in Hnd.
      apply NoDup_remove_2 in Hnd. rewrite in_app_iff in Hnd. tauto. }
    rewrite (set_fresh _ _ _ Hfresh).
    match goal with
    | |- context [launch net l ?st] =>
        destruct (IH st) as (Ho & Hq & Hc);
        [|destruct (launch net l st) as [[r s2] log2]]
    end.
    { cbn [queue set_client set_storage set_queue]. rewrite <- List.app_assoc. exact Hnd. }
    cbn [outcome_of state_of log_of fst snd] in *. subst r.
    split; [reflexivity|]. split.
    + rewrite Hq. cbn [queue set_client set_storage set_queue map].
      now rewrite <- List.app_assoc.
    + cbn [mutate_calls flat_map app].
      fold (mutate_calls log2). now rewrite Hc.
Qed.

Lemma settle_intercepted (net : Network) (e : value * value) (s : OfflineLink) :
  intercepted (snd e) = true ->
  answered (replay_settles net e) = true ->
  outcome_of (settle net (fst e) (snd e) s) = Ok tt /\
  queue (state_of (settle net (fst e) (snd e) s)) =
    delete_all ((if starts_with_result (replay_emissions net e)
                 then [clone net e] else []) ++ [e]) (queue s) /\
  mutate_calls (log_of (settle net (fst e) (snd e) s)) = [].
Proof.
  destruct e as [k v]. cbn [fst snd]. intros Hint Hans.
  pose proof (deliver_outcome (replay_uuid net k)
                (obj_get "optimisticResponse" (context (operation_of v)))
                (replay_forward net k (operation_of v)) s) as Ho.
  pose proof (deliver_queue (replay_uuid net k)
                (obj_get "optimisticResponse" (context (operation_of v)))
                (replay_forward net k (operation_of v)) s) as Hq.
  pose proof (deliver_handed (replay_uuid net k)
                (obj_get "optimisticResponse" (context (operation_of v)))
                (replay_forward net k (operation_of v)) s) as Hh.
  pose proof (deliver_no_mutate (replay_uuid net k)
                (obj_get "optimisticResponse" (context (operation_of v)))
                (replay_forward net k (operation_of v)) s) as Hm.
  destruct (deliver (replay_uuid net k)
              (obj_get "optimisticResponse" (context (operation_of v)))
              (replay_forward net k (operation_of v)) s) as [[r s1] log1] eqn:Hd.
  cbn [outcome_of state_of log_of fst snd] in Ho, Hq, Hh, Hm. subst r.
  assert (Hrun : settle net k v s =
                 (Ok tt, set_queue (JSMap.delete k (queue s1)) s1,
                  log1 ++ [EQueueDelete k])).
  { unfold settle, settle_mutate. rewrite Hint. unfold bind, listen. rewrite Hd, Hh.
    cbn [ret].
    change (replay_promise net k
              (handed (obj_get "optimisticResponse" (context (operation_of v)))
                 (replay_forward net k (operation_of v))))
      with (replay_settles net (k, v)).
    destruct (replay_settles net (k, v)) as [result|err].
    - cbn. now rewrite List.app_nil_r.
    - cbn [answered] in Hans.
      assert (Hr : has_response err = Ok true).
      { pose proof (has_response_shape err) as Hs. unfold server_response in *.
        destruct (network_error err); try discriminate; now rewrite Hs, Hans. }
      unfold lift. rewrite Hr. cbn. now rewrite List.app_nil_r. }
  rewrite Hrun. cbn [outcome_of state_of log_of fst snd queue set_queue].
  split; [reflexivity|]. split.
  - rewrite Hq. unfold replay_emissions. cbn [fst snd].
    now destruct (starts_with_result (replay_forward net k (operation_of v))).
  - now rewrite mutate_calls_app, Hm.
Qed.

Lemma settle_all_intercepted (net : Network) (settled : JSMap.t) (s : OfflineLink) :
  Forall (fun e => intercepted (snd e) = true) settled ->
  Forall (fun e => answered (replay_settles net e) = true) settled ->
  outcome_of (settle_all net settled s) = Ok tt /\
  queue (state_of (settle_all net settled s)) =
    delete_all (settled_deletes net settled) (queue s) /\
  mutate_calls (log_of (settle_all net settled s)) = [].
Proof.
  revert s. induction settled as [|e l IH]; intros s Hint Hans; [repeat split|].
  inversion Hint as [|? ? Hi Hint']; subst. inversion Hans as [|? ? Ha Hans']; subst.
  destruct (settle_intercepted net e s Hi Ha) as (Ho & Hq & Hm).
  destruct e as [k v]. cbn [fst snd] in *.
  cbn [settle_all]. unfold bind.
  destruct (settle net k v s) as [[r s1] log1].
  cbn [outcome_of state_of log_of fst snd] in Ho, Hq, Hm. subst r.
  destruct (IH s1 Hint' Hans') as (Ho2 & Hq2 & Hm2).
  destruct (settle_all net l s1) as [[r s2] log2].
  cbn [outcome_of state_of log_of fst snd] in *. subst r.
  split; [reflexivity|]. split.
  - rewrite Hq2, Hq. unfold settled_deletes. cbn [flat_map].
    symmetry. apply delete_all_app.
  - now rewrite mutate_calls_app, Hm, Hm2.
Qed.

Lemma filter_map_in {A B : Type} (f : B -> bool) (g : A -> B) (h : A -> bool)
    (l : list A) :
  (forall a, In a l -> f (g a) = h a) ->
  filter f (map g l) = map g (filter h l).
Proof.
  induction l as [|a l IH]; intros H; [reflexivity|].
  cbn [map filter]. rewrite (H a (or_introl eq_refl)).
  rewrite IH by (intros b Hb; apply H; now right).
  now destruct (h a).
Qed.

Lemma filter_none {A : Type} (f : A -> bool) (l : list A) :
  (forall a, In a l -> f a = false) -> filter f l = [].
Proof.
  induction l as [|a l IH]; intros H; [reflexivity|].
  cbn [filter]. rewrite (H a (or_introl eq_refl)). apply IH.
  intros b Hb. apply H. now right.
Qed.

Lemma nodup_map_injective {A B : Type} (g : A -> B) (l : list A) (a b : A) :
  NoDup (map g l) -> In a l -> In b l -> g a = g b -> a = b.
Proof.
  induction l as [|x l IH]; cbn; intros Hnd Ha Hb E; [easy|].
  inversion Hnd as [|? ? Hx Hnd']; subst.
  destruct Ha as [->|Ha], Hb as [->|Hb]; try reflexivity.
  - exfalso. apply Hx. rewrite E. now apply in_map.
  - exfalso. apply Hx. rewrite <- E. now apply in_map.
  - now apply IH.
Qed.

(** What is left of the old entries and of their clones once every replay
    has settled. *)
Lemma settled_deletes_result (net : Network) (settled q : JSMap.t) :
  NoDup (JSMap.keys (q ++ map (clone net) q)) ->
  Permutation settled q ->
  delete_all (settled_deletes net settled) (q ++ map (clone net) q) =
  map (clone net)
    (filter (fun e => negb (starts_with_result (replay_emissions net e))) q).
Proof.
  intros Hnd Hperm. rewrite delete_all_filter, filter_app.
  unfold JSMap.keys in Hnd. rewrite map_app in Hnd.
  assert (Hold : forall x, In x q -> In x (settled_deletes net settled)).
  { intros x Hx. apply in_flat_map. exists x. split.
    - apply (Permutation_in _ (Permutation_sym Hperm)), Hx.
    - apply in_app_iff. right. now left. }
  rewrite filter_none.
  - cbn [app]. apply filter_map_in. intros e He. f_equal.
    destruct (starts_with_result (replay_emissions net e)) eqn:Hres.
    + apply existsb_exists. exists (clone net e). split; [|apply value_eqb_refl].
      apply in_flat_map. exists e. split.
      * apply (Permutation_in _ (Permutation_sym Hperm)), He.
      * rewrite Hres. now left.
    + apply not_true_is_false. intros Hex.
      apply existsb_exists in Hex as (d & Hd & Hk). apply value_eqb_eq in Hk.
      apply in_flat_map in Hd as (e' & He' & Hd).
      apply (Permutation_in _ Hperm) in He'.
      apply in_app_iff in Hd as [Hd|[<-|[]]].
      * destruct (starts_with_result (replay_emissions net e')) eqn:Hres'; [|destruct Hd].
        destruct Hd as [<-|[]].
        assert (E : e = e').
        { apply (nodup_map_injective (fun x => fst (clone net x)) q); try assumption.
          rewrite <- map_map. now apply NoDup_app_remove_l in Hnd. }
        subst e'. congruence.
      * apply (disjoint_keys _ _ (fst e') Hnd); [now apply in_map|].
        rewrite <- Hk. apply in_map. now apply in_map.
  - intros x Hx. apply negb_false_iff, existsb_exists.
    exists x. split; [now apply Hold | apply value_eqb_refl].
Qed.

(** X4.  In concurrent mode [sync] calls [client.mutate] once for every
    queued attempt, in queue order, with the attempt itself as options.
    The attempts still carry their optimistic response, so every replay
    comes back through [request] and is queued once more under a new id.
    When every promise resolves (or rejects with an HTTP response) the old
    entries are all removed, whatever the network did; the clone of a
    replay is removed only if the forward link produced a result for it.
    So the queue after the cycle holds a clone of every attempt whose
    replay failed in the link, with or without a response of the server,
    in the original order: the order in which the replays settle makes no
    difference. *)
Theorem sync_concurrent_requeues (net : Network) (s : OfflineLink) :
  sequential s = false ->
  queue s <> [] ->
  NoDup (JSMap.keys (queue s ++ map (clone net) (queue s))) ->
  Permutation (settle_order net (queue s)) (queue s) ->
  Forall (fun e => intercepted (snd e) = true) (queue s) ->
  Forall (fun e => answered (replay_settles net e) = true) (queue s) ->
  outcome_of (sync net s) = Ok tt /\
  mutate_calls (log_of (sync net s)) = queue s /\
  queue (state_of (sync net s)) =
    map (clone net)
      (filter (fun e => negb (starts_with_result (replay_emissions net e))) (queue s)) /\
  persisted (state_of (sync net s)).
Proof.
  intros Hseq Hne Hnd Hperm Hint Hans.
  destruct (launch_intercepted net (queue s) (started s) Hint Hnd) as (Ho1 & Hq1 & Hc1).
  assert (Hint' : Forall (fun e => intercepted (snd e) = true) (settle_order net (queue s))).
  { rewrite Forall_forall in *. intros x Hx. apply Hint, (Permutation_in _ Hperm), Hx. }
  assert (Hans' : Forall (fun e => answered (replay_settles net e) = true)
                    (settle_order net (queue s))).
  { rewrite Forall_forall in *. intros x Hx. apply Hans, (Permutation_in _ Hperm), Hx. }
  assert (Hloop : exists s1 log1,
             replay_loop net s (started s) = (Ok tt, s1, log1) /\
             queue s1 =
               map (clone net)
                 (filter (fun e => negb (starts_with_result (replay_emissions net e)))
                    (queue s)) /\
             mutate_calls log1 = queue s).
  { unfold replay_loop, sync_concurrent. rewrite Hseq. unfold bind.
    destruct (launch net (queue s) (started s)) as [[r s0] log0].
    cbn [outcome_of state_of log_of fst snd] in Ho1, Hq1, Hc1. subst r.
    destruct (settle_all_intercepted net (settle_order net (queue s)) s0 Hint' Hans')
      as (Ho2 & Hq2 & Hc2).
    destruct (settle_all net (settle_order net (queue s)) s0) as [[r s1] log1].
    cbn [outcome_of state_of log_of fst snd] in Ho2, Hq2, Hc2. subst r.
    exists s1, (log0 ++ log1). split; [reflexivity|]. split.
    - rewrite Hq2, Hq1. change (queue (started s)) with (queue s).
      now apply settled_deletes_result.
    - now rewrite mutate_calls_app, Hc1, Hc2, List.app_nil_r. }
  destruct Hloop as (s1 & log1 & Hloop & Hq & Hcalls).
  assert (Hok : outcome_of (sync net s) = Ok tt).
  { rewrite (sync_run net s Hne), Hloop, saveQueue_run.
    now destruct (0 <? JSMap.size (queue s1))%nat. }
  destruct (sync_after_loop net s s1 (Ok tt) log1 Hne Hloop) as [Hqueue (tail & Hlog & Htail)].
  split; [exact Hok|]. split; [|split].
  - rewrite Hlog. cbn [mutate_calls flat_map app]. fold (mutate_calls (log1 ++ tail)).
    now rewrite mutate_calls_app, Htail, Hcalls, List.app_nil_r.
  - now rewrite Hqueue.
  - now apply sync_persists_at_end.
Qed.

Lemma launch_timer (net : Network) (attempts : JSMap.t) (s : OfflineLink) :
  delayedSync (state_of (launch net attempts s)) = delayedSync s.
Proof.
  revert s. induction attempts as [|[k v] l IH]; intros s; [reflexivity|].
  cbn [launch]. unfold bind.
  assert (H : exists s0 log0,
             call_mutate net k v s = (Ok tt, s0, log0) /\ delayedSync s0 = delayedSync s).
  { destruct (intercepted v) eqn:Hint.
    - rewrite (call_mutate_intercepted net k v s Hint), add_run.
      eexists. eexists. split; reflexivity.
    - unfold call_mutate. rewrite Hint. eexists. eexists. split; reflexivity. }
  destruct H as (s0 & log0 & -> & Hd). specialize (IH s0).
  destruct (launch net l s0) as [[r s2] log2]. cbn [state_of fst snd] in *. congruence.
Qed.

Lemma delete_app_absent (k : value) (q1 q2 : JSMap.t) :
  ~ In k (JSMap.keys q1) -> JSMap.delete k (q1 ++ q2) = q1 ++ JSMap.delete k q2.
Proof.
  intros Hk. unfold JSMap.delete. rewrite filter_app. f_equal.
  now apply delete_absent.
Qed.

Lemma settle_refused (net : Network) (attemptId attempt result err exn : value)
    (s : OfflineLink) :
  intercepted attempt = true ->
  replay_emissions net (attemptId, attempt) = [FNext result; FComplete] ->
  replay_settles net (attemptId, attempt) = Rejected err ->
  has_response err = Throw exn ->
  settle net attemptId attempt s =
  (Throw exn, state_of (remove (replay_uuid net attemptId) s),
   log_of (remove (replay_uuid net attemptId) s) ++ [ENext result; EComplete]).
Proof.
  intros Hi Hemit Hrej Hthrow.
  unfold replay_settles, replay_emissions in *. cbn [fst snd] in *.
  rewrite Hemit in Hrej. cbn [handed] in Hrej.
  unfold settle, settle_mutate. rewrite Hi, Hemit. unfold bind, listen.
  rewrite deliver_next. cbn [deliver emit outcome_of state_of log_of fst snd].
  rewrite notifications_app, remove_run.
  cbn [log_of state_of fst snd notifications filter app ret].
  rewrite Hrej. unfold lift. rewrite Hthrow. reflexivity.
Qed.

(** X17.  A refused replay aborts a concurrent cycle and leaves the queue
    longer than it was.  In concurrent mode every replay is launched, and
    each comes back through [request], which queues and persists a clone.
    When the first replay to settle was processed and refused by the server
    (a result, then completion, on which the client rejects with an error
    without [networkError]), [request] removes its clone and persists, and
    the handler of [sync] throws: [sync] rejects with that exception, every
    old entry is still queued together with the clones of the other
    replays, storage holds that queue and the published status is
    [inflight = false]; the cycle schedules no further one. *)
Theorem sync_concurrent_aborts (net : Network) (s : OfflineLink)
    (attemptId attempt result err exn : value) (others : JSMap.t) :
  sequential s = false ->
  NoDup (JSMap.keys (queue s ++ map (clone net) (queue s))) ->
  In (attemptId, attempt) (queue s) ->
  settle_order net (queue s) = (attemptId, attempt) :: others ->
  Forall (fun e => intercepted (snd e) = true) (queue s) ->
  replay_emissions net (attemptId, attempt) = [FNext result; FComplete] ->
  replay_settles net (attemptId, attempt) = Rejected err ->
  has_response err = Throw exn ->
  outcome_of (sync net s) = Throw exn /\
  mutate_calls (log_of (sync net s)) = queue s /\
  queue (state_of (sync net s)) =
    queue s ++ JSMap.delete (replay_uuid net attemptId) (map (clone net) (queue s)) /\
  persisted (state_of (sync net s)) /\
  client (state_of (sync net s)) =
    Some (mkStatus (JSMap.size (queue (state_of (sync net s)))) false) /\
  delayedSync (state_of (sync net s)) = delayedSync s.
Proof.
  intros Hseq Hnd Hin Hsettle Hint Hemit Hrej Hthrow.
  assert (Hne : queue s <> []) by (intros E; rewrite E in Hin; exact Hin).
  assert (Hi : intercepted attempt = true).
  { rewrite Forall_forall in Hint. exact (Hint _ Hin). }
  destruct (launch_intercepted net (queue s) (started s) Hint Hnd) as (Ho1 & Hq1 & Hc1).
  pose proof (launch_timer net (queue s) (started s)) as Ht1.
  assert (Hfresh : ~ In (replay_uuid net attemptId) (JSMap.keys (queue s))).
  { intros Hk. unfold JSMap.keys in Hnd. rewrite map_app in Hnd.
    apply (disjoint_keys _ _ (replay_uuid net attemptId) Hnd Hk).
    apply (in_map fst _ (clone net (attemptId, attempt))). now apply in_map. }
  assert (Hloop : exists s0 log0,
             launch net (queue s) (started s) = (Ok tt, s0, log0) /\
             replay_loop net s (started s) =
             (Throw exn, state_of (remove (replay_uuid net attemptId) s0),
              log0 ++ log_of (remove (replay_uuid net attemptId) s0)
                   ++ [ENext result; EComplete])).
  { unfold replay_loop, sync_concurrent. rewrite Hseq, Hsettle. unfold bind at 1.
    destruct (launch net (queue s) (started s)) as [[r s0] log0].
    cbn [outcome_of fst] in Ho1. subst r. exists s0, log0. split; [reflexivity|].
    cbn [settle_all]. unfold bind at 1.
    now rewrite (settle_refused net attemptId attempt result err exn s0
                   Hi Hemit Hrej Hthrow). }
  destruct Hloop as (s0 & log0 & Hlaunch & Hloop).
  rewrite Hlaunch in Hq1, Hc1, Ht1. cbn [state_of log_of fst snd] in Hq1, Hc1, Ht1.
  change (queue (started s)) with (queue s) in Hq1.
  rewrite (sync_run net s Hne), Hloop, remove_run.
  cbn [outcome_of state_of log_of fst snd queue storage client delayedSync
       set_client set_storage set_queue].
  split; [reflexivity|]. split; [|split; [|split; [|split]]].
  - cbn [mutate_calls flat_map app].
    fold (mutate_calls (log0 ++
                        [EQueueDelete (replay_uuid net attemptId);
                         ESetItem storage_key
                           (serialize (JSMap.delete (replay_uuid net attemptId) (queue s0)));
                         EWriteQuery
                           (mkStatus
                              (JSMap.size (JSMap.delete (replay_uuid net attemptId) (queue s0)))
                              false); ENext result; EComplete])).
    rewrite mutate_calls_app, Hc1. apply List.app_nil_r.
  - rewrite Hq1. now apply delete_app_absent.
  - unfold persisted. cbn [storage queue set_client set_storage set_queue].
    apply getItem_setItem.
  - reflexivity.
  - exact Ht1.
Qed.

(** ** Interception *)

(** X8.  A write without an optimistic response passes through untouched:
    [request] hands the operation to the forward link and the caller gets
    what that link emits, errors included; nothing is queued, stored,
    published or scheduled, and the link is left exactly as it was. *)
Theorem request_passes_through (uuid : value) (operation : Operation)
    (forward : Operation -> list Emission) (s : OfflineLink) :
  truthy (obj_get "optimisticResponse" (context operation)) = false ->
  request uuid operation forward s =
  (Ok tt, s, EForward operation :: relayed (forward operation)).
Proof.
  intros Hopt. unfold request. rewrite Hopt. cbn [negb].
  unfold bind, emit. rewrite pass_through_run. reflexivity.
Qed.

(** X9.  What an intercepted write leaves behind.  With an optimistic
    response and a fresh id, whatever the forward link emits: [request]
    never throws; if the first thing the forward link produces is a result
    the queue ends as it was before the call, otherwise (an error, a bare
    completion, or nothing yet) the queue ends with the new attempt
    appended; in every case the stored text is the serialized queue. *)
Theorem request_queue_after (uuid : value) (operation : Operation)
    (forward : Operation -> list Emission) (s : OfflineLink) :
  truthy (obj_get "optimisticResponse" (context operation)) = true ->
  ~ In uuid (JSMap.keys (queue s)) ->
  outcome_of (request uuid operation forward s) = Ok tt /\
  queue (state_of (request uuid operation forward s)) =
    (if starts_with_result (forward operation)
     then queue s
     else queue s ++ [(uuid, attempt_of operation)]) /\
  persisted (state_of (request uuid operation forward s)).
Proof.
  intros Hopt Hfresh.
  destruct (request_run uuid operation s Hopt Hfresh)
    as (s1 & _ & Hq1 & _ & _ & Hpersisted & Hreq).
  rewrite Hreq. cbn [outcome_of state_of fst snd].
  split; [apply deliver_outcome|]. split; [|now apply deliver_persisted].
  rewrite deliver_queue, Hq1.
  destruct (starts_with_result (forward operation)); [|reflexivity].
  now apply delete_appended.
Qed.

(** X10.  The successful write.  When the forward link answers an
    intercepted write with a result and then completes, [request] enqueues
    and persists the attempt, forwards, then removes the attempt and
    persists again before it hands the caller the real result and the
    completion; the debounced sync is not called, and the queue and the
    published count are back to what they were before the call. *)
Theorem request_success (uuid : value) (operation : Operation)
    (forward : Operation -> list Emission) (result : value) (later : list Emission)
    (s : OfflineLink) :
  truthy (obj_get "optimisticResponse" (context operation)) = true ->
  ~ In uuid (JSMap.keys (queue s)) ->
  forward operation = FNext result :: FComplete :: later ->
  log_of (request uuid operation forward s) =
    [EQueueSet uuid (attempt_of operation);
     ESetItem storage_key (serialize (queue s ++ [(uuid, attempt_of operation)]));
     EWriteQuery (mkStatus (S (JSMap.size (queue s))) false);
     EForward operation;
     EQueueDelete uuid;
     ESetItem storage_key (serialize (queue s));
     EWriteQuery (mkStatus (JSMap.size (queue s)) false);
     ENext result;
     EComplete] /\
  queue (state_of (request uuid operation forward s)) = queue s /\
  client (state_of (request uuid operation forward s)) =
    Some (mkStatus (JSMap.size (queue s)) false) /\
  delayedSync (state_of (request uuid operation forward s)) = delayedSync s.
Proof.
  intros Hopt Hfresh Hfwd.
  destruct (request_run uuid operation s Hopt Hfresh)
    as (s1 & _ & Hq1 & _ & Hd1 & _ & Hreq).
  rewrite Hreq, Hfwd, deliver_next, remove_run.
  cbn [deliver emit state_of log_of fst snd queue client delayedSync
       set_client set_storage set_queue app].
  rewrite Hq1, (delete_appended _ _ _ Hfresh), Hd1. repeat split.
Qed.

(** X11.  The ids of the queue stay distinct: [add], [remove], a sync cycle
    and an intercepted write each take a queue with distinct ids to a queue
    with distinct ids. *)
Theorem ids_stay_distinct (net : Network) (s : OfflineLink) (uuid item attemptId : value)
    (operation : Operation) (forward : Operation -> list Emission) :
  NoDup (JSMap.keys (queue s)) ->
  NoDup (JSMap.keys (queue (state_of (add uuid item s)))) /\
  NoDup (JSMap.keys (queue (state_of (remove attemptId s)))) /\
  NoDup (JSMap.keys (queue (state_of (sync net s)))) /\
  NoDup (JSMap.keys (queue (state_of (request uuid operation forward s)))).
Proof.
  intros Hnd. split; [|split; [|split]].
  - now apply (keeps_add _ stable_distinct_ids).
  - now apply (keeps_remove _ stable_distinct_ids).
  - now apply (keeps_sync _ stable_distinct_ids).
  - now apply (keeps_request _ stable_distinct_ids).
Qed.

(** ** Hydration and start-up *)

Lemma add_entries_refused (items : list value) (acc : JSMap.t) :
  existsb (fun e => match e with
                    | VArr _ | VObj _ => false
                    | _ => true
                    end) items = true ->
  exists err, JSMap.add_entries acc items = Throw err.
Proof.
  revert acc. induction items as [|e items IH]; intros acc H; [discriminate|].
  cbn [existsb] in H. cbn [JSMap.add_entries].
  destruct e; cbn [JSMap.entry_of]; try (eexists; reflexivity);
    cbn [orb] in H; apply IH, H.
Qed.

Lemma construct_refused (v : value) :
  not_entries v = true -> exists err, JSMap.construct v = Throw err.
Proof.
  destruct v; cbn [not_entries JSMap.construct]; try discriminate;
    try (intros _; eexists; reflexivity).
  - destruct s as [|c s]; [discriminate|]. intros _. eexists. reflexivity.
  - apply add_entries_refused.
Qed.

(** X12.  [getQueue] never rejects and never changes the link: whatever the
    storage holds it resolves to some queue.  In particular a stored text
    that is valid JSON but not a list of entries (a number, a boolean, an
    object, a non-empty string, an array with a primitive item) makes
    [new Map] throw inside the [then] callback, and the queue comes back
    empty. *)
Theorem getQueue_not_entries (s : OfflineLink) :
  (exists q, getQueue s = (Ok q, s, [])) /\
  (forall stored parsed,
      getItem (storage s) storage_key = Some stored ->
      JSON.parse stored = Some parsed ->
      not_entries parsed = true ->
      getQueue s = (Ok [], s, [])).
Proof.
  split; [apply getQueue_total|].
  intros stored parsed Hstored Hparsed Hshape.
  destruct (construct_refused parsed Hshape) as [err Herr].
  unfold getQueue, bind, get, JSON_parse. rewrite Hstored, Hparsed, Herr. reflexivity.
Qed.

Lemma setup_run (net : Network) (s : OfflineLink) (q : JSMap.t) :
  getQueue s = (Ok q, s, []) -> setup net s = sync net (set_queue q s).
Proof.
  intros Hq. unfold setup. unfold bind at 1. rewrite Hq.
  unfold bind at 1, get at 1. unfold bind at 1, put at 1.
  destruct (sync net (set_queue q s)) as [[r s2] log2]. reflexivity.
Qed.

(** X13.  Queued writes survive a restart.  When a link whose queue is JSON
    data with distinct ids has its queue persisted, a new link constructed
    over the same storage gets that very queue back from [getQueue], and
    its [setup] is a sync cycle over that queue. *)
Theorem restart_restores_queue (net : Network) (s : OfflineLink)
    (retryInterval : option Z) (seq : option bool) (now : Z) :
  json_queue (queue s) ->
  persisted s ->
  exists fresh,
    constructor (Some (storage s)) retryInterval seq now = Ok fresh /\
    queue fresh = [] /\
    getQueue fresh = (Ok (queue s), fresh, []) /\
    setup net fresh = sync net (set_queue (queue s) fresh).
Proof.
  intros Hjson Hpersisted. eexists. split; [reflexivity|]. split; [reflexivity|].
  assert (Hq : forall fresh, storage fresh = storage s ->
                             getQueue fresh = (Ok (queue s), fresh, [])).
  { intros fresh Hst. apply getQueue_serialized; [exact Hjson|].
    rewrite Hst. exact Hpersisted. }
  split; [now apply Hq | apply setup_run; now apply Hq].
Qed.

(** X14.  [setup] replaces the in-memory queue by what [getQueue] reads
    from storage, whatever was queued in memory before, and runs a sync
    cycle over it.  When the stored text is the serialized form of a queue
    of JSON data, that queue is what the cycle replays.  On a first run
    (nothing stored) or over a text that does not parse, [setup] leaves the
    queue empty and does nothing else: no status is published, no network
    call is made and nothing is written. *)
Theorem setup_hydrates_then_syncs (net : Network) (s : OfflineLink) :
  (exists q, getQueue s = (Ok q, s, []) /\ setup net s = sync net (set_queue q s)) /\
  (forall q, json_queue q ->
             getItem (storage s) storage_key = Some (serialize q) ->
             setup net s = sync net (set_queue q s)) /\
  (getItem (storage s) storage_key = None \/
   (exists stored, getItem (storage s) storage_key = Some stored /\
                   JSON.parse stored = None) ->
   setup net s = (Ok tt, set_queue [] s, [])).
Proof.
  split; [|split].
  - destruct (getQueue_total s) as [q Hq]. exists q. split; [exact Hq|].
    now apply setup_run.
  - intros q Hjson Hstored. apply setup_run. now apply getQueue_serialized.
  - intros H.
    assert (Hq : getQueue s = (Ok [], s, [])).
    { unfold getQueue, bind, get.
      destruct H as [Habsent | (stored & Hstored & Hcorrupt)].
      - rewrite Habsent. reflexivity.
      - rewrite Hstored. unfold JSON_parse. rewrite Hcorrupt. reflexivity. }
    rewrite (setup_run net s [] Hq). reflexivity.
Qed.

(** ** From a failed write to its replay *)


(** ** Worked instances of the further properties *)

Lemma add_then_lookup_witness :
  JSMap.keys (queue (state_of (add (VStr "b") VNull (demo_link false demo_queue)))) =
    JSMap.keys demo_queue /\
  queue (state_of (add (VStr "d") VNull (demo_link false demo_queue))) =
    demo_queue ++ [(VStr "d", VNull)].
Proof.
  split.
  - apply (proj2 (proj2 (proj2 (add_then_lookup (VStr "b") VNull
                                   (demo_link false demo_queue))))).
    cbn. tauto.
  - apply (proj1 (proj2 (proj2 (add_then_lookup (VStr "d") VNull
                                   (demo_link false demo_queue))))).
    cbn. intuition discriminate.
Defined.

Lemma remove_idempotent_witness :
  queue (state_of (remove (VStr "z") (demo_link false demo_queue))) = demo_queue /\
  log_of (remove (VStr "z") (demo_link false demo_queue)) =
    [EQueueDelete (VStr "z");
     ESetItem storage_key (serialize demo_queue);
     EWriteQuery (mkStatus 3 false)].
Proof.
  apply (proj2 (proj2 (proj2 (remove_idempotent (VStr "z") (demo_link false demo_queue))))).
  cbn. intuition discriminate.
Defined.

Lemma sync_only_removes_witness :
  JSMap.size (queue (state_of (sync demo_net (demo_link true demo_queue)))) <= 3.
Proof.
  apply (proj2 (proj2 (sync_only_removes demo_net (demo_link true demo_queue) eq_refl))).
Defined.

Lemma sync_completion_witness :
  client (state_of (sync demo_net (demo_link true demo_queue))) =
    Some (mkStatus 2 false).
Proof.
  destruct (sync_completion demo_net (demo_link true demo_queue)) as (H1 & _ & _).
  - discriminate.
  - reflexivity.
  - exact H1.
Defined.

(** The exception in X5: in concurrent mode the replay comes back through
    [request]; when the link hands over a result and then fails, the clone
    is removed, the timer is armed and the client's promise resolves, so
    the cycle ends with an empty queue and an armed timer. *)
Lemma sync_concurrent_arms_timer :
  outcome_of (sync partial_net (demo_link false [(VStr "a", demo_attempt "first")])) = Ok tt /\
  queue (state_of (sync partial_net (demo_link false [(VStr "a", demo_attempt "first")]))) = [] /\
  delayedSync (state_of (sync partial_net (demo_link false [(VStr "a", demo_attempt "first")]))) =
    Debounce.mk 1000 (Some 1000%Z) /\
  delayedSync (demo_link false [(VStr "a", demo_attempt "first")]) = Debounce.mk 1000 None.
Proof. vm_compute. repeat split. Qed.

Lemma sync_drains_queue_witness :
  queue (state_of (sync online_net two_queued)) = [] /\
  client (state_of (sync online_net two_queued)) = Some (mkStatus 0 false).
Proof.
  destruct (sync_drains_queue online_net two_queued) as (_ & H1 & _ & H2 & _).
  - reflexivity.
  - vm_compute. discriminate.
  - repeat constructor.
  - split; [exact H1 | exact H2].
Defined.

Lemma sync_sequential_aborts_witness :
  queue (state_of (sync rejecting_net (demo_link true demo_queue))) = demo_queue /\
  storage (state_of (sync rejecting_net (demo_link true demo_queue))) = [] /\
  client (state_of (sync rejecting_net (demo_link true demo_queue))) =
    Some (mkStatus 3 true).
Proof.
  destruct (sync_sequential_aborts rejecting_net (demo_link true demo_queue) []
              [(VStr "b", demo_attempt "second"); (VStr "c", demo_attempt "third")]
              (VStr "a") (demo_attempt "first") refused
              (TypeError "Cannot read property of null"))
    as (_ & _ & H1 & H2 & H3 & _).
  - reflexivity.
  - exact demo_queue_nodup.
  - reflexivity.
  - constructor.
  - reflexivity.
  - reflexivity.
  - split; [exact H1 | split; [exact H2 | exact H3]].
Defined.

Lemma sync_sequential_replays_in_order_witness :
  mutate_calls (log_of (sync demo_net (demo_link true reordered_queue))) =
    [(VStr "a", options_sent true (demo_attempt "first"));
     (VStr "c", options_sent true (demo_attempt "third"));
     (VStr "b", options_sent true (demo_attempt "second"))] /\
  queue (state_of (sync demo_net (demo_link true reordered_queue))) =
    [(VStr "b", demo_attempt "second"); (VStr "d", demo_attempt "fourth")].
Proof.
  destruct (sync_sequential_replays_in_order demo_net (demo_link true reordered_queue)
              [(VStr "a", demo_attempt "first"); (VStr "c", demo_attempt "third")]
              [(VStr "b", demo_attempt "second"); (VStr "d", demo_attempt "fourth")])
    as (_ & H1 & H2 & _).
  - reflexivity.
  - repeat constructor; cbn; intuition discriminate.
  - reflexivity.
  - discriminate.
  - repeat constructor.
  - reflexivity.
  - split; [rewrite H1; reflexivity | exact H2].
Defined.

Lemma request_passes_through_witness :
  request (VStr "d") plain_operation (fun _ => [FNext (VObj []); FError VNull])
    (demo_link false demo_queue) =
  (Ok tt, demo_link false demo_queue,
   [EForward plain_operation; ENext (VObj []); EError VNull]).
Proof.
  apply (request_passes_through (VStr "d") plain_operation
           (fun _ => [FNext (VObj []); FError VNull]) (demo_link false demo_queue)).
  reflexivity.
Defined.

Lemma request_queue_after_witness :
  queue (state_of (request (VStr "d") demo_operation (fun _ => [FComplete])
                     (demo_link false demo_queue))) =
    demo_queue ++ [(VStr "d", attempt_of demo_operation)] /\
  queue (state_of (request (VStr "d") demo_operation
                     (fun _ => [FNext (VObj []); FError VNull])
                     (demo_link false demo_queue))) = demo_queue.
Proof.
  split.
  - refine (proj1 (proj2 (request_queue_after (VStr "d") demo_operation
                            (fun _ => [FComplete]) (demo_link false demo_queue) _ _))).
    + reflexivity.
    + cbn. intuition discriminate.
  - refine (proj1 (proj2 (request_queue_after (VStr "d") demo_operation
                            (fun _ => [FNext (VObj []); FError VNull])
                            (demo_link false demo_queue) _ _))).
    + reflexivity.
    + cbn. intuition discriminate.
Defined.

Lemma request_success_witness :
  queue (state_of (request (VStr "d") demo_operation
                     (fun _ => [FNext (VObj [("data", VObj [])]); FComplete])
                     (demo_link false demo_queue))) = demo_queue /\
  client (state_of (request (VStr "d") demo_operation
                      (fun _ => [FNext (VObj [("data", VObj [])]); FComplete])
                      (demo_link false demo_queue))) = Some (mkStatus 3 false).
Proof.
  destruct (request_success (VStr "d") demo_operation
              (fun _ => [FNext (VObj [("data", VObj [])]); FComplete])
              (VObj [("data", VObj [])]) [] (demo_link false demo_queue))
    as (_ & H1 & H2 & _).
  - reflexivity.
  - cbn. intuition discriminate.
  - reflexivity.
  - split; [exact H1 | exact H2].
Defined.

Lemma ids_stay_distinct_witness :
  NoDup (JSMap.keys (queue (state_of (sync demo_net (demo_link false demo_queue))))) /\
  NoDup (JSMap.keys (queue (state_of (add (VStr "b") VNull (demo_link false demo_queue))))).
Proof.
  destruct (ids_stay_distinct demo_net (demo_link false demo_queue) (VStr "b") VNull
              (VStr "a") demo_operation (fun _ => []) demo_queue_nodup)
    as (H1 & _ & H2 & _).
  split; [exact H2 | exact H1].
Defined.

Lemma getQueue_not_entries_witness :
  getQueue (mkLink [(storage_key, "[1,2]"%string)] false demo_queue
              (Debounce.create 1000) None 0) =
  (Ok [], mkLink [(storage_key, "[1,2]"%string)] false demo_queue
            (Debounce.create 1000) None 0, []).
Proof.
  apply (proj2 (getQueue_not_entries
                  (mkLink [(storage_key, "[1,2]"%string)] false demo_queue
                     (Debounce.create 1000) None 0))
           "[1,2]"%string (VArr [VNum 1; VNum 2])); reflexivity.
Defined.

Lemma restart_restores_queue_witness :
  exists fresh,
    constructor (Some (storage (state_of (saveQueue (demo_link false demo_queue)))))
      None None 50 = Ok fresh /\
    getQueue fresh = (Ok demo_queue, fresh, []).
Proof.
  destruct (restart_restores_queue demo_net
              (state_of (saveQueue (demo_link false demo_queue))) None None 50)
    as (fresh & H1 & _ & H2 & _).
  - split; [exact demo_queue_nodup | repeat constructor].
  - reflexivity.
  - exists fresh. split; [exact H1 | exact H2].
Defined.

Lemma setup_hydrates_then_syncs_witness :
  setup demo_net (demo_link true demo_queue) = (Ok tt, demo_link true [], []) /\
  setup demo_net (mkLink [(storage_key, serialize priced_queue)] true demo_queue
                    (Debounce.create 1000) None 0) =
  sync demo_net (mkLink [(storage_key, serialize priced_queue)] true priced_queue
                   (Debounce.create 1000) None 0).
Proof.
  split.
  - apply (proj2 (proj2 (setup_hydrates_then_syncs demo_net (demo_link true demo_queue)))).
    left. reflexivity.
  - apply (proj1 (proj2 (setup_hydrates_then_syncs demo_net
                           (mkLink [(storage_key, serialize priced_queue)] true demo_queue
                              (Debounce.create 1000) None 0))) priced_queue).
    + split; [repeat constructor; cbn; intuition discriminate | repeat constructor].
    + reflexivity.
Defined.


Lemma sync_concurrent_requeues_witness :
  queue (state_of (sync demo_net (demo_link false demo_queue))) =
    [(VStr "r-b", demo_attempt "second"); (VStr "r-c", demo_attempt "third")] /\
  verdict (Rejected (VObj [("networkError", bad_request)])) = TerminalFailure.
Proof.
  split; [|reflexivity].
  refine (proj1 (proj2 (proj2 (sync_concurrent_requeues demo_net (demo_link false demo_queue)
                                 eq_refl _ _ _ _ _)))).
  - discriminate.
  - repeat constructor; cbn; intuition discriminate.
  - apply Permutation_sym, Permutation_rev.
  - repeat constructor.
  - repeat constructor.
Defined.

Lemma sync_concurrent_aborts_witness :
  JSMap.keys (queue (state_of (sync rejecting_net (demo_link false demo_queue)))) =
    [VStr "a"; VStr "b"; VStr "c"; VStr "r-b"; VStr "r-c"] /\
  client (state_of (sync rejecting_net (demo_link false demo_queue))) =
    Some (mkStatus 5 false).
Proof.
  destruct (sync_concurrent_aborts rejecting_net (demo_link false demo_queue)
              (VStr "a") (demo_attempt "first") refusal refused
              (TypeError "Cannot read property of null")
              [(VStr "b", demo_attempt "second"); (VStr "c", demo_attempt "third")])
    as (_ & _ & H1 & _ & H2 & _).
  - reflexivity.
  - repeat constructor; cbn; intuition discriminate.
  - now left.
  - reflexivity.
  - repeat constructor.
  - reflexivity.
  - reflexivity.
  - reflexivity.
  - split; [now rewrite H1 | now rewrite H2, H1].
Defined.

